(** * VR LinguaGlance: orientation fusion, gaze/dwell engine, stereo texture
      windows and the beat-synchronised note spawner.

    A shallow embedding of the interaction core of the player
    ([App], [VRVideoRenderer], [EyeView], [RhythmGameRenderer]) together
    with the properties the specification states about it, and of the
    code around that core: the translation service, the subtitle
    renderer and parser, the reticle, the library with its format dialog,
    seeking, zoom and the clock.

    Conventions of the embedding.
    - JavaScript numbers that carry angles, pixels and progress are exact
      rationals ([Q], compared with [==]); timestamps, frame counters and
      scores are integers ([Z]).  Rounding of doubles is not modelled.
    - The strings of the subtitle parser are sequences of UTF-16 code units
      ([Cues.Text]); [parseInt] is computed for the integers a double
      holds exactly, up to [2^53], and left open beyond them.
    - React state cells and refs of [App] are the fields of one record,
      [AppState]; every handler is a function [AppState -> AppState].
    - The shared [Set<string>] of consumed note ids is a [gset string].
    - Calls that leave the core (the translation request, play/pause, the
      calibration overlay, a score update) are appended to the [log] field,
      newest first, so that "which activation path ran" can be stated. *)

From Stdlib Require Import ZArith QArith Qminmax Qabs Qround Lqa Lia List Bool
  Ascii String DecimalString.
From stdpp Require Import base decidable option strings gmap.
Import ListNotations.

Local Open Scope Z_scope.
Local Open Scope Q_scope.

(** * The embedding *)

(** ** Numbers *)

Module Num.

(** [a > b] on numbers, as a boolean. *)
Definition gtb (a b : Q) : bool := negb (Qle_bool a b).
(** [a < b]. *)
Definition ltb (a b : Q) : bool := negb (Qle_bool b a).
(** [a >= b]. *)
Definition geb (a b : Q) : bool := Qle_bool b a.

(** [Math.max(lo, Math.min(hi, v))]. *)
Definition clamp (lo hi v : Q) : Q := Qmax lo (Qmin hi v).

(** [Math.abs]. *)
Definition abs (a : Q) : Q := Qabs a.

(** [v || 0] for a nullable number: [null] and [0] both give [0]. *)
Definition orZero (v : option Q) : Q :=
  match v with Some a => a | None => 0 end.

(** Truthiness of a string read from a [dataset]: [undefined] and the
    empty string are falsy. *)
Definition truthy (v : option string) : option string :=
  match v with
  | Some w => if String.eqb w "" then None else Some w
  | None => None
  end.

(** [v || ''] for a [dataset] string. *)
Definition orEmpty (v : option string) : string :=
  match v with Some w => w | None => ""%string end.

End Num.

(** ** types.ts *)

Inductive VRMode := NONE | MAGIC_WINDOW | STEREO.
Inductive ControlMode := SENSOR | TOUCH.
Inductive DragAxis := FREE | HORIZONTAL.
Inductive Eye := eye_left | eye_right | eye_single.

Inductive VideoFormat :=
| MONO_2D | STEREO_SBS | STEREO_TB
| VR180_SBS | VR180_TB | VR180_MONO
| VR360_SBS | VR360_TB | VR360_MONO.

Record GameStats := mkStats { score : Z; combo : Z; maxCombo : Z }.

Record GameNote := mkNote {
  note_id : string; lane : Z; spawnTime : Z; note_z : Q; isHit : bool }.

Record WordDefinition := mkDef { def_word : string; def_translation : string }.

Record PlayerConfig := mkConfig {
  mode : VRMode; isGameMode : bool;
  controlMode : ControlMode; dragAxis : DragAxis }.

(** [{x: pitch, y: yaw}] in degrees. *)
Record Rotation := mkRot { rot_x : Q; rot_y : Q }.

(** [{alpha, beta, gamma}] as stored in [baseRotation] and
    [lastRawOrientation]. *)
Record Orientation := mkOri { alpha : Q; beta : Q; gamma : Q }.

(** A [DeviceOrientationEvent]: each axis is a number or [null]. *)
Record OrientationEvent := mkOriEv {
  e_alpha : option Q; e_beta : option Q; e_gamma : option Q }.

(** ** The state of [App]

    [view], [playerConfig], [gameStats], [showSettingsOverlay], [isSeeking],
    [isPlaying], [hoveredWord], [dwellProgress], [isTranslating],
    [definition], [headRotation], [isCalibrationMode] and [touchRotation]
    are the [useState] cells of the same names; [hitObjects], [isDragging],
    [lastPointer], [lastPinchDist], [baseRotation], [lastRawOrientation] and
    [lastHoverTime] are the [useRef] cells ([hitObjectsRef.current] and so
    on).  The media element is taken to be mounted, as it is throughout the
    player view, and [isPlaying] mirrors its [paused] flag.  State that only
    drives page chrome (control auto-hide, zoom, volume, library) is left
    out. *)

Inductive View := library | player.

(** Calls leaving the core, in the order the handlers make them. *)
Inductive Effect :=
| ECalibrate                       (* setIsCalibrationMode(true) from an action target *)
| ETogglePlay                      (* togglePlay() *)
| ERecenter                        (* confirmRecenter() *)
| EScore (noteId : string)         (* setGameStats(prev => ...) for a note *)
| ELookup (w sentence : string)    (* handleTranslate(word, sentence) *)
| ECloseDefinition.                (* closeDefinition() *)

Record AppState := mkApp {
  view : View;
  playerConfig : PlayerConfig;
  gameStats : GameStats;
  hitObjects : gset string;
  showSettingsOverlay : bool;
  isSeeking : bool;
  isPlaying : bool;
  hoveredWord : option string;
  dwellProgress : Q;
  isTranslating : bool;
  definition : option WordDefinition;
  headRotation : Rotation;
  isCalibrationMode : bool;
  touchRotation : Rotation;
  isDragging : bool;
  lastPointer : Q * Q;
  lastPinchDist : option Q;
  baseRotation : option Orientation;
  lastRawOrientation : option Orientation;
  lastHoverTime : Z;
  log : list Effect }.

(** Field updates ([setX(v)] for a state cell, [xRef.current = v] for a ref). *)

Definition set_gameStats (v : GameStats) (s : AppState) : AppState :=
  {| view := view s; playerConfig := playerConfig s; gameStats := v;
     hitObjects := hitObjects s;
     showSettingsOverlay := showSettingsOverlay s; isSeeking := isSeeking s;
     isPlaying := isPlaying s; hoveredWord := hoveredWord s;
     dwellProgress := dwellProgress s; isTranslating := isTranslating s;
     definition := definition s; headRotation := headRotation s;
     isCalibrationMode := isCalibrationMode s;
     touchRotation := touchRotation s; isDragging := isDragging s;
     lastPointer := lastPointer s; lastPinchDist := lastPinchDist s;
     baseRotation := baseRotation s;
     lastRawOrientation := lastRawOrientation s;
     lastHoverTime := lastHoverTime s; log := log s |}.

Definition set_hitObjects (v : gset string) (s : AppState) : AppState :=
  {| view := view s; playerConfig := playerConfig s;
     gameStats := gameStats s; hitObjects := v;
     showSettingsOverlay := showSettingsOverlay s; isSeeking := isSeeking s;
     isPlaying := isPlaying s; hoveredWord := hoveredWord s;
     dwellProgress := dwellProgress s; isTranslating := isTranslating s;
     definition := definition s; headRotation := headRotation s;
     isCalibrationMode := isCalibrationMode s;
     touchRotation := touchRotation s; isDragging := isDragging s;
     lastPointer := lastPointer s; lastPinchDist := lastPinchDist s;
     baseRotation := baseRotation s;
     lastRawOrientation := lastRawOrientation s;
     lastHoverTime := lastHoverTime s; log := log s |}.

Definition set_isSeeking (v : bool) (s : AppState) : AppState :=
  {| view := view s; playerConfig := playerConfig s;
     gameStats := gameStats s; hitObjects := hitObjects s;
     showSettingsOverlay := showSettingsOverlay s; isSeeking := v;
     isPlaying := isPlaying s; hoveredWord := hoveredWord s;
     dwellProgress := dwellProgress s; isTranslating := isTranslating s;
     definition := definition s; headRotation := headRotation s;
     isCalibrationMode := isCalibrationMode s;
     touchRotation := touchRotation s; isDragging := isDragging s;
     lastPointer := lastPointer s; lastPinchDist := lastPinchDist s;
     baseRotation := baseRotation s;
     lastRawOrientation := lastRawOrientation s;
     lastHoverTime := lastHoverTime s; log := log s |}.

Definition set_isPlaying (v : bool) (s : AppState) : AppState :=
  {| view := view s; playerConfig := playerConfig s;
     gameStats := gameStats s; hitObjects := hitObjects s;
     showSettingsOverlay := showSettingsOverlay s; isSeeking := isSeeking s;
     isPlaying := v; hoveredWord := hoveredWord s;
     dwellProgress := dwellProgress s; isTranslating := isTranslating s;
     definition := definition s; headRotation := headRotation s;
     isCalibrationMode := isCalibrationMode s;
     touchRotation := touchRotation s; isDragging := isDragging s;
     lastPointer := lastPointer s; lastPinchDist := lastPinchDist s;
     baseRotation := baseRotation s;
     lastRawOrientation := lastRawOrientation s;
     lastHoverTime := lastHoverTime s; log := log s |}.

Definition set_hoveredWord (v : option string) (s : AppState) : AppState :=
  {| view := view s; playerConfig := playerConfig s;
     gameStats := gameStats s; hitObjects := hitObjects s;
     showSettingsOverlay := showSettingsOverlay s; isSeeking := isSeeking s;
     isPlaying := isPlaying s; hoveredWord := v;
     dwellProgress := dwellProgress s; isTranslating := isTranslating s;
     definition := definition s; headRotation := headRotation s;
     isCalibrationMode := isCalibrationMode s;
     touchRotation := touchRotation s; isDragging := isDragging s;
     lastPointer := lastPointer s; lastPinchDist := lastPinchDist s;
     baseRotation := baseRotation s;
     lastRawOrientation := lastRawOrientation s;
     lastHoverTime := lastHoverTime s; log := log s |}.

Definition set_dwellProgress (v : Q) (s : AppState) : AppState :=
  {| view := view s; playerConfig := playerConfig s;
     gameStats := gameStats s; hitObjects := hitObjects s;
     showSettingsOverlay := showSettingsOverlay s; isSeeking := isSeeking s;
     isPlaying := isPlaying s; hoveredWord := hoveredWord s;
     dwellProgress := v; isTranslating := isTranslating s;
     definition := definition s; headRotation := headRotation s;
     isCalibrationMode := isCalibrationMode s;
     touchRotation := touchRotation s; isDragging := isDragging s;
     lastPointer := lastPointer s; lastPinchDist := lastPinchDist s;
     baseRotation := baseRotation s;
     lastRawOrientation := lastRawOrientation s;
     lastHoverTime := lastHoverTime s; log := log s |}.

Definition set_isTranslating (v : bool) (s : AppState) : AppState :=
  {| view := view s; playerConfig := playerConfig s;
     gameStats := gameStats s; hitObjects := hitObjects s;
     showSettingsOverlay := showSettingsOverlay s; isSeeking := isSeeking s;
     isPlaying := isPlaying s; hoveredWord := hoveredWord s;
     dwellProgress := dwellProgress s; isTranslating := v;
     definition := definition s; headRotation := headRotation s;
     isCalibrationMode := isCalibrationMode s;
     touchRotation := touchRotation s; isDragging := isDragging s;
     lastPointer := lastPointer s; lastPinchDist := lastPinchDist s;
     baseRotation := baseRotation s;
     lastRawOrientation := lastRawOrientation s;
     lastHoverTime := lastHoverTime s; log := log s |}.

Definition set_definition (v : option WordDefinition) (s : AppState) : AppState :=
  {| view := view s; playerConfig := playerConfig s;
     gameStats := gameStats s; hitObjects := hitObjects s;
     showSettingsOverlay := showSettingsOverlay s; isSeeking := isSeeking s;
     isPlaying := isPlaying s; hoveredWord := hoveredWord s;
     dwellProgress := dwellProgress s; isTranslating := isTranslating s;
     definition := v; headRotation := headRotation s;
     isCalibrationMode := isCalibrationMode s;
     touchRotation := touchRotation s; isDragging := isDragging s;
     lastPointer := lastPointer s; lastPinchDist := lastPinchDist s;
     baseRotation := baseRotation s;
     lastRawOrientation := lastRawOrientation s;
     lastHoverTime := lastHoverTime s; log := log s |}.

Definition set_headRotation (v : Rotation) (s : AppState) : AppState :=
  {| view := view s; playerConfig := playerConfig s;
     gameStats := gameStats s; hitObjects := hitObjects s;
     showSettingsOverlay := showSettingsOverlay s; isSeeking := isSeeking s;
     isPlaying := isPlaying s; hoveredWord := hoveredWord s;
     dwellProgress := dwellProgress s; isTranslating := isTranslating s;
     definition := definition s; headRotation := v;
     isCalibrationMode := isCalibrationMode s;
     touchRotation := touchRotation s; isDragging := isDragging s;
     lastPointer := lastPointer s; lastPinchDist := lastPinchDist s;
     baseRotation := baseRotation s;
     lastRawOrientation := lastRawOrientation s;
     lastHoverTime := lastHoverTime s; log := log s |}.

Definition set_isCalibrationMode (v : bool) (s : AppState) : AppState :=
  {| view := view s; playerConfig := playerConfig s;
     gameStats := gameStats s; hitObjects := hitObjects s;
     showSettingsOverlay := showSettingsOverlay s; isSeeking := isSeeking s;
     isPlaying := isPlaying s; hoveredWord := hoveredWord s;
     dwellProgress := dwellProgress s; isTranslating := isTranslating s;
     definition := definition s; headRotation := headRotation s;
     isCalibrationMode := v; touchRotation := touchRotation s;
     isDragging := isDragging s; lastPointer := lastPointer s;
     lastPinchDist := lastPinchDist s; baseRotation := baseRotation s;
     lastRawOrientation := lastRawOrientation s;
     lastHoverTime := lastHoverTime s; log := log s |}.

Definition set_touchRotation (v : Rotation) (s : AppState) : AppState :=
  {| view := view s; playerConfig := playerConfig s;
     gameStats := gameStats s; hitObjects := hitObjects s;
     showSettingsOverlay := showSettingsOverlay s; isSeeking := isSeeking s;
     isPlaying := isPlaying s; hoveredWord := hoveredWord s;
     dwellProgress := dwellProgress s; isTranslating := isTranslating s;
     definition := definition s; headRotation := headRotation s;
     isCalibrationMode := isCalibrationMode s; touchRotation := v;
     isDragging := isDragging s; lastPointer := lastPointer s;
     lastPinchDist := lastPinchDist s; baseRotation := baseRotation s;
     lastRawOrientation := lastRawOrientation s;
     lastHoverTime := lastHoverTime s; log := log s |}.

Definition set_isDragging (v : bool) (s : AppState) : AppState :=
  {| view := view s; playerConfig := playerConfig s;
     gameStats := gameStats s; hitObjects := hitObjects s;
     showSettingsOverlay := showSettingsOverlay s; isSeeking := isSeeking s;
     isPlaying := isPlaying s; hoveredWord := hoveredWord s;
     dwellProgress := dwellProgress s; isTranslating := isTranslating s;
     definition := definition s; headRotation := headRotation s;
     isCalibrationMode := isCalibrationMode s;
     touchRotation := touchRotation s; isDragging := v;
     lastPointer := lastPointer s; lastPinchDist := lastPinchDist s;
     baseRotation := baseRotation s;
     lastRawOrientation := lastRawOrientation s;
     lastHoverTime := lastHoverTime s; log := log s |}.

Definition set_lastPointer (v : Q * Q) (s : AppState) : AppState :=
  {| view := view s; playerConfig := playerConfig s;
     gameStats := gameStats s; hitObjects := hitObjects s;
     showSettingsOverlay := showSettingsOverlay s; isSeeking := isSeeking s;
     isPlaying := isPlaying s; hoveredWord := hoveredWord s;
     dwellProgress := dwellProgress s; isTranslating := isTranslating s;
     definition := definition s; headRotation := headRotation s;
     isCalibrationMode := isCalibrationMode s;
     touchRotation := touchRotation s; isDragging := isDragging s;
     lastPointer := v; lastPinchDist := lastPinchDist s;
     baseRotation := baseRotation s;
     lastRawOrientation := lastRawOrientation s;
     lastHoverTime := lastHoverTime s; log := log s |}.

Definition set_lastPinchDist (v : option Q) (s : AppState) : AppState :=
  {| view := view s; playerConfig := playerConfig s;
     gameStats := gameStats s; hitObjects := hitObjects s;
     showSettingsOverlay := showSettingsOverlay s; isSeeking := isSeeking s;
     isPlaying := isPlaying s; hoveredWord := hoveredWord s;
     dwellProgress := dwellProgress s; isTranslating := isTranslating s;
     definition := definition s; headRotation := headRotation s;
     isCalibrationMode := isCalibrationMode s;
     touchRotation := touchRotation s; isDragging := isDragging s;
     lastPointer := lastPointer s; lastPinchDist := v;
     baseRotation := baseRotation s;
     lastRawOrientation := lastRawOrientation s;
     lastHoverTime := lastHoverTime s; log := log s |}.

Definition set_baseRotation (v : option Orientation) (s : AppState) : AppState :=
  {| view := view s; playerConfig := playerConfig s;
     gameStats := gameStats s; hitObjects := hitObjects s;
     showSettingsOverlay := showSettingsOverlay s; isSeeking := isSeeking s;
     isPlaying := isPlaying s; hoveredWord := hoveredWord s;
     dwellProgress := dwellProgress s; isTranslating := isTranslating s;
     definition := definition s; headRotation := headRotation s;
     isCalibrationMode := isCalibrationMode s;
     touchRotation := touchRotation s; isDragging := isDragging s;
     lastPointer := lastPointer s; lastPinchDist := lastPinchDist s;
     baseRotation := v; lastRawOrientation := lastRawOrientation s;
     lastHoverTime := lastHoverTime s; log := log s |}.

Definition set_lastRawOrientation (v : option Orientation) (s : AppState) : AppState :=
  {| view := view s; playerConfig := playerConfig s;
     gameStats := gameStats s; hitObjects := hitObjects s;
     showSettingsOverlay := showSettingsOverlay s; isSeeking := isSeeking s;
     isPlaying := isPlaying s; hoveredWord := hoveredWord s;
     dwellProgress := dwellProgress s; isTranslating := isTranslating s;
     definition := definition s; headRotation := headRotation s;
     isCalibrationMode := isCalibrationMode s;
     touchRotation := touchRotation s; isDragging := isDragging s;
     lastPointer := lastPointer s; lastPinchDist := lastPinchDist s;
     baseRotation := baseRotation s; lastRawOrientation := v;
     lastHoverTime := lastHoverTime s; log := log s |}.

Definition set_lastHoverTime (v : Z) (s : AppState) : AppState :=
  {| view := view s; playerConfig := playerConfig s;
     gameStats := gameStats s; hitObjects := hitObjects s;
     showSettingsOverlay := showSettingsOverlay s; isSeeking := isSeeking s;
     isPlaying := isPlaying s; hoveredWord := hoveredWord s;
     dwellProgress := dwellProgress s; isTranslating := isTranslating s;
     definition := definition s; headRotation := headRotation s;
     isCalibrationMode := isCalibrationMode s;
     touchRotation := touchRotation s; isDragging := isDragging s;
     lastPointer := lastPointer s; lastPinchDist := lastPinchDist s;
     baseRotation := baseRotation s;
     lastRawOrientation := lastRawOrientation s; lastHoverTime := v;
     log := log s |}.

Definition set_log (v : list Effect) (s : AppState) : AppState :=
  {| view := view s; playerConfig := playerConfig s;
     gameStats := gameStats s; hitObjects := hitObjects s;
     showSettingsOverlay := showSettingsOverlay s; isSeeking := isSeeking s;
     isPlaying := isPlaying s; hoveredWord := hoveredWord s;
     dwellProgress := dwellProgress s; isTranslating := isTranslating s;
     definition := definition s; headRotation := headRotation s;
     isCalibrationMode := isCalibrationMode s;
     touchRotation := touchRotation s; isDragging := isDragging s;
     lastPointer := lastPointer s; lastPinchDist := lastPinchDist s;
     baseRotation := baseRotation s;
     lastRawOrientation := lastRawOrientation s;
     lastHoverTime := lastHoverTime s; log := v |}.

(** ** What the page reports at the probe point

    [document.elementFromPoint(x, y)] gives an element or [null]; the
    handlers only look at three ancestors of it, found with [closest]:
    - [actionElement]: [closest('[data-action]')], with its [dataset.action];
    - [wordElement]: [closest('[data-word]')], with its [dataset.word] and
      the optional [dataset.sentence];
    - [gameNoteElement]: [closest('[data-game-note]')], with the optional
      [dataset.noteId]. *)
Record Element := mkEl {
  actionElement : option string;
  wordElement : option (string * option string);
  gameNoteElement : option (option string) }.

(** A pointer event: position, pressed buttons and whether its target lies
    inside the progress bar. *)
Record PointerEvent := mkPtr {
  clientX : Q; clientY : Q; buttons : Z; onProgressBar : bool }.

(** ** Constants *)

Definition DWELL_TIME_MS : Z := 1200.
Definition CHECK_INTERVAL_MS : Z := 100.

(** ** Small helpers shared by the handlers *)

(** [togglePlay]: flip play/pause of the mounted media element. *)
Definition togglePlay (s : AppState) : AppState :=
  set_log (ETogglePlay :: log s) (set_isPlaying (negb (isPlaying s)) s).

(** [handleTranslate], up to the [await]: the lookup is pending, playback
    is paused and the request leaves for the translation service. *)
Definition handleTranslate (w sentence : string) (s : AppState) : AppState :=
  set_log (ELookup w sentence :: log s)
    (set_isPlaying false (set_isTranslating true s)).

(** [handleTranslate], after the [await]: the service answered with [d]. *)
Definition translateDone (d : WordDefinition) (s : AppState) : AppState :=
  set_isTranslating false (set_definition (Some d) s).

(** [closeDefinition], called at time [now]. *)
Definition closeDefinition (now : Z) (s : AppState) : AppState :=
  set_log (ECloseDefinition :: log s)
    (set_isPlaying true
      (set_lastHoverTime now
        (set_hoveredWord None
          (set_dwellProgress 0
            (set_definition None s))))).

(** The score update both note paths pass to [setGameStats]. *)
Definition scoreUpdate (prev : GameStats) : GameStats :=
  {| score := (score prev + 100 + combo prev * 10)%Z;
     combo := (combo prev + 1)%Z;
     maxCombo := Z.max (maxCombo prev) (combo prev + 1) |}.

(** The note branch shared, text for text, by click and gaze:
    [if (noteId && !hitObjectsRef.current.has(noteId)) { add; setGameStats }]. *)
Definition hitNote (noteId : option string) (s : AppState) : AppState :=
  match Num.truthy noteId with
  | Some id =>
      if decide (id ∈ hitObjects s) then s
      else set_log (EScore id :: log s)
             (set_gameStats (scoreUpdate (gameStats s))
               (set_hitObjects ({[ id ]} ∪ hitObjects s) s))
  | None => s
  end.

(** ** Orientation fusion and recentering *)

(** The two wrap steps of [handleOrientation]:
    [if (yaw > 180) yaw -= 360; if (yaw < -180) yaw += 360]. *)
Definition wrapYaw (yaw : Q) : Q :=
  let yaw1 := if Num.gtb yaw 180 then yaw - 360 else yaw in
  if Num.ltb yaw1 (-180) then yaw1 + 360 else yaw1.

(** [handleOrientation(e)]; [isLandscape] is
    [window.innerWidth > window.innerHeight] at the time of the event. *)
Definition handleOrientation (e : OrientationEvent) (isLandscape : bool)
    (s : AppState) : AppState :=
  match e_alpha e with
  | None => s
  | Some _ =>
      let raw := {| alpha := Num.orZero (e_alpha e);
                    beta := Num.orZero (e_beta e);
                    gamma := Num.orZero (e_gamma e) |} in
      let s1 := set_lastRawOrientation (Some raw) s in
      let base := match baseRotation s1 with Some b => b | None => raw end in
      let s2 := set_baseRotation (Some base) s1 in
      let yaw := wrapYaw (Num.orZero (e_alpha e) - alpha base) in
      let pitch :=
        if isLandscape then Num.orZero (e_gamma e) - gamma base
        else Num.orZero (e_beta e) - beta base in
      let pitch := Num.clamp (-80) 80 pitch in
      set_headRotation {| rot_x := pitch; rot_y := yaw |} s2
  end.

(** The [deviceorientation] listener is installed only in the player view
    and only in sensor mode. *)
Definition onDeviceOrientation (e : OrientationEvent) (isLandscape : bool)
    (s : AppState) : AppState :=
  match view s, controlMode (playerConfig s) with
  | player, SENSOR => handleOrientation e isLandscape s
  | _, _ => s
  end.

(** [confirmRecenter]. *)
Definition confirmRecenter (s : AppState) : AppState :=
  let s1 :=
    match controlMode (playerConfig s), lastRawOrientation s with
    | SENSOR, Some raw => set_baseRotation (Some raw) s
    | SENSOR, None => s
    | TOUCH, _ => set_touchRotation {| rot_x := 0; rot_y := 0 |} s
    end in
  set_log (ERecenter :: log s1) (set_isCalibrationMode false s1).

(** [activeRotation]: the fused rotation handed to both eyes. *)
Definition activeRotation (s : AppState) : Rotation :=
  match controlMode (playerConfig s) with
  | SENSOR => headRotation s
  | TOUCH => touchRotation s
  end.

(** ** Pointer handling (touch mode) *)

(** Truthiness of [lastPinchDist.current]: neither [null] nor [0]. *)
Definition pinching (s : AppState) : bool :=
  match lastPinchDist s with
  | Some d => negb (Qeq_bool d 0)
  | None => false
  end.

(** [progressBarRef.current]: the bar is rendered with the non-stereo
    overlay only. *)
Definition progressBarMounted (s : AppState) : bool :=
  match mode (playerConfig s) with STEREO => false | _ => true end.

(** The updater passed to [setTouchRotation] in [onPointerMove]. *)
Definition dragRotate (axis : DragAxis) (deltaX deltaY : Q) (prev : Rotation)
    : Rotation :=
  let sensitivity := 2 # 10 in
  let newY := rot_y prev + deltaX * sensitivity in
  let newX :=
    match axis with
    | FREE => Num.clamp (-85) 85 (rot_x prev + deltaY * sensitivity)
    | HORIZONTAL => rot_x prev
    end in
  {| rot_x := newX; rot_y := newY |}.

(** [onTouchStart], [onTouchMove] and [onTouchEnd]; [pinch] is the distance
    between the two fingers when the event carries exactly two touches.
    (The zoom factor that [onTouchMove] also updates is page chrome.) *)
Definition onTouchStart (pinch : option Q) (s : AppState) : AppState :=
  match pinch with
  | Some dist => set_lastPinchDist (Some dist) s
  | None => s
  end.

Definition onTouchMove (pinch : option Q) (s : AppState) : AppState :=
  match view s, pinch with
  | player, Some dist =>
      if pinching s then set_lastPinchDist (Some dist) s else s
  | _, _ => s
  end.

Definition onTouchEnd (s : AppState) : AppState := set_lastPinchDist None s.

(** [onPointerDown]. *)
Definition onPointerDown (e : PointerEvent) (s : AppState) : AppState :=
  match view s with
  | library => s
  | player =>
      let s1 := set_lastPointer (clientX e, clientY e) (set_isDragging false s) in
      if onProgressBar e then set_isSeeking true s1 else s1
  end.

(** [onPointerMove]. *)
Definition onPointerMove (e : PointerEvent) (s : AppState) : AppState :=
  match view s with
  | library => s
  | player =>
      if isSeeking s && progressBarMounted s then s
      else if pinching s then s
      else
        let deltaX := clientX e - fst (lastPointer s) in
        let deltaY := clientY e - snd (lastPointer s) in
        let s1 :=
          if Num.gtb (Num.abs deltaX) 5 || Num.gtb (Num.abs deltaY) 5
          then set_isDragging true s else s in
        let s2 :=
          match controlMode (playerConfig s1) with
          | TOUCH =>
              if (0 <? buttons e)%Z && negb (isSeeking s1)
              then set_touchRotation
                     (dragRotate (dragAxis (playerConfig s1)) deltaX deltaY
                        (touchRotation s1)) s1
              else s1
          | SENSOR => s1
          end in
        set_lastPointer (clientX e, clientY e) s2
  end.

(** ** Click at the probe point *)

(** [handleScreenClick], called at time [now] with [el] the element under
    the probe point. *)
Definition handleScreenClick (now : Z) (el : option Element) (s : AppState)
    : AppState :=
  if isCalibrationMode s then confirmRecenter s
  else
    match el with
    | None =>
        match mode (playerConfig s) with STEREO => togglePlay s | _ => s end
    | Some el =>
        match actionElement el, gameNoteElement el, wordElement el with
        | Some action, _, _ =>
            if String.eqb action "recenter"
            then set_log (ECalibrate :: log s) (set_isCalibrationMode true s)
            else if String.eqb action "toggle-play" then togglePlay s
            else s
        | None, Some noteId, _ => hitNote noteId s
        | None, None, Some (w, sentence) =>
            if String.eqb w "close-btn" then closeDefinition now s
            else if negb (isTranslating s) && negb (bool_decide (is_Some (definition s)))
                    && negb (isGameMode (playerConfig s))
            then handleTranslate w (Num.orEmpty sentence) s
            else s
        | None, None, None =>
            match mode (playerConfig s) with STEREO => togglePlay s | _ => s end
        end
    end.

(** [onPointerUp]: a pointer-up that ends neither a scrub nor a drag nor a
    pinch is a click. *)
Definition onPointerUp (now : Z) (el : option Element) (s : AppState)
    : AppState :=
  match view s with
  | library => s
  | player =>
      if isSeeking s then set_isSeeking false s
      else
        let s1 :=
          if negb (isDragging s) && negb (pinching s)
          then handleScreenClick now el s else s in
        set_isDragging false s1
  end.

(** ** Gaze tick *)

(** [Math.min(1, elapsed / DWELL_TIME_MS)]. *)
Definition dwellOf (elapsed : Z) : Q :=
  Qmin 1 (inject_Z elapsed / inject_Z DWELL_TIME_MS).

(** [definition.word !== word], or no definition at all. *)
Definition notShownFor (w : string) (s : AppState) : bool :=
  match definition s with
  | Some d => negb (String.eqb (def_word d) w)
  | None => true
  end.

(** The three writes of the "hit nothing" branches. *)
Definition clearHover (s : AppState) : AppState :=
  set_lastHoverTime 0%Z (set_dwellProgress 0 (set_hoveredWord None s)).

(** The word part of [checkGaze]. *)
Definition gazeWord (now : Z) (el : Element) (s : AppState) : AppState :=
  match wordElement el with
  | Some (w, sentence) =>
      match Num.truthy (Some w) with
      | Some w =>
          if negb (bool_decide (hoveredWord s = Some w)) then
            set_dwellProgress 0
              (set_lastHoverTime now (set_hoveredWord (Some w) s))
          else if (0 <? lastHoverTime s)%Z then
            let elapsed := (now - lastHoverTime s)%Z in
            let progress := dwellOf elapsed in
            let s1 := set_dwellProgress progress s in
            if Num.geb progress 1 && negb (isTranslating s1) && notShownFor w s1
            then set_dwellProgress 0
                   (set_lastHoverTime 0%Z
                      (handleTranslate w (Num.orEmpty sentence) s1))
            else s1
          else s
      | None => s
      end
  | None =>
      match Num.truthy (hoveredWord s) with
      | Some _ => clearHover s
      | None => s
      end
  end.

(** [checkGaze], run at time [now] with [el] the element under the probe
    point. *)
Definition checkGaze (now : Z) (el : option Element) (s : AppState)
    : AppState :=
  match el with
  | None => clearHover s
  | Some el =>
      let s1 :=
        if isGameMode (playerConfig s) then
          match gameNoteElement el with
          | Some noteId => hitNote noteId s
          | None => s
          end
        else s in
      gazeWord now el s1
  end.

(** The interval that runs [checkGaze] exists only in the player view,
    outside calibration mode and with the settings overlay closed. *)
Definition gazeTick (now : Z) (el : option Element) (s : AppState) : AppState :=
  match view s with
  | player =>
      if isCalibrationMode s || showSettingsOverlay s then s
      else checkGaze now el s
  | library => s
  end.

(** ** Sessions as event sequences

    The events of a playback session: orientation samples, pointer events,
    touch events, gaze ticks, the answer of the translation service, the
    keys [r] and space/enter, and a press of the close button of the
    definition panel (rendered only while a definition is shown).  The player configuration
    stays as it was when the session started. *)

Inductive Event :=
| DeviceOrientation (e : OrientationEvent) (isLandscape : bool)
| PointerDown (e : PointerEvent)
| PointerMove (e : PointerEvent)
| PointerUp (now : Z) (el : option Element)
| GazeTick (now : Z) (el : option Element)
| Translated (d : WordDefinition)
| KeyR
| KeyPlayPause
| CloseButton (now : Z)
| TouchStart (pinch : option Q)
| TouchMove (pinch : option Q)
| TouchEnd.

Definition step (s : AppState) (ev : Event) : AppState :=
  match ev with
  | DeviceOrientation e l => onDeviceOrientation e l s
  | PointerDown e => onPointerDown e s
  | PointerMove e => onPointerMove e s
  | PointerUp now el => onPointerUp now el s
  | GazeTick now el => gazeTick now el s
  | Translated d => translateDone d s
  | KeyR =>
      match view s with
      | player => set_isCalibrationMode (negb (isCalibrationMode s)) s
      | library => s
      end
  | KeyPlayPause =>
      match view s with
      | player => togglePlay s
      | library => s
      end
  | CloseButton now =>
      match view s, definition s with
      | player, Some _ => closeDefinition now s
      | _, _ => s
      end
  | TouchStart pinch => onTouchStart pinch s
  | TouchMove pinch => onTouchMove pinch s
  | TouchEnd => onTouchEnd s
  end.

Definition run (s : AppState) (evs : list Event) : AppState :=
  fold_left step evs s.

(** The state right after the first [handleStartPlay(item, config)] of a
    freshly mounted [App], for an item that is already configured (the
    settings overlay stays closed): player view, every cell reset, every
    ref still at its initial value. *)
Definition startPlay (config : PlayerConfig) : AppState :=
  {| view := player; playerConfig := config;
     gameStats := {| score := 0; combo := 0; maxCombo := 0 |};
     hitObjects := ∅; showSettingsOverlay := false; isSeeking := false;
     isPlaying := false; hoveredWord := None; dwellProgress := 0;
     isTranslating := false; definition := None;
     headRotation := {| rot_x := 0; rot_y := 0 |};
     isCalibrationMode := false;
     touchRotation := {| rot_x := 0; rot_y := 0 |};
     isDragging := false; lastPointer := (0, 0); lastPinchDist := None;
     baseRotation := None; lastRawOrientation := None;
     lastHoverTime := 0%Z; log := [] |}.

(** ** VRVideoRenderer: per-eye texture window *)

Module Renderer.

(** The string value of each enum member of [VideoFormat]. *)
Definition formatName (f : VideoFormat) : string :=
  match f with
  | MONO_2D => "MONO_2D" | STEREO_SBS => "STEREO_SBS"
  | STEREO_TB => "STEREO_TB"
  | VR180_SBS => "VR180_SBS" | VR180_TB => "VR180_TB"
  | VR180_MONO => "VR180_MONO"
  | VR360_SBS => "VR360_SBS" | VR360_TB => "VR360_TB"
  | VR360_MONO => "VR360_MONO"
  end.

(** [s.includes(sub)]. *)
Definition includes (sub s : string) : bool :=
  match String.index 0 sub s with Some _ => true | None => false end.

(** [s.startsWith(p)]. *)
Definition startsWith (p s : string) : bool := String.prefix p s.

(** [isVRVideo] of [EyeView]: only these formats reach [VRVideoRenderer]. *)
Definition isVRVideo (f : VideoFormat) : bool := startsWith "VR" (formatName f).

(** [texture.repeat] and [texture.offset]. *)
Record TextureMap := mkTex {
  uScale : Q; vScale : Q; uOffset : Q; vOffset : Q }.

Definition setU (scale offset : Q) (m : TextureMap) : TextureMap :=
  {| uScale := scale; vScale := vScale m; uOffset := offset; vOffset := vOffset m |}.
Definition setV (scale offset : Q) (m : TextureMap) : TextureMap :=
  {| uScale := uScale m; vScale := scale; uOffset := uOffset m; vOffset := offset |}.

(** The "Texture Logic & UV Mapping" block of the mount effect. *)
Definition textureMap (format : VideoFormat) (eye : Eye) : TextureMap :=
  let isSBS := includes "SBS" (formatName format) in
  let isTB := includes "TB" (formatName format) in
  let isStereo := isSBS || isTB in
  let m := {| uScale := 1; vScale := 1; uOffset := 0; vOffset := 0 |} in
  if isStereo then
    match eye with
    | eye_left =>
        let m := if isSBS then setU (1 # 2) 0 m else m in
        if isTB then setV (1 # 2) (1 # 2) m else m
    | eye_right =>
        let m := if isSBS then setU (1 # 2) (1 # 2) m else m in
        if isTB then setV (1 # 2) 0 m else m
    | eye_single =>
        let m := if isSBS then setU (1 # 2) 0 m else m in
        if isTB then setV (1 # 2) (1 # 2) m else m
    end
  else m.

(** A texture coordinate [t] of the sphere is sampled at
    [t * repeat + offset]; the window is the image of [0, 1]. *)
Definition sample (scale offset t : Q) : Q := t * scale + offset.
Definition uWindow (m : TextureMap) : Q * Q :=
  (sample (uScale m) (uOffset m) 0, sample (uScale m) (uOffset m) 1).
Definition vWindow (m : TextureMap) : Q * Q :=
  (sample (vScale m) (vOffset m) 0, sample (vScale m) (vOffset m) 1).

(** Equality of intervals up to [==] on the end points. *)
Definition sameWindow (w : Q * Q) (lo hi : Q) : Prop :=
  fst w == lo /\ snd w == hi.

(** [videoElementStyle] of [EyeView] for a flat video element, in percent
    of the eye's viewport: the element is [width] x [height] and shifted
    by [left_] and [top]. *)
Record VideoStyle := mkStyle {
  width : Q; height : Q; left_ : Q; top : Q }.

Definition videoElementStyle (isVideo : bool) (format : VideoFormat)
    (eye : Eye) : VideoStyle :=
  let dflt := {| width := 100; height := 100; left_ := 0; top := 0 |} in
  let notMono := match format with MONO_2D => false | _ => true end in
  if isVideo && negb (isVRVideo format) && notMono then
    let isSBS := match format with STEREO_SBS => true | _ => false end in
    let isRightEye := match eye with eye_right => true | _ => false end in
    if isSBS then
      {| width := 200; height := 100; top := 0;
         left_ := if isRightEye then -100 else 0 |}
    else
      {| width := 100; height := 200; left_ := 0;
         top := if isRightEye then -100 else 0 |}
  else dflt.

(** The horizontal part of the frame that falls inside the viewport, as
    fractions of the frame width measured from its left edge. *)
Definition visibleU (st : VideoStyle) : Q * Q :=
  ((0 - left_ st) / width st, (100 - left_ st) / width st).

(** The vertical part of the frame inside the viewport as texture [V]
    (which grows upwards, while [top] grows downwards). *)
Definition visibleV (st : VideoStyle) : Q * Q :=
  (1 - (100 - top st) / height st, 1 - (0 - top st) / height st).

End Renderer.

(** ** RhythmGameRenderer: the beat-synchronised note spawner *)

Module Spawner.

Definition SPEED : Q := 25.
Definition SPAWN_Z : Q := -1000.
Definition DESPAWN_Z : Q := 100.
Definition BEAT_THRESHOLD : Q := 240.
Definition COOLDOWN_FRAMES : Z := 15.

(** The refs and the state cell of the component. *)
Record GameLoop := mkLoop {
  notesRef : list GameNote;
  lastBeatFrame : Z;
  frameCount : Z;
  notes : list GameNote }.

Definition initial : GameLoop :=
  {| notesRef := []; lastBeatFrame := 0; frameCount := 0; notes := [] |}.

(** What one animation frame reads from its environment:
    - [bins]: the frequency snapshot written by [getByteFrequencyData],
      or [None] when the audio context could not be set up;
    - [random]: the value of [Math.random()] used for the lane;
    - [now]: [Date.now()];
    - [fresh_id]: the template string [note-${Date.now()}-${Math.random()}]. *)
Record Frame := mkFrame {
  bins : option (list Z); random : Q; now : Z; fresh_id : string }.

(** [bassSum] after the loop [for (i = 0; i < 5; i++)]; reading past the
    end of the array gives [undefined] and the sum is [NaN] ([None]). *)
Fixpoint sumBins (n : nat) (i : nat) (data : list Z) : option Z :=
  match n with
  | O => Some 0%Z
  | S n' =>
      match data !! i, sumBins n' (S i) data with
      | Some b, Some rest => Some (b + rest)%Z
      | _, _ => None
      end
  end.

Definition bassAvg (data : list Z) : option Q :=
  match sumBins 5 0 data with
  | Some bassSum => Some (inject_Z bassSum / 5)
  | None => None
  end.

(** The spawn condition; a [NaN] average compares false. *)
Definition beat (data : list Z) (g : GameLoop) : bool :=
  match bassAvg data with
  | Some avg =>
      Num.gtb avg BEAT_THRESHOLD
      && (COOLDOWN_FRAMES <? frameCount g - lastBeatFrame g)%Z
  | None => false
  end.

(** Step 1, "Analyze Audio for Beats", run after [frameCount.current++]. *)
Definition spawnPhase (f : Frame) (g : GameLoop) : GameLoop :=
  match bins f with
  | Some data =>
      if beat data g then
        let newNote :=
          {| note_id := fresh_id f;
             lane := Qfloor (random f * 4);
             spawnTime := now f;
             note_z := SPAWN_Z;
             isHit := false |} in
        {| notesRef := notesRef g ++ [newNote];
           lastBeatFrame := frameCount g;
           frameCount := frameCount g;
           notes := notes g |}
      else g
  | None => g
  end.

(** The body of [notesRef.current.forEach]: the moved note. *)
Definition moveNote (hit : gset string) (n : GameNote) : GameNote :=
  {| note_id := note_id n; lane := lane n; spawnTime := spawnTime n;
     note_z := note_z n + SPEED;
     isHit := if decide (note_id n ∈ hit) then true else isHit n |}.

(** [note.z < DESPAWN_Z && !note.isHit]. *)
Definition keep (n : GameNote) : bool :=
  Num.ltb (note_z n) DESPAWN_Z && negb (isHit n).

(** Steps 2 and 3: move, filter, publish. *)
Definition movePhase (hit : gset string) (g : GameLoop) : GameLoop :=
  let activeNotes := List.filter keep (List.map (moveNote hit) (notesRef g)) in
  {| notesRef := activeNotes; lastBeatFrame := lastBeatFrame g;
     frameCount := frameCount g; notes := activeNotes |}.

(** [updateGame]: one animation frame. *)
Definition updateGame (isPlaying : bool) (hit : gset string) (f : Frame)
    (g : GameLoop) : GameLoop :=
  if negb isPlaying then g
  else
    let g1 := {| notesRef := notesRef g; lastBeatFrame := lastBeatFrame g;
                 frameCount := (frameCount g + 1)%Z; notes := notes g |} in
    movePhase hit (spawnPhase f g1).

(** The number of notes the frame created. *)
Definition spawned (isPlaying : bool) (f : Frame) (g : GameLoop) : nat :=
  if negb isPlaying then 0%nat
  else
    let g1 := {| notesRef := notesRef g; lastBeatFrame := lastBeatFrame g;
                 frameCount := (frameCount g + 1)%Z; notes := notes g |} in
    (length (notesRef (spawnPhase f g1)) - length (notesRef g))%nat.

(** A run of frames, all while playing, with no note consumed. *)
Definition frames (g : GameLoop) (fs : list Frame) : GameLoop :=
  fold_left (fun g f => updateGame true ∅ f g) fs g.

End Spawner.

(** ** Session control in [App] *)

(** Updates of the three cells the handlers above never write. *)
Definition set_view (v : View) (s : AppState) : AppState :=
  {| view := v; playerConfig := playerConfig s; gameStats := gameStats s;
     hitObjects := hitObjects s;
     showSettingsOverlay := showSettingsOverlay s; isSeeking := isSeeking s;
     isPlaying := isPlaying s; hoveredWord := hoveredWord s;
     dwellProgress := dwellProgress s; isTranslating := isTranslating s;
     definition := definition s; headRotation := headRotation s;
     isCalibrationMode := isCalibrationMode s;
     touchRotation := touchRotation s; isDragging := isDragging s;
     lastPointer := lastPointer s; lastPinchDist := lastPinchDist s;
     baseRotation := baseRotation s;
     lastRawOrientation := lastRawOrientation s;
     lastHoverTime := lastHoverTime s; log := log s |}.

Definition set_playerConfig (v : PlayerConfig) (s : AppState) : AppState :=
  {| view := view s; playerConfig := v; gameStats := gameStats s;
     hitObjects := hitObjects s;
     showSettingsOverlay := showSettingsOverlay s; isSeeking := isSeeking s;
     isPlaying := isPlaying s; hoveredWord := hoveredWord s;
     dwellProgress := dwellProgress s; isTranslating := isTranslating s;
     definition := definition s; headRotation := headRotation s;
     isCalibrationMode := isCalibrationMode s;
     touchRotation := touchRotation s; isDragging := isDragging s;
     lastPointer := lastPointer s; lastPinchDist := lastPinchDist s;
     baseRotation := baseRotation s;
     lastRawOrientation := lastRawOrientation s;
     lastHoverTime := lastHoverTime s; log := log s |}.

Definition set_showSettingsOverlay (v : bool) (s : AppState) : AppState :=
  {| view := view s; playerConfig := playerConfig s;
     gameStats := gameStats s; hitObjects := hitObjects s;
     showSettingsOverlay := v; isSeeking := isSeeking s;
     isPlaying := isPlaying s; hoveredWord := hoveredWord s;
     dwellProgress := dwellProgress s; isTranslating := isTranslating s;
     definition := definition s; headRotation := headRotation s;
     isCalibrationMode := isCalibrationMode s;
     touchRotation := touchRotation s; isDragging := isDragging s;
     lastPointer := lastPointer s; lastPinchDist := lastPinchDist s;
     baseRotation := baseRotation s;
     lastRawOrientation := lastRawOrientation s;
     lastHoverTime := lastHoverTime s; log := log s |}.

(** The [App] component right after mounting: library view, the initial
    value of every state cell and ref. *)
Definition mounted : AppState :=
  {| view := library;
     playerConfig := {| mode := MAGIC_WINDOW; isGameMode := false;
                        controlMode := SENSOR; dragAxis := FREE |};
     gameStats := {| score := 0; combo := 0; maxCombo := 0 |};
     hitObjects := ∅; showSettingsOverlay := false; isSeeking := false;
     isPlaying := false; hoveredWord := None; dwellProgress := 0;
     isTranslating := false; definition := None;
     headRotation := {| rot_x := 0; rot_y := 0 |};
     isCalibrationMode := false;
     touchRotation := {| rot_x := 0; rot_y := 0 |};
     isDragging := false; lastPointer := (0, 0); lastPinchDist := None;
     baseRotation := None; lastRawOrientation := None;
     lastHoverTime := 0%Z; log := [] |}.

(** The updater of [handleEnterVR]:
    [prev => ({...prev, mode: STEREO, controlMode: 'SENSOR'})]. *)
Definition enterVRConfig (prev : PlayerConfig) : PlayerConfig :=
  {| mode := STEREO; isGameMode := isGameMode prev;
     controlMode := SENSOR; dragAxis := dragAxis prev |}.



(** The settings overlay buttons for the control mode and the drag axis. *)
Definition setControlMode (m : ControlMode) (s : AppState) : AppState :=
  set_playerConfig
    {| mode := mode (playerConfig s); isGameMode := isGameMode (playerConfig s);
       controlMode := m; dragAxis := dragAxis (playerConfig s) |} s.

Definition setDragAxis (a : DragAxis) (s : AppState) : AppState :=
  set_playerConfig
    {| mode := mode (playerConfig s); isGameMode := isGameMode (playerConfig s);
       controlMode := controlMode (playerConfig s); dragAxis := a |} s.

(** [handleStartPlay(item, config)] as far as the cells of this embedding
    go; [isConfigured] is [item.isConfigured].  The cells and refs the
    function does not write ([hoveredWord], [dwellProgress],
    [isTranslating], [isDragging], [lastPointer], [lastPinchDist],
    [lastRawOrientation], [lastHoverTime]) keep their values, and so does
    the log of calls made so far.  The call of [handleEnterVR] for a
    STEREO configuration is queued after [setPlayerConfig(config)] and so
    acts on [config]. *)
Definition handleStartPlay (isConfigured : bool) (config : PlayerConfig)
    (s : AppState) : AppState :=
  {| view := player;
     playerConfig :=
       match mode config with
       | STEREO => enterVRConfig config
       | _ => config
       end;
     gameStats := {| score := 0; combo := 0; maxCombo := 0 |};
     hitObjects := ∅;
     showSettingsOverlay := negb isConfigured;
     isSeeking := false; isPlaying := false;
     hoveredWord := hoveredWord s; dwellProgress := dwellProgress s;
     isTranslating := isTranslating s; definition := None;
     headRotation := {| rot_x := 0; rot_y := 0 |};
     isCalibrationMode := false;
     touchRotation := {| rot_x := 0; rot_y := 0 |};
     isDragging := isDragging s; lastPointer := lastPointer s;
     lastPinchDist := lastPinchDist s;
     baseRotation := None; lastRawOrientation := lastRawOrientation s;
     lastHoverTime := lastHoverTime s; log := log s |}.

(** [handleExit]: back to the library (the media elements are paused
    without writing the [isPlaying] cell). *)
Definition handleExit (s : AppState) : AppState := set_view library s.

(** ** Seeking, zoom and the clock display in [App] *)

Module Playback.

(** [Math.max(0, Math.min(1, (e.clientX - rect.left) / rect.width))] of
    [onPointerDown] and [onPointerMove]. *)
Definition seekFraction (clientX_ left width : Q) : Q :=
  Qmax 0 (Qmin 1 ((clientX_ - left) / width)).

(** The [currentTime] both media elements are set to: [pct * duration]. *)
Definition seekTime (clientX_ left width duration : Q) : Q :=
  seekFraction clientX_ left width * duration.

(** The updater of [setZoomScale] in [onTouchMove]:
    [prev => Math.min(3, Math.max(0.5, prev + delta * 0.01))]. *)
Definition zoomUpdate (delta prev : Q) : Q :=
  Qmin 3 (Qmax (1 # 2) (prev + delta * (1 # 100))).

(** The zoom factor after [onTouchMove], the one cell of that handler
    that is not a field of [AppState]; [pinch] is the distance of the two
    fingers when the event has exactly two touches, [s] the state the
    handler runs in. *)
Definition zoomOnTouchMove (pinch : option Q) (s : AppState) (zoomScale : Q)
    : Q :=
  match view s, pinch, lastPinchDist s with
  | player, Some dist, Some lastDist =>
      if pinching s then
        match mode (playerConfig s) with
        | MAGIC_WINDOW => zoomUpdate (dist - lastDist) zoomScale
        | _ => zoomScale
        end
      else zoomScale
  | _, _, _ => zoomScale
  end.

(** A touch event: start, move or end, with the two-finger distance. *)
Inductive Touch := TStart (pinch : option Q) | TMove (pinch : option Q) | TEnd.

(** The state of [App] and the zoom factor after one touch event. *)
Definition touchStep (sz : AppState * Q) (t : Touch) : AppState * Q :=
  match t with
  | TStart pinch => (onTouchStart pinch (fst sz), snd sz)
  | TMove pinch =>
      (onTouchMove pinch (fst sz), zoomOnTouchMove pinch (fst sz) (snd sz))
  | TEnd => (onTouchEnd (fst sz), snd sz)
  end.

(** JavaScript's [a % b] on numbers: the remainder has the sign of [a]. *)
Definition rem (a b : Q) : Q :=
  let q := a / b in
  a - b * inject_Z (if Qle_bool 0 q then Qfloor q else Qceiling q).

(** The two numbers of the clock display:
    [Math.floor(t / 60)] and [Math.floor(t % 60)]. *)
Definition clockMinutes (t : Q) : Z := Qfloor (t / 60).
Definition clockSeconds (t : Q) : Z := Qfloor (rem t 60).

(** [handleVolumeChange]: [Math.min(1, Math.max(0, newVol))]. *)
Definition clampVolume (newVol : Q) : Q := Qmin 1 (Qmax 0 newVol).

End Playback.

(** ** Subtitle cues *)

Module Cues.

(** A JavaScript string as the sequence of its UTF-16 code units. *)
Definition Text : Type := list N.

(** The code unit of a character of the ASCII range, and the text of a
    literal of that range. *)
Definition code (c : ascii) : N := N_of_ascii c.

Definition text (s : string) : Text :=
  List.map code (list_ascii_of_string s).

(** [SubtitleCue]; a time is a number or [NaN], here [None]. *)
Record SubtitleCue := mkCue {
  cue_id : Text; startTime : option Q; endTime : option Q;
  cue_text : Text; parsedWords : list Text }.

(** [c => currentTime >= c.startTime && currentTime <= c.endTime]; a
    comparison with [NaN] is false. *)
Definition covers (currentTime : Q) (c : SubtitleCue) : bool :=
  match startTime c with
  | Some a => Num.geb currentTime a
  | None => false
  end
  && match endTime c with
     | Some b => Qle_bool currentTime b
     | None => false
     end.

(** [cues.find(...) || null] of the [timeupdate] listener. *)
Definition activeCue (cues : list SubtitleCue) (currentTime : Q)
    : option SubtitleCue :=
  List.find (covers currentTime) cues.

End Cues.

(** ** subtitleParser: [parseSRT]

    Strings are sequences of UTF-16 code units.  A result of type
    [option _] around a value stands for a call that can throw: [None] is
    the [TypeError]. *)

Module Srt.

Import Cues.

(** The decimal digits of [\d] and of [parseInt]: [0] to [9]. *)
Definition isDigit (c : N) : bool := ((48 <=? c) && (c <=? 57))%N.

Definition digitValue (c : N) : Z := (Z.of_N c - 48)%Z.

(** WhiteSpace and LineTerminator of ECMAScript, the set that [trim()],
    the class [\s] and the leading white space of [parseInt] share:
    U+0009 to U+000D, U+0020, U+00A0, U+1680, U+2000 to U+200A, U+2028,
    U+2029, U+202F, U+205F, U+3000 and U+FEFF. *)
Definition isSpace (c : N) : bool :=
  (List.existsb (N.eqb c)
     [9; 10; 11; 12; 13; 32; 160; 5760; 8232; 8233; 8239; 8287; 12288; 65279]
   || ((8192 <=? c) && (c <=? 8202)))%N.

(** [s.trim()]. *)
Fixpoint trimStart (s : Text) : Text :=
  match s with
  | c :: rest => if isSpace c then trimStart rest else s
  | [] => []
  end.

Fixpoint trimEnd (s : Text) : Text :=
  match s with
  | c :: rest =>
      match trimEnd rest with
      | [] => if isSpace c then [] else [c]
      | r => c :: r
      end
  | [] => []
  end.

Definition trim (s : Text) : Text := trimEnd (trimStart s).

(** A code unit in front of the first piece of a split. *)
Definition consHead (c : N) (pieces : list Text) : list Text :=
  match pieces with
  | p :: ps => (c :: p) :: ps
  | [] => [[c]]
  end.

(** [s.split(sep)] for a separator of one code unit. *)
Fixpoint splitChar (sep : N) (s : Text) : list Text :=
  match s with
  | c :: rest =>
      if (c =? sep)%N then [] :: splitChar sep rest
      else consHead c (splitChar sep rest)
  | [] => [[]]
  end.

(** [s.startsWith(p)]. *)
Fixpoint isPrefix (p s : Text) : bool :=
  match p with
  | [] => true
  | a :: p' =>
      match s with
      | b :: s' => (a =? b)%N && isPrefix p' s'
      | [] => false
      end
  end.

(** [s.indexOf(sub) !== -1]. *)
Fixpoint includes (sub s : Text) : bool :=
  isPrefix sub s
  || match s with
     | _ :: rest => includes sub rest
     | [] => false
     end.

(** [s.split(sep)] for a separator of several code units; [skip] counts
    the code units of a separator that was found and is being passed. *)
Fixpoint splitOn (sep : Text) (skip : nat) (s : Text) : list Text :=
  match s with
  | c :: rest =>
      match skip with
      | S k => splitOn sep k rest
      | O =>
          if isPrefix sep s
          then [] :: splitOn sep (List.length sep - 1) rest
          else consHead c (splitOn sep 0 rest)
      end
  | [] => [[]]
  end.

(** The value of the leading decimal digits of [s], after [acc]. *)
Fixpoint digits (acc : Z) (s : Text) : Z :=
  match s with
  | c :: rest =>
      if isDigit c then digits (10 * acc + digitValue c)%Z rest else acc
  | [] => acc
  end.

Definition startsWithDigit (s : Text) : bool :=
  match s with
  | c :: _ => isDigit c
  | [] => false
  end.

(** Every integer up to [2^53] in absolute value is a double. *)
Definition exactBound : Z := (2 ^ 53)%Z.

(** What [parseInt] returns: [NaN], an integer that the double holds
    exactly, or the double of a run of digits beyond [2^53].  The last is
    a rounding of the value (of the implementation's choice beyond 20
    digits, infinite beyond 308) and is not computed here. *)
Inductive Parsed := pNaN | pInt (z : Z) | pWide.

(** [parseInt(s, 10)]: leading white space, an optional sign, then the
    longest run of digits; [NaN] without a digit.  [undefined] reads as
    the string of that name and gives [NaN]. *)
Definition parseInt (s : option Text) : Parsed :=
  match s with
  | None => pNaN
  | Some s =>
      let s1 := trimStart s in
      let signed :=
        match s1 with
        | c :: rest =>
            if (c =? code "-")%N then ((-1)%Z, rest)
            else if (c =? code "+")%N then (1%Z, rest)
            else (1%Z, s1)
        | [] => (1%Z, s1)
        end in
      if startsWithDigit (snd signed) then
        let v := digits 0 (snd signed) in
        if (v <=? exactBound)%Z then pInt (fst signed * v)%Z else pWide
      else pNaN
  end.

(** What [timeStringToSeconds] returns: [NaN], a number, or a number
    that is not computed here because one of its parts is. *)
Inductive Seconds := sNaN | secs (q : Q) | sWide.

(** [timeStringToSeconds(timeString)]: [parts[2].split(',')] throws when
    the string has fewer than three parts; a [NaN] among the four numbers
    makes the sum [NaN]. *)
Definition timeStringToSeconds (timeString : Text) : option Seconds :=
  let parts := splitChar (code ":") timeString in
  match List.nth_error parts 2 with
  | None => None
  | Some part2 =>
      let secondsParts := splitChar (code ",") part2 in
      let hours := parseInt (List.nth_error parts 0) in
      let minutes := parseInt (List.nth_error parts 1) in
      let seconds := parseInt (List.nth_error secondsParts 0) in
      let milliseconds := parseInt (List.nth_error secondsParts 1) in
      Some
        match hours, minutes, seconds, milliseconds with
        | pInt h, pInt m, pInt sec, pInt ms =>
            secs (inject_Z h * 3600 + inject_Z m * 60 + inject_Z sec
                  + inject_Z ms / 1000)
        | pNaN, _, _, _ | _, pNaN, _, _ | _, _, pNaN, _ | _, _, _, pNaN =>
            sNaN
        | _, _, _, _ => sWide
        end
  end.

(** [line.match(/\d+/)]: the line has a digit somewhere. *)
Fixpoint hasDigit (s : Text) : bool :=
  match s with
  | c :: rest => isDigit c || hasDigit rest
  | [] => false
  end.

Fixpoint hasChar (c : N) (s : Text) : bool :=
  match s with
  | a :: rest => (a =? c)%N || hasChar c rest
  | [] => false
  end.

(** [s.replace(/<[^>]*>/g, '')]: from a [<] that has a [>] after it,
    everything up to the first such [>] goes. *)
Fixpoint stripTags (inTag : bool) (s : Text) : Text :=
  match s with
  | c :: rest =>
      if inTag then
        if (c =? code ">")%N then stripTags false rest
        else stripTags true rest
      else if (c =? code "<")%N && hasChar (code ">") rest
      then stripTags true rest
      else c :: stripTags false rest
  | [] => []
  end.

(** [s.split(/\s+/)]; [inSpace] tells that the code unit before was
    white space. *)
Fixpoint splitSpaces (inSpace : bool) (s : Text) : list Text :=
  match s with
  | c :: rest =>
      if isSpace c then
        if inSpace then splitSpaces true rest
        else [] :: splitSpaces true rest
      else consHead c (splitSpaces false rest)
  | [] => [[]]
  end.

(** [lines.join(' ')]. *)
Fixpoint join (lines : list Text) : Text :=
  match lines with
  | [] => []
  | [line] => line
  | line :: rest => line ++ code " " :: join rest
  end.

(** The arrow of a time line. *)
Definition arrow : Text := text "-->".

(** What the [forEach] callback does with a block: it passes it over, it
    pushes a cue, or it pushes a cue one of whose times is not computed
    here. *)
Inductive Pushed := skipped | pushed (cue : SubtitleCue) | pushedWide.

Definition asTime (t : Seconds) : option Q :=
  match t with
  | secs q => Some q
  | sNaN | sWide => None
  end.

(** The body of the [forEach] callback for the block of the given index,
    already split into its lines; [None] is a throw. *)
Definition parseBlock (index : nat) (lines : list Text) : option Pushed :=
  if Nat.ltb (List.length lines) 3 then Some skipped
  else
    let timeLineIndex :=
      match List.nth_error lines 0 with
      | Some line0 => if negb (hasDigit line0) then 0%nat else 1%nat
      | None => 1%nat
      end in
    match List.nth_error lines timeLineIndex with
    | None => Some skipped
    | Some timeLine =>
        if negb (includes arrow timeLine) then Some skipped
        else
          match List.map trim (splitOn arrow 0 timeLine) with
          | startStr :: endStr :: _ =>
              match timeStringToSeconds startStr with
              | None => None
              | Some startTime_ =>
                  match timeStringToSeconds endStr with
                  | None => None
                  | Some endTime_ =>
                      let textLines := List.skipn (timeLineIndex + 1) lines in
                      let rawText := stripTags false (join textLines) in
                      Some
                        match startTime_, endTime_ with
                        | sWide, _ | _, sWide => pushedWide
                        | _, _ =>
                            pushed
                              {| cue_id :=
                                   text ("cue-"
                                         ++ NilZero.string_of_uint
                                              (Nat.to_uint index));
                                 startTime := asTime startTime_;
                                 endTime := asTime endTime_;
                                 cue_text := rawText;
                                 parsedWords := splitSpaces false rawText |}
                        end
                  end
              end
          | _ => None
          end
    end.

(** The [forEach] of [parseSRT] from the block of index [index] on, with
    the cues pushed so far in [cues] ([None] for a cue with a time that
    is not computed here); [blocks] is the trimmed content split at blank
    lines, each block split into its lines. *)
Fixpoint parseBlocks (index : nat) (blocks : list (list Text))
    (cues : list (option SubtitleCue)) : option (list (option SubtitleCue)) :=
  match blocks with
  | [] => Some cues
  | block :: rest =>
      match parseBlock index block with
      | None => None
      | Some skipped => parseBlocks (S index) rest cues
      | Some (pushed cue) => parseBlocks (S index) rest (cues ++ [Some cue])
      | Some pushedWide => parseBlocks (S index) rest (cues ++ [None])
      end
  end.

Definition parseSRT (blocks : list (list Text))
    : option (list (option SubtitleCue)) :=
  parseBlocks 0 blocks [].

(** The three blocks of [SAMPLE_SRT]. *)
Definition SAMPLE_SRT : list (list Text) :=
  List.map (List.map text)
    [ ["1"; "00:00:01,000 --> 00:00:05,000";
       "Welcome to the future of language learning in virtual reality."];
      ["2"; "00:00:05,500 --> 00:00:09,000";
       "Simply look at a word to understand its meaning."];
      ["3"; "00:00:09,500 --> 00:00:14,000";
       "The sky is blue, the grass is green, and technology is amazing."] ]%string.

End Srt.

(** ** VideoLibrary: the format dialog and the list of items *)

Module Library.

Import Renderer.

(** [n.toLowerCase()] on the letters A to Z (names as byte strings). *)
Definition lowerChar (c : ascii) : ascii :=
  let n := nat_of_ascii c in
  if Nat.leb 65 n && Nat.leb n 90 then ascii_of_nat (n + 32) else c.

Definition toLowerCase (s : string) : string :=
  string_of_list_ascii (List.map lowerChar (list_ascii_of_string s)).

(** [s.endsWith(suffix)]. *)
Definition endsWith (suffix s : string) : bool :=
  let n := String.length s in
  let m := String.length suffix in
  Nat.leb m n && String.eqb (String.substring (n - m) m s) suffix.

(** [detectFormat(name)]. *)
Definition detectFormat (name : string) : VideoFormat :=
  let n := toLowerCase name in
  if includes "180" n then
    if includes "sbs" n || includes "3d" n then VR180_SBS
    else if includes "tb" n || includes "ou" n then VR180_TB
    else VR180_MONO
  else if includes "360" n then
    if includes "sbs" n || includes "3d" n then VR360_SBS
    else if includes "tb" n || includes "ou" n then VR360_TB
    else VR360_MONO
  else if includes "sbs" n || includes "3d" n || includes "hsbs" n
  then STEREO_SBS
  else if includes "tb" n || includes "ou" n || includes "top-bottom" n
  then STEREO_TB
  else MONO_2D.

(** The three format controls of the dialog: [fmtIsVR], [fmtDegree] and
    [fmtStereo]. *)
Inductive Degree := deg180 | deg360.
Inductive Layout := MONO | SBS | TB.

Record FormatUI := mkUI {
  fmtIsVR : bool; fmtDegree : Degree; fmtStereo : Layout }.

(** The controls as [openEditModal] and [handleFileSelect] set them from
    a format string. *)
Definition setFormatUI (fmt : string) : FormatUI :=
  {| fmtIsVR := startsWith "VR" fmt;
     fmtDegree := if includes "360" fmt then deg360 else deg180;
     fmtStereo :=
       if includes "SBS" fmt then SBS
       else if includes "TB" fmt then TB
       else MONO |}.

(** [computeFormatFromUI()]: the string it returns, an enum value for the
    flat formats and a template string for the panoramic ones. *)
Definition computeFormatFromUI (ui : FormatUI) : string :=
  if negb (fmtIsVR ui) then
    match fmtStereo ui with
    | SBS => formatName STEREO_SBS
    | TB => formatName STEREO_TB
    | MONO => formatName MONO_2D
    end
  else
    let prefix :=
      match fmtDegree ui with deg180 => "VR180" | deg360 => "VR360" end in
    match fmtStereo ui with
    | SBS => prefix ++ "_SBS"
    | TB => prefix ++ "_TB"
    | MONO => prefix ++ "_MONO"
    end.

(** [LibraryItem], with the properties the component writes ([duration],
    [defaultControlMode] and [defaultVrMode] are never set).  A missing
    optional property is [None]; a missing [isConfigured] reads as
    [false] under the [!] of its only reader. *)
Inductive MediaType := video | audio.
Inductive SourceType := LOCAL | NETWORK.

Record LibraryItem := mkItem {
  item_id : string;
  title : string;
  url : string;
  mediaType : MediaType;
  source : SourceType;
  subtitleUrl : option string;
  thumbnail : option string;
  format : option string;
  isConfigured : bool }.

(** The state of the add and edit dialog. *)
Record Dialog := mkDialog {
  editingItem : option LibraryItem;
  formTitle : string;
  formUrl : string;
  formThumbnail : option string;
  formatUI : FormatUI }.

(** [a || b] on strings: the empty string is falsy. *)
Definition orString (a b : string) : string :=
  if String.eqb a "" then b else a.

Definition sameId (id : string) (item : LibraryItem) : bool :=
  String.eqb (item_id item) id.

(** [openEditModal(e, item)]. *)
Definition openEditModal (item : LibraryItem) : Dialog :=
  {| editingItem := Some item;
     formTitle := title item; formUrl := url item;
     formThumbnail := thumbnail item;
     formatUI :=
       setFormatUI
         (match format item with
          | Some fmt => orString fmt (formatName MONO_2D)
          | None => formatName MONO_2D
          end) |}.

(** The new-file branch of [handleFileSelect]: [now] is [Date.now()] as a
    string, [name] the file name with [stem] its part before the last
    extension, [blob] the object URL, [isAudioFile] whether the MIME type
    starts with [audio/], [thumb] the generated thumbnail. *)
Definition handleFileSelect (now name stem blob : string) (isAudioFile : bool)
    (thumb : option string) : Dialog :=
  let detectedFormat := detectFormat name in
  let newItem :=
    {| item_id := now; title := stem; url := blob;
       mediaType := if isAudioFile then audio else video;
       source := LOCAL; subtitleUrl := None; thumbnail := thumb;
       format := Some (formatName detectedFormat);
       isConfigured := false |} in
  {| editingItem := Some newItem;
     formTitle := title newItem; formUrl := url newItem;
     formThumbnail := thumb;
     formatUI := setFormatUI (formatName detectedFormat) |}.

(** [handleSaveEdit()]: the new list of items; [now] is [Date.now()] as a
    string. *)
Definition handleSaveEdit (now : string) (d : Dialog)
    (items : list LibraryItem) : list LibraryItem :=
  match editingItem d with
  | None =>
      if String.eqb (formUrl d) "" then items
      else
        let isAudio := endsWith ".mp3" (formUrl d) || endsWith ".wav" (formUrl d) in
        let newItem :=
          {| item_id := now;
             title := orString (formTitle d) "Web Stream";
             url := formUrl d;
             mediaType := if isAudio then audio else video;
             source := NETWORK; subtitleUrl := None;
             thumbnail :=
               Some (orString (Num.orEmpty (formThumbnail d))
                       "https://placehold.co/600x400/0f172a/10b981?text=WEB");
             format := Some (computeFormatFromUI (formatUI d));
             isConfigured := false |} in
        newItem :: items
  | Some editing =>
      let exists_ := List.existsb (sameId (item_id editing)) items in
      let updatedFormat := computeFormatFromUI (formatUI d) in
      if exists_ then
        List.map
          (fun item =>
             if sameId (item_id editing) item then
               {| item_id := item_id item; title := formTitle d;
                  url := formUrl d; mediaType := mediaType item;
                  source := source item; subtitleUrl := subtitleUrl item;
                  thumbnail := formThumbnail d;
                  format := Some updatedFormat; isConfigured := true |}
             else item)
          items
      else
        {| item_id := item_id editing; title := formTitle d;
           url := url editing; mediaType := mediaType editing;
           source := source editing; subtitleUrl := subtitleUrl editing;
           thumbnail := formThumbnail d;
           format := Some updatedFormat; isConfigured := true |} :: items
  end.

(** [handleSubtitleUpload(e, itemId)] with [blob] the object URL of the
    chosen file. *)
Definition handleSubtitleUpload (blob itemId : string)
    (items : list LibraryItem) : list LibraryItem :=
  List.map
    (fun item =>
       if sameId itemId item then
         {| item_id := item_id item; title := title item; url := url item;
            mediaType := mediaType item; source := source item;
            subtitleUrl := Some blob; thumbnail := thumbnail item;
            format := format item; isConfigured := isConfigured item |}
       else item)
    items.

(** [handleDeleteItem(e, id)]. *)
Definition handleDeleteItem (id : string) (items : list LibraryItem)
    : list LibraryItem :=
  List.filter (fun item => negb (sameId id item)) items.

(** The configuration [handleClickItem] starts every item with. *)
Definition handleClickItem : PlayerConfig :=
  {| mode := MAGIC_WINDOW; isGameMode := false;
     controlMode := SENSOR; dragAxis := FREE |}.

(** The update of the list in [handleStartPlay] of [App]:
    [prev.map(li => li.id === item.id ? {...li, isConfigured: true} : li)],
    made for an item that is not configured yet. *)
Definition markConfigured (item : LibraryItem) (items : list LibraryItem)
    : list LibraryItem :=
  if isConfigured item then items
  else
    List.map
      (fun li =>
         if sameId (item_id item) li then
           {| item_id := item_id li; title := title li; url := url li;
              mediaType := mediaType li; source := source li;
              subtitleUrl := subtitleUrl li; thumbnail := thumbnail li;
              format := format li; isConfigured := true |}
         else li)
      items.

(** A click on an item of the library: [handleClickItem] and with it
    [handleStartPlay] of [App], on the list and on the player state. *)
Definition clickItem (item : LibraryItem)
    (st : list LibraryItem * AppState) : list LibraryItem * AppState :=
  (markConfigured item (fst st),
   handleStartPlay (isConfigured item) handleClickItem (snd st)).

End Library.

(** ** geminiService: the translation request *)

Module Gemini.

(** What the [generateContent] call comes to: the request is rejected,
    the response has no text, the text is not JSON (or parses to [null]),
    or it parses to an object whose four properties are read (a missing
    property reads as [undefined], here [None]). *)
Inductive Outcome :=
| Rejected
| NoText
| Malformed
| Parsed (translation pronunciation type_ contextUsage : option string).

(** The full [WordDefinition] object the service hands back. *)
Record Answer := mkAnswer {
  a_word : string;
  a_translation : option string;
  a_pronunciation : option string;
  a_type : option string;
  a_contextUsage : option string }.

(** [translateWord(word, contextSentence)], given the outcome of the
    request: the [try] branch on parsed data, the [catch] branch on
    everything else. *)
Definition translateWord (word contextSentence : string) (o : Outcome)
    : Answer :=
  match o with
  | Parsed translation pronunciation type_ contextUsage =>
      {| a_word := word; a_translation := translation;
         a_pronunciation := pronunciation; a_type := type_;
         a_contextUsage := contextUsage |}
  | Rejected | NoText | Malformed =>
      {| a_word := word; a_translation := Some "Error"%string;
         a_pronunciation := Some "..."%string;
         a_type := Some "Unknown"%string;
         a_contextUsage := Some "Could not fetch definition."%string |}
  end.

(** The part of the answer the state of [App] keeps in this embedding. *)
Definition asDefinition (a : Answer) : WordDefinition :=
  {| def_word := a_word a; def_translation := Num.orEmpty (a_translation a) |}.

End Gemini.

(** ** SubtitleRenderer: word tokens *)

Module Subtitles.

(** The character class of the [replace] in [SubtitleRenderer]:
    [. , / # ! $ % ^ & * ; : { } = - _ ` ~ ( )]. *)
Definition punctuation : list ascii :=
  list_ascii_of_string ".,/#!$%^&*;:{}=-_`~()".

Definition isPunctuation (c : ascii) : bool :=
  existsb (Ascii.eqb c) punctuation.

(** [word.replace(/[...]/g, "")]: every character of the class is dropped. *)
Fixpoint cleanWord (word : string) : string :=
  match word with
  | EmptyString => EmptyString
  | String c rest =>
      if isPunctuation c then cleanWord rest else String c (cleanWord rest)
  end.

(** What the probe finds inside the [span] of one token: [data-word] is
    the cleaned word, [data-sentence] the text of the cue; no ancestor
    carries [data-action] or [data-game-note]. *)
Definition tokenEl (word sentence : string) : Element :=
  {| actionElement := None;
     wordElement := Some (cleanWord word, Some sentence);
     gameNoteElement := None |}.

(** The close button of the definition panel: [data-word="close-btn"], no
    [data-sentence]. *)
Definition closeButtonEl : Element :=
  {| actionElement := None;
     wordElement := Some ("close-btn"%string, None);
     gameNoteElement := None |}.

End Subtitles.

(** ** Reticle *)

Module Reticle.

(** [strokeDashoffset]: [circumference - (progress * circumference)].  The
    circumference is [2 * pi * 8.5] in the source; it is a parameter
    here. *)
Definition offset (circumference progress : Q) : Q :=
  circumference - progress * circumference.

(** [isHovering={!!hoveredWord}] as [EyeView] passes it. *)
Definition isHovering (s : AppState) : bool :=
  match Num.truthy (hoveredWord s) with Some _ => true | None => false end.

End Reticle.

(** * Vocabulary of the properties

    Predicates, invariants and sample inputs the theorems below are
    stated with. *)

(** ** Orientation *)

(** The range of [alpha] a device reports: [0 <= alpha < 360]. *)
Definition sensorRange (a : Q) : Prop := 0 <= a /\ a < 360.

(** Yaw in the closed interval [-180, 180]; pitch in [-80, 80]. *)
Definition yawClosed (r : Rotation) : Prop := -180 <= rot_y r /\ rot_y r <= 180.
Definition pitchClamped (r : Rotation) : Prop := -80 <= rot_x r /\ rot_x r <= 80.

(** Every orientation sample of the event carries an [alpha] in range. *)
Definition sampleInRange (ev : Event) : Prop :=
  match ev with
  | DeviceOrientation e _ => forall a, e_alpha e = Some a -> sensorRange a
  | _ => True
  end.

(** What the fusion keeps true between events. *)
Record FusionInv (s : AppState) : Prop := mkFusionInv {
  inv_base : forall b, baseRotation s = Some b -> sensorRange (alpha b);
  inv_raw : forall r, lastRawOrientation s = Some r -> sensorRange (alpha r);
  inv_yaw : yawClosed (headRotation s);
  inv_pitch : pitchClamped (headRotation s) }.

(** Away from orientation samples, the fused sensor rotation and the last
    raw sample stay as they are, and the base either stays or becomes the
    last raw sample. *)
Definition fusionFrame (s s' : AppState) : Prop :=
  headRotation s' = headRotation s
  /\ lastRawOrientation s' = lastRawOrientation s
  /\ (baseRotation s' = baseRotation s
      \/ baseRotation s' = lastRawOrientation s).

(** Sample configurations and inputs. *)
Definition sensorConfig : PlayerConfig :=
  {| mode := MAGIC_WINDOW; isGameMode := false;
     controlMode := SENSOR; dragAxis := FREE |}.

Definition touchConfig (axis : DragAxis) : PlayerConfig :=
  {| mode := MAGIC_WINDOW; isGameMode := false;
     controlMode := TOUCH; dragAxis := axis |}.

(** A sample with all three axes present. *)
Definition sample (a b g : Q) : Event :=
  DeviceOrientation {| e_alpha := Some a; e_beta := Some b; e_gamma := Some g |} false.

(** A pointer event at [(px, py)] with the primary button held, away from
    the progress bar. *)
Definition dragTo (px py : Q) : PointerEvent :=
  {| clientX := px; clientY := py; buttons := 1; onProgressBar := false |}.

(** ** Score board *)

(** The note ids scored so far, newest first. *)
Fixpoint scoredIds (l : list Effect) : list string :=
  match l with
  | EScore id :: l' => id :: scoredIds l'
  | _ :: l' => scoredIds l'
  | [] => []
  end.

(** The score board [handleStartPlay] installs. *)
Definition initialStats : GameStats := {| score := 0; combo := 0; maxCombo := 0 |}.

(** What one handler call can do to the score board: nothing, or score
    one note that was not consumed before. *)
Definition scoreFrame (s s' : AppState) : Prop :=
  (gameStats s' = gameStats s /\ hitObjects s' = hitObjects s
   /\ scoredIds (log s') = scoredIds (log s))
  \/ (exists id, (id ∉ hitObjects s)
      /\ gameStats s' = scoreUpdate (gameStats s)
      /\ hitObjects s' = {[ id ]} ∪ hitObjects s
      /\ scoredIds (log s') = id :: scoredIds (log s)).

(** The score board agrees with the log and with the consumed-id set. *)
Record ScoreInv (s : AppState) : Prop := mkScoreInv {
  inv_nodup : List.NoDup (scoredIds (log s));
  inv_consumed : forall id, In id (scoredIds (log s)) -> id ∈ hitObjects s;
  inv_stats :
    gameStats s = Nat.iter (length (scoredIds (log s))) scoreUpdate initialStats;
  inv_combo : (0 <= combo (gameStats s))%Z }.

(** [q] is [p] after exactly one scoring update. *)
Definition scoredFrom (p q : GameStats) : Prop :=
  score q = (score p + (100 + 10 * combo p))%Z
  /\ combo q = (combo p + 1)%Z
  /\ maxCombo q = Z.max (maxCombo p) (combo q)
  /\ (combo q <= maxCombo q)%Z
  /\ (score p < score q)%Z.

Definition gameConfig : PlayerConfig :=
  {| mode := STEREO; isGameMode := true;
     controlMode := SENSOR; dragAxis := FREE |}.

Definition stereoConfig : PlayerConfig :=
  {| mode := STEREO; isGameMode := false;
     controlMode := SENSOR; dragAxis := FREE |}.

(** An element inside the note [id] and nothing else. *)
Definition noteEl (id : string) : Element :=
  {| actionElement := None; wordElement := None;
     gameNoteElement := Some (Some id) |}.

(** ** Texture windows *)

(** The stereo split a format tag declares (the comments of the
    [VideoFormat] enum: Side-by-Side, Top-Bottom, Monoscopic / 2D). *)
Inductive StereoSplit := noSplit | sideBySide | topBottom.

Definition stereoSplit (f : VideoFormat) : StereoSplit :=
  match f with
  | STEREO_SBS | VR180_SBS | VR360_SBS => sideBySide
  | STEREO_TB | VR180_TB | VR360_TB => topBottom
  | MONO_2D | VR180_MONO | VR360_MONO => noSplit
  end.

(** The windows as the specification words them: side-by-side gives the
    left eye U in [0, 0.5] and the right eye [0.5, 1]; top-bottom gives the
    left eye V in [0.5, 1] and the right eye [0, 0.5]; the single eye reads
    what the left eye reads; everything else is the full [0, 1]. *)
Definition specWindowU (f : VideoFormat) (eye : Eye) : Q * Q :=
  match stereoSplit f, eye with
  | sideBySide, eye_right => (1 # 2, 1)
  | sideBySide, _ => (0, 1 # 2)
  | _, _ => (0, 1)
  end.

Definition specWindowV (f : VideoFormat) (eye : Eye) : Q * Q :=
  match stereoSplit f, eye with
  | topBottom, eye_right => (0, 1 # 2)
  | topBottom, _ => (1 # 2, 1)
  | _, _ => (0, 1)
  end.

(** ** Dwell and lookups *)

(** The lookups requested so far, newest first. *)
Fixpoint lookups (l : list Effect) : list (string * string) :=
  match l with
  | ELookup w sentence :: l' => (w, sentence) :: lookups l'
  | _ :: l' => lookups l'
  | [] => []
  end.

(** An element inside the word token [w] of the cue [sentence], and
    nothing else. *)
Definition wordEl (w sentence : string) : Element :=
  {| actionElement := None; wordElement := Some (w, Some sentence);
     gameNoteElement := None |}.

(** [ts] gaze ticks in a row on the same element. *)
Definition dwell (el : Element) (s : AppState) (ts : list Z) : AppState :=
  fold_left (fun s t => checkGaze t (Some el) s) ts s.

(** The cells the word part of the gaze tick reads. *)
Definition sameHover (s s1 : AppState) : Prop :=
  hoveredWord s1 = hoveredWord s
  /\ lastHoverTime s1 = lastHoverTime s
  /\ dwellProgress s1 = dwellProgress s
  /\ isTranslating s1 = isTranslating s
  /\ definition s1 = definition s
  /\ lookups (log s1) = lookups (log s).

(** The test that lets a dwell tick request the lookup. *)
Definition fires (now : Z) (w : string) (s : AppState) : bool :=
  Num.geb (dwellOf (now - lastHoverTime s)) 1
  && negb (isTranslating s) && notShownFor w s.

(** The hover cells of a state, with the lookups requested so far. *)
Record Hover := mkHover {
  h_word : option string; h_since : Z; h_progress : Q;
  h_translating : bool; h_definition : option WordDefinition;
  h_lookups : list (string * string) }.

Definition hoverOf (s : AppState) : Hover :=
  {| h_word := hoveredWord s; h_since := lastHoverTime s;
     h_progress := dwellProgress s; h_translating := isTranslating s;
     h_definition := definition s; h_lookups := lookups (log s) |}.

(** What the translation service answers for "cat". *)
Definition catDef : WordDefinition :=
  {| def_word := "cat"; def_translation := "chat" |}.

(** A session in which the definition of "cat" is on display: the word
    was clicked and the translation service has answered. *)
Definition catShown : AppState :=
  run (startPlay stereoConfig)
    [PointerUp 10 (Some (wordEl "cat" "a cat")); Translated catDef].




(** ** Activation paths *)




(** The recenter control of [EyeView]: [data-action="recenter"]. *)
Definition recenterEl : Element :=
  {| actionElement := Some "recenter"%string; wordElement := None;
     gameNoteElement := None |}.

(** An element outside every target. *)
Definition plainEl : Element :=
  {| actionElement := None; wordElement := None; gameNoteElement := None |}.

(** What the probe can find in the page as [EyeView] renders it: nothing,
    an element outside every target, the recenter control (stereo mode
    only), a note of [RhythmGameRenderer] (rendered in rhythm mode only),
    a token of [SubtitleRenderer], or the close button of the definition
    (rendered with a definition only).  None of these lies inside
    another. *)
Inductive Rendered (s : AppState) : option Element -> Prop :=
| rendered_nothing : Rendered s None
| rendered_plain : Rendered s (Some plainEl)
| rendered_recenter :
    mode (playerConfig s) = STEREO -> Rendered s (Some recenterEl)
| rendered_note (id : string) :
    isGameMode (playerConfig s) = true -> Rendered s (Some (noteEl id))
| rendered_token (word sentence : string) :
    Rendered s (Some (Subtitles.tokenEl word sentence))
| rendered_close :
    definition s <> None -> Rendered s (Some Subtitles.closeButtonEl).

(** The element lies inside at most one kind of target, and inside a game
    note only with rhythm mode on. *)
Definition oneTarget (s : AppState) (el : option Element) : Prop :=
  match el with
  | None => True
  | Some e =>
      (actionElement e <> None ->
       gameNoteElement e = None /\ wordElement e = None)
      /\ (gameNoteElement e <> None ->
          wordElement e = None /\ isGameMode (playerConfig s) = true)
  end.


(** ** Note spawner *)

Section SpawnerVocabulary.

Import Spawner.

(** The frame counter after [frameCount.current++]. *)
Definition counted (g : GameLoop) : GameLoop :=
  {| notesRef := notesRef g; lastBeatFrame := lastBeatFrame g;
     frameCount := (frameCount g + 1)%Z; notes := notes g |}.

(** A frame whose five lowest bins all read [level]. *)
Definition flatFrame (level : Z) : Frame :=
  {| bins := Some (List.repeat level 128); random := 5 # 8; now := 0;
     fresh_id := "note" |}.

(** The number of notes created at each frame of a run while playing. *)
Fixpoint spawnTrace (g : GameLoop) (fs : list Frame) : list nat :=
  match fs with
  | [] => []
  | f :: fs' => spawned true f g :: spawnTrace (updateGame true ∅ f g) fs'
  end.

End SpawnerVocabulary.

(** ** Vocabulary of the further properties *)

(** The time an event is stamped with, when it carries one. *)
Definition eventTime (ev : Event) : option Z :=
  match ev with
  | PointerUp now _ | GazeTick now _ | CloseButton now => Some now
  | _ => None
  end.

(** The events come in the order of the clock, none before [t]. *)
Fixpoint chronological (t : Z) (evs : list Event) : Prop :=
  match evs with
  | [] => True
  | ev :: rest =>
      match eventTime ev with
      | Some now => (t <= now)%Z /\ chronological now rest
      | None => chronological t rest
      end
  end.

(** What the dwell cells keep true up to time [t]. *)
Record DwellInv (t : Z) (s : AppState) : Prop := mkDwellInv {
  dw_time : (0 <= t)%Z;
  dw_clock : (lastHoverTime s <= t)%Z;
  dw_low : 0 <= dwellProgress s;
  dw_high : dwellProgress s <= 1;
  dw_idle : hoveredWord s = None -> dwellProgress s = 0;
  dw_word : hoveredWord s <> Some ""%string }.

(** Every pointer position of [es] lies within 5 pixels, on both axes, of
    the one before it, starting from [p]. *)
Fixpoint gentle (p : Q * Q) (es : list PointerEvent) : Prop :=
  match es with
  | [] => True
  | e :: rest =>
      Qabs (clientX e - fst p) <= 5 /\ Qabs (clientY e - snd p) <= 5
      /\ gentle (clientX e, clientY e) rest
  end.

(** The cells a pointer-up can reach through a click. *)
Definition clickCells (s : AppState) :=
  (gameStats s, hitObjects s, definition s, isTranslating s, isPlaying s,
   isCalibrationMode s, hoveredWord s, baseRotation s, touchRotation s, log s).

Section TrackVocabulary.

Import Spawner.

(** A run of animation frames, each with its own playing flag, consumed
    set and environment. *)
Definition play (g : GameLoop) (inputs : list (bool * gset string * Frame))
    : GameLoop :=
  fold_left (fun g i => updateGame (fst (fst i)) (snd (fst i)) (snd i) g)
    inputs g.

(** Depths in list order, each at least 400 behind all the earlier ones. *)
Fixpoint spaced (zs : list Q) : Prop :=
  match zs with
  | [] => True
  | z :: rest => Forall (fun z' => z' + 400 <= z) rest /\ spaced rest
  end.

(** What the track keeps true between frames. *)
Record TrackInv (g : GameLoop) : Prop := mkTrackInv {
  tr_frames : (lastBeatFrame g <= frameCount g)%Z;
  tr_spaced : spaced (List.map note_z (notesRef g));
  tr_depth :
    Forall (fun n =>
              inject_Z (-975 + 25 * (frameCount g - lastBeatFrame g)) <= note_z n
              /\ note_z n < DESPAWN_Z)
           (notesRef g);
  tr_published : notes g = notesRef g }.

End TrackVocabulary.

(** ** Sessions, touches, seeking and cues *)


(** One visit of the player: the item's [isConfigured] flag, the
    configuration the item is started with, and the events until the exit
    button is pressed. *)
Definition Visit : Type := bool * PlayerConfig * list Event.

Definition visit (s : AppState) (v : Visit) : AppState :=
  handleExit (run (handleStartPlay (fst (fst v)) (snd (fst v)) s) (snd v)).

Definition visits (s : AppState) (vs : list Visit) : AppState :=
  fold_left visit vs s.

(** Every orientation sample of the visit carries an [alpha] in range. *)
Definition visitInRange (v : Visit) : Prop := Forall sampleInRange (snd v).

(** The zoom factor lies between a half and three. *)
Definition zoomInRange (z : Q) : Prop := 1 # 2 <= z /\ z <= 3.

(** A run of touch events from a state and a zoom factor. *)
Definition touchRun (sz : AppState * Q) (ts : list Playback.Touch)
    : AppState * Q :=
  fold_left Playback.touchStep ts sz.

(** The closed interval of the cue contains the time. *)
Definition shownAt (t : Q) (c : Cues.SubtitleCue) : Prop :=
  exists a b,
    Cues.startTime c = Some a /\ Cues.endTime c = Some b /\ a <= t /\ t <= b.

(** ** The library *)

(** The ids of the items, in list order. *)
Definition ids (items : list Library.LibraryItem) : list string :=
  List.map Library.item_id items.

(** The enum member the three controls of the dialog stand for. *)
Definition asFormat (ui : Library.FormatUI) : VideoFormat :=
  match Library.fmtIsVR ui, Library.fmtDegree ui, Library.fmtStereo ui with
  | false, _, Library.SBS => STEREO_SBS
  | false, _, Library.TB => STEREO_TB
  | false, _, Library.MONO => MONO_2D
  | true, Library.deg180, Library.SBS => VR180_SBS
  | true, Library.deg180, Library.TB => VR180_TB
  | true, Library.deg180, Library.MONO => VR180_MONO
  | true, Library.deg360, Library.SBS => VR360_SBS
  | true, Library.deg360, Library.TB => VR360_TB
  | true, Library.deg360, Library.MONO => VR360_MONO
  end.

(** The controls as the dialog shows them for a format. *)
Definition controlsOf (f : VideoFormat) : Library.FormatUI :=
  Library.setFormatUI (Renderer.formatName f).

(** ** Subtitle files *)

(** How often the code unit occurs in the text. *)
Fixpoint countChar (c : N) (s : Cues.Text) : nat :=
  match s with
  | a :: rest => ((if (a =? c)%N then 1 else 0) + countChar c rest)%nat
  | [] => 0%nat
  end.

(** Every code unit of the text passes the test. *)
Fixpoint allChars (P : N -> bool) (s : Cues.Text) : bool :=
  match s with
  | a :: rest => P a && allChars P rest
  | [] => true
  end.

(** How often the code unit occurs in the pieces together. *)
Fixpoint countAll (c : N) (pieces : list Cues.Text) : nat :=
  match pieces with
  | p :: ps => (countChar c p + countAll c ps)%nat
  | [] => 0%nat
  end.

(** Neither white space nor a dash. *)
Definition plainChar (c : N) : bool :=
  negb (Srt.isSpace c) && negb (c =? Cues.code "-")%N.

(** A run of one to fifteen decimal digits: its value is below [10^15],
    which a double holds exactly. *)
Definition digitString (s : Cues.Text) : Prop :=
  s <> [] /\ allChars Srt.isDigit s = true /\ (List.length s <= 15)%nat.

(** A time stamp in the notation of the format: [hh:mm:ss,mmm]. *)
Definition stamp (h m sec ms : Cues.Text) : Cues.Text :=
  h ++ Cues.code ":" :: m ++ Cues.code ":" :: sec ++ Cues.code "," :: ms.

(** A time line: two stamps around the arrow. *)
Definition timeLineOf (st1 st2 : Cues.Text) : Cues.Text :=
  st1 ++ Cues.code " " :: Srt.arrow ++ Cues.code " " :: st2.

(** The seconds the four numbers of a stamp stand for. *)
Definition secondsOf (h m sec ms : Cues.Text) : Q :=
  inject_Z (Srt.digits 0 h) * 3600 + inject_Z (Srt.digits 0 m) * 60
  + inject_Z (Srt.digits 0 sec) + inject_Z (Srt.digits 0 ms) / 1000.

(** * Properties *)

(** Arithmetic on rationals is left folded by [cbn] and [simpl]; [lra]
    and [vm_compute] do the arithmetic. *)
#[local] Arguments Qplus : simpl never.
#[local] Arguments Qminus : simpl never.
#[local] Arguments Qmult : simpl never.
#[local] Arguments Qdiv : simpl never.
#[local] Arguments Qopp : simpl never.
#[local] Arguments Qabs : simpl never.
#[local] Arguments Qmin : simpl never.
#[local] Arguments Qmax : simpl never.
#[local] Arguments Qle_bool : simpl never.
#[local] Arguments Qeq_bool : simpl never.
#[local] Arguments inject_Z : simpl never.

(** ** Comparisons and clamping *)

Section NumFacts.

Lemma gtb_true (a b : Q) : Num.gtb a b = true <-> b < a.
Proof.
  unfold Num.gtb. rewrite negb_true_iff. split.
  - intros H. apply Qnot_le_lt. intros Hle.
    apply Qle_bool_iff in Hle. congruence.
  - intros H. destruct (Qle_bool a b) eqn:E; [|reflexivity].
    apply Qle_bool_iff in E. lra.
Qed.

Lemma gtb_false (a b : Q) : Num.gtb a b = false <-> a <= b.
Proof.
  unfold Num.gtb. rewrite negb_false_iff. apply Qle_bool_iff.
Qed.

Lemma ltb_true (a b : Q) : Num.ltb a b = true <-> a < b.
Proof. apply (gtb_true b a). Qed.

Lemma ltb_false (a b : Q) : Num.ltb a b = false <-> b <= a.
Proof. apply (gtb_false b a). Qed.

Lemma geb_true (a b : Q) : Num.geb a b = true <-> b <= a.
Proof. apply Qle_bool_iff. Qed.

Lemma geb_false (a b : Q) : Num.geb a b = false <-> a < b.
Proof.
  unfold Num.geb. split.
  - intros H. apply Qnot_le_lt. intros Hle.
    apply Qle_bool_iff in Hle. congruence.
  - intros H. destruct (Qle_bool b a) eqn:E; [|reflexivity].
    apply Qle_bool_iff in E. lra.
Qed.

Lemma clamp_range (lo hi v : Q) :
  lo <= hi -> lo <= Num.clamp lo hi v /\ Num.clamp lo hi v <= hi.
Proof.
  intros Hlh. unfold Num.clamp. split.
  - apply Q.le_max_l.
  - apply Q.max_lub; [exact Hlh | apply Q.le_min_l].
Qed.

Lemma clamp_id (lo hi v : Q) :
  lo <= v -> v <= hi -> Num.clamp lo hi v == v.
Proof.
  intros H1 H2. unfold Num.clamp.
  destruct (Q.min_spec hi v) as [[Hlt Hm] | [Hle Hm]]; rewrite Hm.
  - destruct (Q.max_spec lo hi) as [[? E] | [? E]]; rewrite E; lra.
  - destruct (Q.max_spec lo v) as [[? E] | [? E]]; rewrite E; lra.
Qed.

Lemma truthy_Some (v : option string) (w : string) :
  Num.truthy v = Some w <-> v = Some w /\ w <> ""%string.
Proof.
  unfold Num.truthy. destruct v as [u|]; [|split; [discriminate | intros [? _]; discriminate]].
  destruct (String.eqb_spec u ""); split.
  - discriminate.
  - intros [[= ->] Hne]. contradiction.
  - intros [= ->]. auto.
  - intros [[= ->] _]. reflexivity.
Qed.

End NumFacts.

(** ** Orientation fusion *)

Section Orientation.

Lemma wrapYaw_range (d : Q) :
  -360 < d -> d < 360 -> -180 <= wrapYaw d /\ wrapYaw d <= 180.
Proof.
  intros Hlo Hhi. unfold wrapYaw.
  destruct (Num.gtb d 180) eqn:E1.
  - apply gtb_true in E1.
    destruct (Num.ltb (d - 360) (-180)) eqn:E2.
    + apply ltb_true in E2. lra.
    + apply ltb_false in E2. lra.
  - apply gtb_false in E1.
    destruct (Num.ltb d (-180)) eqn:E2.
    + apply ltb_true in E2. lra.
    + apply ltb_false in E2. lra.
Qed.

Lemma wrapYaw_zero (d : Q) : d == 0 -> wrapYaw d == 0.
Proof.
  intros Hd. unfold wrapYaw.
  destruct (Num.gtb d 180) eqn:E1.
  - apply gtb_true in E1. lra.
  - destruct (Num.ltb d (-180)) eqn:E2.
    + apply ltb_true in E2. lra.
    + exact Hd.
Qed.

(** The rotation one sample produces, spelled out. *)
Lemma handleOrientation_head (e : OrientationEvent) (l : bool)
    (s : AppState) (a : Q) :
  e_alpha e = Some a ->
  let raw := {| alpha := a; beta := Num.orZero (e_beta e);
                gamma := Num.orZero (e_gamma e) |} in
  let base := match baseRotation s with Some b => b | None => raw end in
  headRotation (handleOrientation e l s) =
    {| rot_x := Num.clamp (-80) 80
                  (if l then Num.orZero (e_gamma e) - gamma base
                   else Num.orZero (e_beta e) - beta base);
       rot_y := wrapYaw (a - alpha base) |}
  /\ baseRotation (handleOrientation e l s) = Some base
  /\ lastRawOrientation (handleOrientation e l s) = Some raw.
Proof.
  intros Ha. unfold handleOrientation. rewrite Ha. cbn.
  destruct (baseRotation s); cbn; auto.
Qed.

Lemma handleOrientation_inv (e : OrientationEvent) (l : bool) (s : AppState) :
  (forall a, e_alpha e = Some a -> sensorRange a) ->
  FusionInv s -> FusionInv (handleOrientation e l s).
Proof.
  intros He Hs. destruct (e_alpha e) as [a|] eqn:Ha.
  - destruct (handleOrientation_head e l s a Ha) as (Hh & Hb & Hr).
    specialize (He a eq_refl).
    assert (Hbase : sensorRange
              (alpha (match baseRotation s with
                      | Some b => b
                      | None => {| alpha := a; beta := Num.orZero (e_beta e);
                                   gamma := Num.orZero (e_gamma e) |}
                      end))).
    { destruct (baseRotation s) as [b|] eqn:Eb; [apply (inv_base s Hs b Eb) | exact He]. }
    split.
    + intros b. rewrite Hb. intros [= <-]. exact Hbase.
    + intros r. rewrite Hr. intros [= <-]. exact He.
    + rewrite Hh. unfold yawClosed; cbn.
      destruct He, Hbase. apply wrapYaw_range; lra.
    + rewrite Hh. unfold pitchClamped; cbn. apply clamp_range. lra.
  - unfold handleOrientation. rewrite Ha. exact Hs.
Qed.

End Orientation.

(** ** Frame facts: which handler touches which cell *)

(** Unfold the handlers down to field updates and split on every test. *)
Ltac handler_cases :=
  unfold step, onDeviceOrientation, handleOrientation, onPointerDown,
    onPointerMove, onPointerUp, onTouchStart, onTouchMove, onTouchEnd,
    gazeTick, checkGaze, gazeWord, clearHover, handleScreenClick,
    confirmRecenter, closeDefinition, handleTranslate, translateDone,
    togglePlay, hitNote in *;
  repeat case_match; cbn in *.

Section Frames.

Lemma confirmRecenter_fusion (s : AppState) : fusionFrame s (confirmRecenter s).
Proof. unfold fusionFrame. handler_cases; subst; auto. Qed.

Lemma step_fusion (s : AppState) (ev : Event) :
  (forall e l, ev <> DeviceOrientation e l) -> fusionFrame s (step s ev).
Proof.
  intros Hev. unfold fusionFrame.
  destruct ev as [e l| | | | | | | | | | |]; [exfalso; eapply Hev; reflexivity|..];
    handler_cases; subst; auto.
Qed.

Lemma fusionFrame_inv (s s' : AppState) :
  fusionFrame s s' -> FusionInv s -> FusionInv s'.
Proof.
  intros (Hh & Hr & Hb) [Ib Ir Iy Ip]. split.
  - intros b Eb. destruct Hb as [Hb|Hb]; rewrite Hb in Eb; auto.
  - intros r Er. rewrite Hr in Er. auto.
  - rewrite Hh. exact Iy.
  - rewrite Hh. exact Ip.
Qed.

Lemma step_inv (s : AppState) (ev : Event) :
  sampleInRange ev -> FusionInv s -> FusionInv (step s ev).
Proof.
  intros Hev Hs. destruct ev as [e l| | | | | | | | | | |];
    try (apply (fusionFrame_inv s); [apply step_fusion; discriminate | exact Hs]).
  cbn. unfold onDeviceOrientation.
  destruct (view s); [exact Hs|].
  destruct (controlMode (playerConfig s)); [|exact Hs].
  apply handleOrientation_inv; assumption.
Qed.

Lemma run_inv (evs : list Event) (s : AppState) :
  Forall sampleInRange evs -> FusionInv s -> FusionInv (run s evs).
Proof.
  revert s. induction evs as [|ev evs IH]; intros s Hall Hs; cbn.
  - exact Hs.
  - inversion Hall; subst. apply IH; [assumption|]. apply step_inv; assumption.
Qed.

Lemma startPlay_inv (config : PlayerConfig) : FusionInv (startPlay config).
Proof.
  split; cbn; try discriminate; unfold yawClosed, pitchClamped; cbn; lra.
Qed.

End Frames.

(** ** Recentering and the range of the fused rotation *)

Section Recenter.

(** In touch mode the fused rotation is (0, 0) right after a recenter. *)
Lemma recenter_touch_zero (s : AppState) :
  controlMode (playerConfig s) = TOUCH ->
  activeRotation (confirmRecenter s) = {| rot_x := 0; rot_y := 0 |}.
Proof.
  intros Hm. unfold activeRotation, confirmRecenter. rewrite Hm. cbn.
  rewrite Hm. reflexivity.
Qed.

(** In sensor mode a recenter installs the last raw sample as the base
    and leaves the published rotation as it was. *)
Lemma recenter_sensor_rebases (s : AppState) (raw : Orientation) :
  controlMode (playerConfig s) = SENSOR ->
  lastRawOrientation s = Some raw ->
  baseRotation (confirmRecenter s) = Some raw
  /\ activeRotation (confirmRecenter s) = headRotation s.
Proof.
  intros Hm Hr. unfold activeRotation, confirmRecenter. rewrite Hm, Hr. cbn.
  rewrite Hm. auto.
Qed.

(** The first sample after a sensor recenter that repeats the last raw
    reading is fused to (0, 0). *)
Lemma recenter_sensor_next_sample (s : AppState) (raw : Orientation)
    (e : OrientationEvent) (l : bool) :
  view s = player ->
  controlMode (playerConfig s) = SENSOR ->
  lastRawOrientation s = Some raw ->
  e_alpha e = Some (alpha raw) ->
  Num.orZero (e_beta e) = beta raw ->
  Num.orZero (e_gamma e) = gamma raw ->
  let s' := onDeviceOrientation e l (confirmRecenter s) in
  rot_x (activeRotation s') == 0 /\ rot_y (activeRotation s') == 0.
Proof.
  intros Hv Hm Hr Ha Hb Hg s'.
  assert (Hm' : controlMode (playerConfig (confirmRecenter s)) = SENSOR).
  { unfold confirmRecenter. rewrite Hm, Hr. cbn. exact Hm. }
  assert (Hv' : view (confirmRecenter s) = player).
  { unfold confirmRecenter. rewrite Hm, Hr. cbn. exact Hv. }
  destruct (recenter_sensor_rebases s raw Hm Hr) as [Hbase _].
  assert (Hm'' : controlMode (playerConfig s') = SENSOR).
  { subst s'. unfold onDeviceOrientation. rewrite Hv', Hm'.
    unfold handleOrientation. rewrite Ha. cbn. exact Hm'. }
  unfold activeRotation. rewrite Hm''.
  subst s'. unfold onDeviceOrientation. rewrite Hv', Hm'.
  destruct (handleOrientation_head e l (confirmRecenter s) (alpha raw) Ha)
    as (Hh & _ & _).
  rewrite Hh, Hbase. cbn. rewrite Hb, Hg. split.
  - rewrite clamp_id; destruct l; lra.
  - apply wrapYaw_zero. lra.
Qed.

(** C1 (the code departs from the claim).  Sensor mode: after the samples
    alpha = 10 and alpha = 100 the fused yaw is 90; a recenter then
    installs the last raw sample as the base, yet the rotation handed to
    the renderer right after it is still yaw 90, not 0. *)
Theorem recenter_sensor_leaves_rotation_stale :
  let s := run (startPlay sensorConfig) [sample 10 0 0; sample 100 0 0] in
  lastRawOrientation s = Some {| alpha := 100; beta := 0; gamma := 0 |}
  /\ baseRotation (confirmRecenter s) = lastRawOrientation s
  /\ rot_y (activeRotation s) == 90
  /\ rot_y (activeRotation (confirmRecenter s)) == 90
  /\ ~ rot_y (activeRotation (confirmRecenter s)) == 0.
Proof.
  vm_compute. repeat split; try reflexivity; discriminate.
Qed.

(** C2 as stated fails: with the base taken at alpha = 180, the sample
    alpha = 0 is fused to yaw = -180, outside the half-open (-180, 180]. *)
Lemma yaw_reaches_minus_180 :
  let s := run (startPlay sensorConfig) [sample 180 0 0; sample 0 0 0] in
  rot_y (headRotation s) == -180
  /\ ~ (-180 < rot_y (headRotation s) /\ rot_y (headRotation s) <= 180).
Proof.
  vm_compute. split; [reflexivity|]. intros [H _]. discriminate H.
Qed.

(** C2 (amended).  From any state in which base and last raw sample carry
    an alpha in the sensor's range [0, 360), and for every sequence of
    events whose samples do so too, the fused yaw lies in the closed
    interval [-180, 180] and the fused pitch in [-80, 80]. *)
Theorem fused_rotation_range (s : AppState) (evs : list Event) :
  FusionInv s ->
  Forall sampleInRange evs ->
  yawClosed (headRotation (run s evs))
  /\ pitchClamped (headRotation (run s evs)).
Proof.
  intros Hs Hall. destruct (run_inv evs s Hall Hs) as [_ _ Hy Hp]. auto.
Qed.

(** The range theorem on a session with a recenter between samples. *)
Lemma fused_rotation_range_witness :
  let s := startPlay sensorConfig in
  let evs := [sample 180 0 0; sample 0 95 0; KeyR; PointerUp 0 None; sample 359 0 0] in
  FusionInv s /\ Forall sampleInRange evs
  /\ yawClosed (headRotation (run s evs))
  /\ pitchClamped (headRotation (run s evs)).
Proof.
  intros s evs.
  assert (Hs : FusionInv s) by apply startPlay_inv.
  assert (Hall : Forall sampleInRange evs).
  { subst evs.
    repeat (first
      [ apply List.Forall_nil
      | apply List.Forall_cons;
        [ cbn; try exact I; intros a [= <-]; unfold sensorRange; lra | ] ]). }
  split; [exact Hs|]. split; [exact Hall|].
  exact (fused_rotation_range s evs Hs Hall).
Defined.

End Recenter.

(** ** Note scoring *)

Section Scoring.

Lemma scoreUpdate_shape (p : GameStats) :
  score (scoreUpdate p) = (score p + (100 + 10 * combo p))%Z
  /\ combo (scoreUpdate p) = (combo p + 1)%Z
  /\ maxCombo (scoreUpdate p) = Z.max (maxCombo p) (combo (scoreUpdate p))
  /\ (combo (scoreUpdate p) <= maxCombo (scoreUpdate p))%Z
  /\ ((0 <= combo p)%Z -> (score p < score (scoreUpdate p))%Z).
Proof. unfold scoreUpdate; cbn. repeat split; lia. Qed.

Lemma hitNote_frame (noteId : option string) (s : AppState) :
  scoreFrame s (hitNote noteId s).
Proof.
  unfold scoreFrame, hitNote.
  destruct (Num.truthy noteId) as [id|]; [|left; auto].
  destruct (decide (id ∈ hitObjects s)) as [Hin|Hnin]; [left; auto|].
  right. exists id. cbn. auto.
Qed.

Lemma gazeWord_stats (now : Z) (el : Element) (s : AppState) :
  gameStats (gazeWord now el s) = gameStats s
  /\ hitObjects (gazeWord now el s) = hitObjects s
  /\ scoredIds (log (gazeWord now el s)) = scoredIds (log s).
Proof. handler_cases; auto. Qed.

Lemma step_scoreFrame (s : AppState) (ev : Event) : scoreFrame s (step s ev).
Proof.
  assert (Hrefl : forall s', gameStats s' = gameStats s ->
            hitObjects s' = hitObjects s ->
            scoredIds (log s') = scoredIds (log s) -> scoreFrame s s').
  { intros s' ? ? ?. left. auto. }
  destruct ev as [e l|e|e|now el|now el|d| | |now|p|p|]; cbn.
  - unfold onDeviceOrientation, handleOrientation.
    repeat case_match; apply Hrefl; reflexivity.
  - unfold onPointerDown. repeat case_match; apply Hrefl; reflexivity.
  - unfold onPointerMove. repeat case_match; apply Hrefl; reflexivity.
  - unfold onPointerUp, handleScreenClick.
    repeat case_match; try (apply Hrefl; reflexivity);
      try (apply Hrefl; unfold confirmRecenter, togglePlay, closeDefinition,
             handleTranslate; repeat case_match; reflexivity).
    all: match goal with
         | |- scoreFrame ?s (set_isDragging _ (hitNote ?n ?s)) =>
             destruct (hitNote_frame n s) as [(?&?&?)|(id&?&?&?&?)];
             [left | right; exists id]; cbn; auto
         end.
  - unfold gazeTick, checkGaze. repeat case_match; try (apply Hrefl; reflexivity).
    all: match goal with
         | |- scoreFrame ?s (gazeWord ?t ?e (hitNote ?n ?s)) =>
             destruct (gazeWord_stats t e (hitNote n s)) as (E1 & E2 & E3);
             destruct (hitNote_frame n s) as [(?&?&?)|(id&?&?&?&?)];
             [left | right; exists id]; rewrite ?E1, ?E2, ?E3; auto
         | |- scoreFrame ?s (gazeWord ?t ?e ?s) =>
             destruct (gazeWord_stats t e s) as (E1 & E2 & E3);
             left; auto
         end.
  - apply Hrefl; reflexivity.
  - repeat case_match; apply Hrefl; reflexivity.
  - unfold togglePlay. repeat case_match; apply Hrefl; reflexivity.
  - unfold closeDefinition. repeat case_match; apply Hrefl; reflexivity.
  - unfold onTouchStart. repeat case_match; apply Hrefl; reflexivity.
  - unfold onTouchMove. repeat case_match; apply Hrefl; reflexivity.
  - apply Hrefl; reflexivity.
Qed.

Lemma scoreFrame_inv (s s' : AppState) :
  scoreFrame s s' -> ScoreInv s -> ScoreInv s'.
Proof.
  intros [(Hg & Hh & Hl)|(id & Hnin & Hg & Hh & Hl)] [Hnd Hc Hs Hcm].
  - split.
    + rewrite Hl. exact Hnd.
    + rewrite Hl, Hh. exact Hc.
    + rewrite Hl, Hg. exact Hs.
    + rewrite Hg. exact Hcm.
  - split.
    + rewrite Hl. constructor; [|exact Hnd]. intros Hin. apply Hnin, Hc, Hin.
    + rewrite Hl, Hh. intros id' [<-|Hin]; apply elem_of_union.
      * left. apply elem_of_singleton. reflexivity.
      * right. apply Hc, Hin.
    + rewrite Hl, Hg. cbn. rewrite Hs. reflexivity.
    + rewrite Hg. cbn. lia.
Qed.

Lemma run_scoreInv (evs : list Event) (s : AppState) :
  ScoreInv s -> ScoreInv (run s evs).
Proof.
  revert s. induction evs as [|ev evs IH]; intros s Hs; cbn; [exact Hs|].
  apply IH. apply (scoreFrame_inv s); [apply step_scoreFrame | exact Hs].
Qed.

Lemma startPlay_scoreInv (config : PlayerConfig) : ScoreInv (startPlay config).
Proof.
  split; cbn; [constructor | intros ? [] | reflexivity | lia].
Qed.

End Scoring.

(** *** The scoring update and consumed notes *)

Section ScoringClaims.

Lemma scoredFrom_update (p : GameStats) :
  (0 <= combo p)%Z -> scoredFrom p (scoreUpdate p).
Proof.
  intros Hc. destruct (scoreUpdate_shape p) as (H1 & H2 & H3 & H4 & H5).
  unfold scoredFrom. repeat split; auto.
Qed.

Lemma hitNote_fresh (id : string) (s : AppState) :
  id <> ""%string -> id ∉ hitObjects s ->
  gameStats (hitNote (Some id) s) = scoreUpdate (gameStats s)
  /\ hitObjects (hitNote (Some id) s) = {[ id ]} ∪ hitObjects s
  /\ log (hitNote (Some id) s) = EScore id :: log s.
Proof.
  intros Hne Hnin. unfold hitNote.
  assert (Ht : Num.truthy (Some id) = Some id) by (apply truthy_Some; auto).
  rewrite Ht. destruct (decide (id ∈ hitObjects s)); [contradiction|].
  cbn. auto.
Qed.

Lemma hitNote_consumed (noteId : option string) (id : string) (s : AppState) :
  noteId = Some id -> id ∈ hitObjects s -> hitNote noteId s = s.
Proof.
  intros -> Hin. unfold hitNote, Num.truthy.
  destruct (String.eqb id ""); [reflexivity|].
  destruct (decide (id ∈ hitObjects s)); [reflexivity|contradiction].
Qed.

(** C10.  Whatever the event, the score board either stays as it is or
    moves by one scoring update: score + (100 + 10 * previous combo),
    combo + 1, maxCombo = max(previous maxCombo, new combo), hence
    maxCombo >= combo and a strictly larger score.  A click on a note that
    is not yet consumed, and a gaze tick on one in rhythm mode, both make
    exactly that update. *)
Theorem note_scoring_update (s : AppState) :
  (0 <= combo (gameStats s))%Z ->
  (forall ev, gameStats (step s ev) = gameStats s
              \/ scoredFrom (gameStats s) (gameStats (step s ev)))
  /\ (forall now el id,
        isCalibrationMode s = false -> actionElement el = None ->
        gameNoteElement el = Some (Some id) ->
        id <> ""%string -> id ∉ hitObjects s ->
        scoredFrom (gameStats s) (gameStats (handleScreenClick now (Some el) s)))
  /\ (forall now el id,
        isGameMode (playerConfig s) = true ->
        gameNoteElement el = Some (Some id) ->
        id <> ""%string -> id ∉ hitObjects s ->
        scoredFrom (gameStats s) (gameStats (checkGaze now (Some el) s))).
Proof.
  intros Hc. split; [|split].
  - intros ev. destruct (step_scoreFrame s ev) as [(Hg & _)|(id & _ & Hg & _)].
    + left. exact Hg.
    + right. rewrite Hg. apply scoredFrom_update, Hc.
  - intros now el id Hcal Hact Hnote Hne Hnin.
    unfold handleScreenClick. rewrite Hcal, Hact, Hnote.
    destruct (hitNote_fresh id s Hne Hnin) as (Hg & _).
    rewrite Hg. apply scoredFrom_update, Hc.
  - intros now el id Hgame Hnote Hne Hnin.
    unfold checkGaze. rewrite Hgame, Hnote.
    destruct (gazeWord_stats now el (hitNote (Some id) s)) as (Hg' & _).
    destruct (hitNote_fresh id s Hne Hnin) as (Hg & _).
    rewrite Hg', Hg. apply scoredFrom_update, Hc.
Qed.

(** The scoring update on the first note of a rhythm session, by click and
    by gaze. *)
Lemma note_scoring_update_witness :
  let s := startPlay gameConfig in
  (0 <= combo (gameStats s))%Z
  /\ scoredFrom (gameStats s) (gameStats (handleScreenClick 5 (Some (noteEl "n1")) s))
  /\ scoredFrom (gameStats s) (gameStats (checkGaze 5 (Some (noteEl "n1")) s)).
Proof.
  intros s.
  assert (Hc : (0 <= combo (gameStats s))%Z) by (cbn; lia).
  assert (Hnin : "n1"%string ∉ hitObjects s) by (cbn; apply not_elem_of_empty).
  destruct (note_scoring_update s Hc) as (_ & Hclick & Hgaze).
  split; [exact Hc|]. split.
  - apply (Hclick 5%Z (noteEl "n1") "n1"%string); try reflexivity;
      [discriminate | exact Hnin].
  - apply (Hgaze 5%Z (noteEl "n1") "n1"%string); try reflexivity;
      [discriminate | exact Hnin].
Defined.

(** C6.  Over a whole session no note id is scored twice: the scored ids
    are pairwise distinct, the score board is exactly that many scoring
    updates away from zero, and a click or a gaze tick on a note whose id
    is already in the consumed set leaves the score board as it is. *)
Theorem consumed_note_scores_once (config : PlayerConfig) (evs : list Event) :
  let s := run (startPlay config) evs in
  List.NoDup (scoredIds (log s))
  /\ gameStats s
     = Nat.iter (length (scoredIds (log s))) scoreUpdate initialStats
  /\ (forall id, In id (scoredIds (log s)) -> id ∈ hitObjects s)
  /\ (forall id now el,
        id ∈ hitObjects s -> gameNoteElement el = Some (Some id) ->
        gameStats (handleScreenClick now (Some el) s) = gameStats s
        /\ gameStats (checkGaze now (Some el) s) = gameStats s).
Proof.
  intros s.
  destruct (run_scoreInv evs (startPlay config) (startPlay_scoreInv config))
    as [Hnd Hc Hs _].
  split; [exact Hnd|]. split; [exact Hs|]. split; [exact Hc|].
  intros id now el Hin Hnote. split.
  - unfold handleScreenClick.
    destruct (isCalibrationMode s);
      [unfold confirmRecenter; repeat case_match; reflexivity|].
    destruct (actionElement el);
      [unfold togglePlay; repeat case_match; reflexivity|].
    rewrite Hnote, (hitNote_consumed (Some id) id s eq_refl Hin). reflexivity.
  - unfold checkGaze. rewrite Hnote.
    destruct (isGameMode (playerConfig s)).
    + rewrite (hitNote_consumed (Some id) id s eq_refl Hin).
      apply gazeWord_stats.
    + apply gazeWord_stats.
Qed.

(** A note scored by gaze and then clicked twice: the score stays at 100
    and further triggers leave it there. *)
Lemma consumed_note_scores_once_witness :
  let s := run (startPlay gameConfig)
             [GazeTick 100 (Some (noteEl "n1")); PointerUp 150 (Some (noteEl "n1"));
              PointerUp 180 (Some (noteEl "n1"))] in
  score (gameStats s) = 100%Z
  /\ "n1"%string ∈ hitObjects s
  /\ gameStats (handleScreenClick 200 (Some (noteEl "n1")) s) = gameStats s
  /\ gameStats (checkGaze 200 (Some (noteEl "n1")) s) = gameStats s.
Proof.
  intros s.
  assert (Hin : "n1"%string ∈ hitObjects s) by (vm_compute; reflexivity).
  destruct (consumed_note_scores_once gameConfig
              [GazeTick 100 (Some (noteEl "n1")); PointerUp 150 (Some (noteEl "n1"));
               PointerUp 180 (Some (noteEl "n1"))]) as (_ & _ & _ & Hsame).
  split; [reflexivity|]. split; [exact Hin|].
  exact (Hsame "n1"%string 200%Z (noteEl "n1") Hin eq_refl).
Defined.

(** The three orders named by the claim, run from a session start in
    rhythm mode: the second trigger never moves the score. *)
Example dwell_then_click_scores_once :
  gameStats (run (startPlay gameConfig)
               [GazeTick 100 (Some (noteEl "n1")); PointerUp 150 (Some (noteEl "n1"))])
  = {| score := 100; combo := 1; maxCombo := 1 |}.
Proof. reflexivity. Qed.

Example click_then_dwell_scores_once :
  gameStats (run (startPlay gameConfig)
               [PointerUp 100 (Some (noteEl "n1")); GazeTick 150 (Some (noteEl "n1"))])
  = {| score := 100; combo := 1; maxCombo := 1 |}.
Proof. reflexivity. Qed.

Example click_twice_scores_once :
  gameStats (run (startPlay gameConfig)
               [PointerUp 100 (Some (noteEl "n1")); PointerUp 150 (Some (noteEl "n1"))])
  = {| score := 100; combo := 1; maxCombo := 1 |}.
Proof. reflexivity. Qed.

Example two_notes_score_twice :
  gameStats (run (startPlay gameConfig)
               [PointerUp 100 (Some (noteEl "n1")); PointerUp 150 (Some (noteEl "n2"))])
  = {| score := 210; combo := 2; maxCombo := 2 |}.
Proof. reflexivity. Qed.

End ScoringClaims.

(** ** Touch mode *)

Section Touch.

Lemma step_config (s : AppState) (ev : Event) :
  playerConfig (step s ev) = playerConfig s /\ view (step s ev) = view s.
Proof.
  destruct ev; handler_cases; auto.
Qed.

Lemma run_config (evs : list Event) (s : AppState) :
  playerConfig (run s evs) = playerConfig s.
Proof.
  revert s. induction evs as [|ev evs IH]; intros s; [reflexivity|].
  change (run s (ev :: evs)) with (run (step s ev) evs).
  rewrite IH. apply step_config.
Qed.

Lemma dragRotate_yaw (axis : DragAxis) (dx dy : Q) (prev : Rotation) :
  rot_y (dragRotate axis dx dy prev) == rot_y prev + dx * (2 # 10).
Proof. destruct axis; cbn; reflexivity. Qed.

Lemma dragRotate_horizontal (dx dy : Q) (prev : Rotation) :
  rot_x (dragRotate HORIZONTAL dx dy prev) = rot_x prev.
Proof. reflexivity. Qed.

Lemma dragRotate_free (dx dy : Q) (prev : Rotation) :
  let p := rot_x (dragRotate FREE dx dy prev) in
  (-85 <= p /\ p <= 85)
  /\ (-85 <= rot_x prev + dy * (2 # 10) ->
      rot_x prev + dy * (2 # 10) <= 85 ->
      p == rot_x prev + dy * (2 # 10)).
Proof.
  cbn. split.
  - apply clamp_range. lra.
  - intros H1 H2. apply clamp_id; assumption.
Qed.

(** With the drag axis on HORIZONTAL no event moves the touch pitch away
    from zero. *)
Lemma step_horizontal_pitch (s : AppState) (ev : Event) :
  dragAxis (playerConfig s) = HORIZONTAL ->
  rot_x (touchRotation s) == 0 ->
  rot_x (touchRotation (step s ev)) == 0.
Proof.
  intros Hax Hz.
  destruct ev; handler_cases;
    try exact Hz; try reflexivity; try congruence.
  all: rewrite Hax in *; cbn; exact Hz.
Qed.

Lemma run_horizontal_pitch (evs : list Event) (s : AppState) :
  dragAxis (playerConfig s) = HORIZONTAL ->
  rot_x (touchRotation s) == 0 ->
  rot_x (touchRotation (run s evs)) == 0.
Proof.
  revert s. induction evs as [|ev evs IH]; intros s Hax Hz; cbn; [exact Hz|].
  apply IH.
  - destruct (step_config s ev) as [-> _]. exact Hax.
  - apply step_horizontal_pitch; assumption.
Qed.

(** C9 as stated fails: in FREE mode a downward drag of 425 pixels takes
    the touch pitch to 85, beyond the sensor clamp of 80. *)
Lemma touch_pitch_exceeds_80 :
  let s := run (startPlay (touchConfig FREE))
             [PointerDown (dragTo 0 0); PointerMove (dragTo 0 425)] in
  rot_x (activeRotation s) == 85 /\ ~ rot_x (activeRotation s) <= 80.
Proof.
  vm_compute. split; [reflexivity|]. intros H. apply H. reflexivity.
Qed.

(** C9 (amended).  In touch mode a drag step replaces the accumulator by
    [dragRotate]: yaw grows by 0.2 degrees per pixel of horizontal
    movement; with the HORIZONTAL axis the pitch is left as it is, so it
    stays 0 along every event sequence that starts from pitch 0; with the
    FREE axis the pitch grows by 0.2 degrees per pixel and is clamped to
    [-85, 85]; and a recenter puts the fused rotation back to (0, 0). *)
Theorem touch_rotation (s : AppState) :
  controlMode (playerConfig s) = TOUCH ->
  (forall e, view s = player -> isSeeking s = false -> pinching s = false ->
             (0 < buttons e)%Z ->
             touchRotation (onPointerMove e s)
             = dragRotate (dragAxis (playerConfig s))
                 (clientX e - fst (lastPointer s))
                 (clientY e - snd (lastPointer s)) (touchRotation s))
  /\ (forall axis dx dy prev,
        rot_y (dragRotate axis dx dy prev) == rot_y prev + dx * (2 # 10))
  /\ (forall dx dy prev, rot_x (dragRotate HORIZONTAL dx dy prev) = rot_x prev)
  /\ (forall dx dy prev,
        let p := rot_x (dragRotate FREE dx dy prev) in
        (-85 <= p /\ p <= 85)
        /\ (-85 <= rot_x prev + dy * (2 # 10) ->
            rot_x prev + dy * (2 # 10) <= 85 ->
            p == rot_x prev + dy * (2 # 10)))
  /\ (dragAxis (playerConfig s) = HORIZONTAL ->
      rot_x (touchRotation s) == 0 ->
      forall evs, rot_x (activeRotation (run s evs)) == 0)
  /\ activeRotation (confirmRecenter s) = {| rot_x := 0; rot_y := 0 |}.
Proof.
  intros Hm. repeat apply conj.
  - intros e Hv Hseek Hpinch Hb. unfold onPointerMove.
    rewrite Hv, Hseek, Hpinch. cbn.
    assert (Hb' : (0 <? buttons e)%Z = true) by (apply Z.ltb_lt; exact Hb).
    destruct (Num.gtb (Num.abs (clientX e - fst (lastPointer s))) 5
              || Num.gtb (Num.abs (clientY e - snd (lastPointer s))) 5);
      cbn; rewrite Hm, Hb', Hseek; reflexivity.
  - apply dragRotate_yaw.
  - apply dragRotate_horizontal.
  - apply dragRotate_free.
  - intros Hax Hz evs.
    unfold activeRotation. rewrite run_config, Hm.
    apply run_horizontal_pitch; assumption.
  - apply recenter_touch_zero, Hm.
Qed.

(** A drag of 50 by 490 pixels with the HORIZONTAL axis: yaw 10, pitch 0. *)
Lemma touch_rotation_witness :
  let s := run (startPlay (touchConfig HORIZONTAL)) [PointerDown (dragTo 10 10)] in
  controlMode (playerConfig s) = TOUCH
  /\ rot_y (touchRotation (onPointerMove (dragTo 60 500) s)) == 10
  /\ rot_x (touchRotation (onPointerMove (dragTo 60 500) s)) == 0
  /\ activeRotation (confirmRecenter s) = {| rot_x := 0; rot_y := 0 |}.
Proof.
  intros s.
  assert (Hm : controlMode (playerConfig s) = TOUCH) by reflexivity.
  destruct (touch_rotation s Hm) as (Hmove & Hyaw & Hhor & _ & _ & Hrec).
  assert (Hb : (0 < buttons (dragTo 60 500))%Z) by (cbn; lia).
  specialize (Hmove (dragTo 60 500) eq_refl eq_refl eq_refl Hb).
  split; [exact Hm|]. split; [|split; [|exact Hrec]].
  - rewrite Hmove, Hyaw. vm_compute. reflexivity.
  - rewrite Hmove. reflexivity.
Defined.

End Touch.

(** ** Per-eye texture windows *)

Section TextureWindows.

Import Renderer.

(** The substring tests of the renderer pick out exactly the declared
    split. *)
Lemma includes_split (f : VideoFormat) :
  includes "SBS" (formatName f) = match stereoSplit f with sideBySide => true | _ => false end
  /\ includes "TB" (formatName f) = match stereoSplit f with topBottom => true | _ => false end.
Proof. destruct f; split; reflexivity. Qed.

(** C5.  For every format tag and every eye the window the renderer
    samples is the specified one: side-by-side, left eye U in [0, 0.5],
    right eye U in [0.5, 1]; top-bottom, left eye V in [0.5, 1], right eye
    V in [0, 0.5]; the single eye has the left eye's mapping; a mono source
    (and the unsplit axis of a stereo one) is sampled over the whole
    [0, 1]. *)
Theorem per_eye_texture_window (f : VideoFormat) (eye : Eye) :
  let m := textureMap f eye in
  sameWindow (uWindow m) (fst (specWindowU f eye)) (snd (specWindowU f eye))
  /\ sameWindow (vWindow m) (fst (specWindowV f eye)) (snd (specWindowV f eye))
  /\ textureMap f eye_single = textureMap f eye_left.
Proof.
  destruct f, eye; vm_compute; repeat split; reflexivity.
Qed.

(** The flat (non-panoramic) stereo formats are cut by CSS in [EyeView]
    to the same windows. *)
Lemma flat_video_window (f : VideoFormat) (eye : Eye) :
  isVRVideo f = false ->
  let st := videoElementStyle true f eye in
  sameWindow (visibleU st) (fst (specWindowU f eye)) (snd (specWindowU f eye))
  /\ sameWindow (visibleV st) (fst (specWindowV f eye)) (snd (specWindowV f eye)).
Proof.
  destruct f; try discriminate; intros _; destruct eye;
    vm_compute; repeat split; reflexivity.
Qed.

End TextureWindows.

(** ** Note spawner *)

Section SpawnerFacts.

Import Spawner.

Lemma bassAvg_five (b0 b1 b2 b3 b4 : Z) (rest : list Z) :
  bassAvg (b0 :: b1 :: b2 :: b3 :: b4 :: rest)
  = Some (inject_Z (b0 + (b1 + (b2 + (b3 + (b4 + 0))))) / 5).
Proof. reflexivity. Qed.

Lemma lane_range (r : Q) :
  0 <= r -> r < 1 -> (0 <= Qfloor (r * 4) <= 3)%Z.
Proof.
  intros H0 H1. split.
  - rewrite <- (Qfloor_Z 0). apply Qfloor_resp_le.
    change (inject_Z 0) with 0. lra.
  - assert (H : inject_Z (Qfloor (r * 4)) < inject_Z 4).
    { eapply Qle_lt_trans; [apply Qfloor_le|]. change (inject_Z 4) with 4. lra. }
    rewrite <- Zlt_Qlt in H. lia.
Qed.

Lemma beat_iff (data : list Z) (g : GameLoop) :
  beat data g = true <->
  exists avg, bassAvg data = Some avg /\ BEAT_THRESHOLD < avg
              /\ (COOLDOWN_FRAMES < frameCount g - lastBeatFrame g)%Z.
Proof.
  unfold beat. destruct (bassAvg data) as [avg|].
  - rewrite andb_true_iff, gtb_true, Z.ltb_lt. split.
    + intros [H1 H2]. exists avg. auto.
    + intros (avg' & [= <-] & H1 & H2). auto.
  - split; [discriminate|]. intros (avg & [=] & _).
Qed.

Lemma spawnPhase_cases (f : Frame) (g : GameLoop) :
  (exists data, bins f = Some data /\ beat data g = true
     /\ spawnPhase f g =
        {| notesRef := notesRef g ++
             [{| note_id := fresh_id f; lane := Qfloor (random f * 4);
                 spawnTime := now f; note_z := SPAWN_Z; isHit := false |}];
           lastBeatFrame := frameCount g; frameCount := frameCount g;
           notes := notes g |})
  \/ ((forall data, bins f = Some data -> beat data g = false)
      /\ spawnPhase f g = g).
Proof.
  unfold spawnPhase. destruct (bins f) as [data|].
  - destruct (beat data g) eqn:E.
    + left. exists data. auto.
    + right. split; [intros d [= <-]; exact E | reflexivity].
  - right. split; [discriminate | reflexivity].
Qed.

End SpawnerFacts.

(** *** The spawn rule *)

Section SpawnerClaims.

Import Spawner.

(** C7 as stated fails at the boundary: after a spawn at frame 16, the
    loud frame 31 comes exactly [COOLDOWN_FRAMES] = 15 frames later (so "at
    least the cooldown" has elapsed) with a bass mean of 255 > 240, and
    nothing is spawned; frame 32 spawns. *)
Lemma no_spawn_at_exact_cooldown :
  let g := frames initial (List.repeat (flatFrame 255) 30) in
  lastBeatFrame g = 16%Z
  /\ frameCount (counted g) = 31%Z
  /\ (COOLDOWN_FRAMES <= frameCount (counted g) - lastBeatFrame g)%Z
  /\ bassAvg (List.repeat 255%Z 128) = Some (inject_Z 1275 / 5)
  /\ BEAT_THRESHOLD < inject_Z 1275 / 5
  /\ spawned true (flatFrame 255) g = 0%nat
  /\ spawned true (flatFrame 255) (updateGame true ∅ (flatFrame 255) g) = 1%nat.
Proof.
  vm_compute. repeat split; try reflexivity; discriminate.
Qed.

(** C7 (amended).  A frame while paused changes nothing.  A frame while
    playing spawns one note or none, and it spawns one exactly when the
    frequency snapshot is available, the mean of bins 0..4 exceeds 240 and
    the frame counter is more than 15 ahead of the frame of the last spawn
    (initially 0).  The spawned note is appended with depth [SPAWN_Z], its
    lane is [floor (4 * random)], which lies in {0, 1, 2, 3} for a random
    number in [0, 1), and the frame becomes the frame of the last spawn. *)
Theorem spawn_rule (f : Frame) (g : GameLoop) :
  updateGame false ∅ f g = g
  /\ spawned false f g = 0%nat
  /\ (spawned true f g = 1%nat \/ spawned true f g = 0%nat)
  /\ (spawned true f g = 1%nat <->
      exists data avg,
        bins f = Some data /\ bassAvg data = Some avg
        /\ BEAT_THRESHOLD < avg
        /\ (COOLDOWN_FRAMES < frameCount g + 1 - lastBeatFrame g)%Z)
  /\ (spawned true f g = 1%nat ->
      exists n,
        notesRef (spawnPhase f (counted g)) = notesRef g ++ [n]
        /\ note_z n = SPAWN_Z
        /\ lane n = Qfloor (random f * 4)
        /\ (0 <= random f -> random f < 1 -> (0 <= lane n <= 3)%Z)
        /\ lastBeatFrame (spawnPhase f (counted g)) = (frameCount g + 1)%Z).
Proof.
  assert (Hsp : spawned true f g
                = (length (notesRef (spawnPhase f (counted g)))
                   - length (notesRef g))%nat) by reflexivity.
  destruct (spawnPhase_cases f (counted g)) as [(data & Hb & Hbeat & Heq)|[Hno Heq]].
  - assert (H1 : spawned true f g = 1%nat).
    { rewrite Hsp, Heq. cbn. rewrite length_app. cbn. lia. }
    split; [reflexivity|]. split; [reflexivity|]. split; [|split].
    + left. exact H1.
    + split; [|intros _; exact H1]. intros _.
      apply beat_iff in Hbeat. destruct Hbeat as (avg & Ha & Ht & Hc).
      exists data, avg. cbn in Hc. auto.
    + intros _.
      exists {| note_id := fresh_id f; lane := Qfloor (random f * 4);
                spawnTime := now f; note_z := SPAWN_Z; isHit := false |}.
      rewrite Heq. cbn.
      split; [reflexivity|]. split; [reflexivity|]. split; [reflexivity|].
      split; [|reflexivity].
      intros Hge Hlt. apply lane_range; assumption.
  - assert (H0 : spawned true f g = 0%nat).
    { rewrite Hsp, Heq. cbn. lia. }
    split; [reflexivity|]. split; [reflexivity|]. split; [|split].
    + right. exact H0.
    + split; [rewrite H0; discriminate|].
      intros (data & avg & Hb & Ha & Ht & Hc). exfalso.
      specialize (Hno data Hb).
      assert (Hyes : beat data (counted g) = true).
      { apply beat_iff. exists avg. cbn. auto. }
      congruence.
    + rewrite H0. discriminate.
Qed.

(** Inter-peak spacing above the cooldown: one note per peak.  A peak at
    every 20th frame, three periods long. *)
Example peaks_spaced_20_frames :
  let period := List.repeat (flatFrame 0) 19 ++ [flatFrame 255] in
  let quiet := List.repeat 0%nat 19 in
  spawnTrace initial (period ++ period ++ period)
  = quiet ++ [1%nat] ++ quiet ++ [1%nat] ++ quiet ++ [1%nat].
Proof. vm_compute. reflexivity. Qed.

(** Peaks closer than the cooldown: of a burst of ten loud frames that
    starts at frame 16 only the first spawns. *)
Example peaks_inside_cooldown :
  spawnTrace initial
    (List.repeat (flatFrame 0) 15 ++ List.repeat (flatFrame 255) 10)
  = List.repeat 0%nat 15 ++ [1%nat] ++ List.repeat 0%nat 9.
Proof. vm_compute. reflexivity. Qed.

End SpawnerClaims.

(** ** Gaze, dwell and word lookups *)

Section Dwell.

Lemma hitNote_sameHover (noteId : option string) (s : AppState) :
  sameHover s (hitNote noteId s).
Proof. unfold sameHover. handler_cases; repeat split; reflexivity. Qed.

(** A gaze tick on an element is the word part run after the note part,
    and the note part leaves the hover cells alone. *)
Lemma checkGaze_gazeWord (now : Z) (el : Element) (s : AppState) :
  exists s1, checkGaze now (Some el) s = gazeWord now el s1 /\ sameHover s s1.
Proof.
  unfold checkGaze.
  destruct (isGameMode (playerConfig s)); [destruct (gameNoteElement el)|].
  - eexists. split; [reflexivity | apply hitNote_sameHover].
  - exists s. split; [reflexivity | repeat split; reflexivity].
  - exists s. split; [reflexivity | repeat split; reflexivity].
Qed.

Lemma notShownFor_same (w : string) (s s1 : AppState) :
  definition s1 = definition s -> notShownFor w s1 = notShownFor w s.
Proof. unfold notShownFor. intros ->. reflexivity. Qed.

(** *** The dwell clock *)

Lemma dwellOf_spec (elapsed : Z) :
  (0 <= elapsed)%Z ->
  0 <= dwellOf elapsed /\ dwellOf elapsed <= 1
  /\ ((elapsed < DWELL_TIME_MS)%Z ->
      dwellOf elapsed == inject_Z elapsed / inject_Z DWELL_TIME_MS
      /\ dwellOf elapsed < 1)
  /\ ((DWELL_TIME_MS <= elapsed)%Z -> dwellOf elapsed == 1).
Proof.
  intros H0. unfold dwellOf, DWELL_TIME_MS.
  assert (Hq : 0 <= inject_Z elapsed).
  { change 0 with (inject_Z 0). rewrite <- Zle_Qle. exact H0. }
  assert (Hdiv : inject_Z elapsed / inject_Z 1200 == inject_Z elapsed * (1 # 1200)).
  { reflexivity. }
  destruct (Q.min_spec 1 (inject_Z elapsed / inject_Z 1200)) as [[Hlt E]|[Hle E]];
    rewrite E.
  - split; [lra|]. split; [lra|]. split.
    + intros Hel. exfalso.
      assert (inject_Z elapsed < inject_Z 1200) by (rewrite <- Zlt_Qlt; exact Hel).
      change (inject_Z 1200) with 1200 in *. lra.
    + intros _. reflexivity.
  - split; [lra|]. split; [exact Hle|]. split.
    + intros Hel. split; [reflexivity|].
      assert (inject_Z elapsed < inject_Z 1200) by (rewrite <- Zlt_Qlt; exact Hel).
      change (inject_Z 1200) with 1200 in *. lra.
    + intros Hel.
      assert (inject_Z 1200 <= inject_Z elapsed) by (rewrite <- Zle_Qle; exact Hel).
      change (inject_Z 1200) with 1200 in *. lra.
Qed.


Lemma dwell_full_iff (elapsed : Z) :
  Num.geb (dwellOf elapsed) 1 = true <-> (DWELL_TIME_MS <= elapsed)%Z.
Proof.
  rewrite geb_true. unfold dwellOf, DWELL_TIME_MS.
  assert (Hd : inject_Z elapsed / inject_Z 1200 == inject_Z elapsed * (1 # 1200))
    by reflexivity.
  split.
  - intros H.
    assert (H1 : 1 <= inject_Z elapsed / inject_Z 1200).
    { eapply Qle_trans; [exact H | apply Q.le_min_r]. }
    assert (H2 : inject_Z 1200 <= inject_Z elapsed).
    { change (inject_Z 1200) with 1200. lra. }
    rewrite <- Zle_Qle in H2. exact H2.
  - intros H.
    assert (H2 : inject_Z 1200 <= inject_Z elapsed) by (rewrite <- Zle_Qle; exact H).
    change (inject_Z 1200) with 1200 in H2.
    apply Q.min_glb; lra.
Qed.

End Dwell.

(** *** One tick of the dwell machine *)

Section DwellMachine.

Lemma fires_iff (now : Z) (w : string) (s : AppState) :
  fires now w s = true <->
  (DWELL_TIME_MS <= now - lastHoverTime s)%Z
  /\ isTranslating s = false /\ notShownFor w s = true.
Proof.
  unfold fires. rewrite !andb_true_iff, dwell_full_iff, negb_true_iff. tauto.
Qed.

Lemma fires_same (now : Z) (w : string) (s s1 : AppState) :
  sameHover s s1 -> fires now w s1 = fires now w s.
Proof.
  intros (_ & Ht & _ & Hi & Hd & _). unfold fires.
  rewrite Ht, Hi, (notShownFor_same w s s1 Hd). reflexivity.
Qed.

(** The four things the word part can do on a non-empty word token:
    start a hover, stay idle after an activation, request the lookup, or
    advance the progress. *)
Lemma gazeWord_cases (now : Z) (el : Element) (w : string)
    (sent : option string) (s : AppState) :
  wordElement el = Some (w, sent) -> w <> ""%string ->
  (hoveredWord s <> Some w
   /\ gazeWord now el s
      = set_dwellProgress 0 (set_lastHoverTime now (set_hoveredWord (Some w) s)))
  \/ (hoveredWord s = Some w /\ (lastHoverTime s <= 0)%Z
      /\ gazeWord now el s = s)
  \/ (hoveredWord s = Some w /\ (0 < lastHoverTime s)%Z
      /\ fires now w s = true
      /\ gazeWord now el s
         = set_dwellProgress 0
             (set_lastHoverTime 0%Z
                (handleTranslate w (Num.orEmpty sent)
                   (set_dwellProgress (dwellOf (now - lastHoverTime s)) s))))
  \/ (hoveredWord s = Some w /\ (0 < lastHoverTime s)%Z
      /\ fires now w s = false
      /\ gazeWord now el s
         = set_dwellProgress (dwellOf (now - lastHoverTime s)) s).
Proof.
  intros Hw Hne. unfold gazeWord. rewrite Hw.
  assert (Ht : Num.truthy (Some w) = Some w) by (apply truthy_Some; auto).
  rewrite Ht.
  destruct (bool_decide (hoveredWord s = Some w)) eqn:Eh.
  - apply bool_decide_eq_true in Eh. cbn [negb].
    destruct (0 <? lastHoverTime s)%Z eqn:El.
    + apply Z.ltb_lt in El. fold (fires now w s).
      change (Num.geb (dwellOf (now - lastHoverTime s)) 1
              && negb (isTranslating (set_dwellProgress
                                        (dwellOf (now - lastHoverTime s)) s))
              && notShownFor w (set_dwellProgress
                                  (dwellOf (now - lastHoverTime s)) s))
        with (fires now w s).
      destruct (fires now w s) eqn:Ef.
      * right. right. left. auto.
      * right. right. right. auto.
    + apply Z.ltb_ge in El. right. left. auto.
  - apply bool_decide_eq_false in Eh. left. auto.
Qed.

Lemma sameHover_hoverOf (s s1 : AppState) :
  sameHover s s1 -> hoverOf s1 = hoverOf s.
Proof.
  intros (H1 & H2 & H3 & H4 & H5 & H6). unfold hoverOf.
  rewrite H1, H2, H3, H4, H5, H6. reflexivity.
Qed.

(** The same, for the whole gaze tick and in terms of the hover cells. *)
Lemma gaze_word_tick (now : Z) (el : Element) (w : string)
    (sent : option string) (s : AppState) :
  wordElement el = Some (w, sent) -> w <> ""%string ->
  let h := hoverOf s in
  let h' := hoverOf (checkGaze now (Some el) s) in
  (h_word h <> Some w
   /\ h' = {| h_word := Some w; h_since := now; h_progress := 0;
              h_translating := h_translating h;
              h_definition := h_definition h; h_lookups := h_lookups h |})
  \/ (h_word h = Some w /\ (h_since h <= 0)%Z /\ h' = h)
  \/ (h_word h = Some w /\ (0 < h_since h)%Z /\ fires now w s = true
      /\ h' = {| h_word := Some w; h_since := 0; h_progress := 0;
                 h_translating := true; h_definition := h_definition h;
                 h_lookups := (w, Num.orEmpty sent) :: h_lookups h |})
  \/ (h_word h = Some w /\ (0 < h_since h)%Z /\ fires now w s = false
      /\ h' = {| h_word := Some w; h_since := h_since h;
                 h_progress := dwellOf (now - h_since h);
                 h_translating := h_translating h;
                 h_definition := h_definition h; h_lookups := h_lookups h |}).
Proof.
  intros Hw Hne h h'.
  destruct (checkGaze_gazeWord now el s) as (s1 & Heq & Hsame).
  assert (Hh : hoverOf s1 = h) by (apply sameHover_hoverOf; exact Hsame).
  assert (Hf : fires now w s1 = fires now w s) by (apply fires_same; exact Hsame).
  subst h'. rewrite Heq.
  assert (E1 : hoveredWord s1 = h_word h) by (rewrite <- Hh; reflexivity).
  assert (E2 : lastHoverTime s1 = h_since h) by (rewrite <- Hh; reflexivity).
  destruct (gazeWord_cases now el w sent s1 Hw Hne)
    as [(Hn & ->)|[(Hy & Hle & ->)|[(Hy & Hlt & Hfi & ->)|(Hy & Hlt & Hfi & ->)]]].
  - left. split; [rewrite <- E1; exact Hn|]. rewrite <- Hh. reflexivity.
  - right. left. rewrite <- E1, <- E2. auto.
  - right. right. left. rewrite <- E1, <- E2, <- Hf.
    repeat split; auto. rewrite <- Hh. unfold hoverOf. cbn. rewrite Hy. reflexivity.
  - right. right. right. rewrite <- E1, <- E2, <- Hf.
    repeat split; auto. rewrite <- Hh. unfold hoverOf. cbn. rewrite Hy. reflexivity.
Qed.

End DwellMachine.

(** *** Runs of ticks on one word *)

Section DwellEpisode.

Context (el : Element) (w : string) (sent : option string).
Hypothesis Hword : wordElement el = Some (w, sent).
Hypothesis Hne : w <> ""%string.

(** After an activation the hover stays idle for as long as the probe
    rests on the same word. *)
Lemma dwell_idle (ts : list Z) (s : AppState) :
  hoveredWord s = Some w -> (lastHoverTime s <= 0)%Z ->
  hoverOf (dwell el s ts) = hoverOf s.
Proof.
  revert s. induction ts as [|t ts IH]; intros s Hw Hle; [reflexivity|].
  change (dwell el s (t :: ts)) with (dwell el (checkGaze t (Some el) s) ts).
  destruct (gaze_word_tick t el w sent s Hword Hne)
    as [(Hn & _)|[(_ & _ & E)|[(_ & Hlt & _)|(_ & Hlt & _)]]];
    [ exfalso; apply Hn; exact Hw | | exfalso; cbn in Hlt; lia ..].
  rewrite IH.
  - exact E.
  - change (h_word (hoverOf (checkGaze t (Some el) s)) = Some w).
    rewrite E. exact Hw.
  - change (h_since (hoverOf (checkGaze t (Some el) s)) <= 0)%Z.
    rewrite E. exact Hle.
Qed.


(** A hover that is running and not blocked requests its lookup at the
    first tick that finds the dwell time elapsed. *)
Lemma dwell_fires (ts : list Z) (s : AppState) (t : Z) :
  hoveredWord s = Some w -> (0 < lastHoverTime s)%Z ->
  isTranslating s = false -> notShownFor w s = true ->
  In t ts -> (DWELL_TIME_MS <= t - lastHoverTime s)%Z ->
  lookups (log (dwell el s ts)) = (w, Num.orEmpty sent) :: lookups (log s).
Proof.
  revert s. induction ts as [|t1 ts IH]; intros s Hw Hlt Htr Hns Hin Hel;
    [destruct Hin|].
  change (dwell el s (t1 :: ts)) with (dwell el (checkGaze t1 (Some el) s) ts).
  set (s' := checkGaze t1 (Some el) s).
  destruct (gaze_word_tick t1 el w sent s Hword Hne)
    as [(Hn & _)|[(_ & Hle & _)|[(_ & _ & _ & E)|(_ & _ & Hf & E)]]];
    [ exfalso; apply Hn; exact Hw | exfalso; cbn in Hle; lia
    | fold s' in E .. ].
  - assert (Hidle : hoverOf (dwell el s' ts) = hoverOf s').
    { apply dwell_idle.
      - change (h_word (hoverOf s') = Some w). rewrite E. reflexivity.
      - change (h_since (hoverOf s') <= 0)%Z. rewrite E. cbn. lia. }
    change (h_lookups (hoverOf (dwell el s' ts))
            = (w, Num.orEmpty sent) :: h_lookups (hoverOf s)).
    rewrite Hidle, E. reflexivity.
  - assert (E1 : hoveredWord s' = Some w)
      by (change (h_word (hoverOf s') = Some w); rewrite E; reflexivity).
    assert (E2 : lastHoverTime s' = lastHoverTime s)
      by (change (h_since (hoverOf s') = lastHoverTime s); rewrite E; reflexivity).
    assert (E3 : isTranslating s' = false)
      by (change (h_translating (hoverOf s') = false); rewrite E; exact Htr).
    assert (E4 : definition s' = definition s)
      by (change (h_definition (hoverOf s') = definition s); rewrite E; reflexivity).
    assert (E5 : lookups (log s') = lookups (log s))
      by (change (h_lookups (hoverOf s') = lookups (log s)); rewrite E; reflexivity).
    assert (Hnot : ~ (DWELL_TIME_MS <= t1 - lastHoverTime s)%Z).
    { intros Hge. assert (fires t1 w s = true) by (apply fires_iff; auto).
      congruence. }
    destruct Hin as [->|Hin]; [contradiction|].
    rewrite <- E5. apply IH; auto.
    + rewrite E2. exact Hlt.
    + rewrite (notShownFor_same w s s' E4). exact Hns.
    + rewrite E2. exact Hel.
Qed.






End DwellEpisode.

(** *** When a lookup is requested *)

Section LookupCases.


Lemma gaze_nothing (now : Z) (s : AppState) :
  hoverOf (checkGaze now None s)
  = {| h_word := None; h_since := 0; h_progress := 0;
       h_translating := isTranslating s; h_definition := definition s;
       h_lookups := lookups (log s) |}.
Proof. reflexivity. Qed.

(** A gaze tick requests a lookup only through a completed, unblocked
    dwell on the hovered word. *)
Lemma gaze_lookup_cases (now : Z) (el : option Element) (s : AppState) :
  lookups (log (checkGaze now el s)) = lookups (log s)
  \/ exists e w sn,
       el = Some e /\ wordElement e = Some (w, sn) /\ w <> ""%string
       /\ hoveredWord s = Some w /\ (0 < lastHoverTime s)%Z
       /\ fires now w s = true
       /\ lookups (log (checkGaze now el s)) = (w, Num.orEmpty sn) :: lookups (log s).
Proof.
  destruct el as [e|]; [|left; reflexivity].
  destruct (wordElement e) as [[w sn]|] eqn:Hw.
  - destruct (String.eqb_spec w "") as [->|Hne].
    + left.
      destruct (checkGaze_gazeWord now e s) as (s1 & -> & (_ & _ & _ & _ & _ & H6)).
      unfold gazeWord. rewrite Hw. cbn. exact H6.
    + destruct (gaze_word_tick now e w sn s Hw Hne)
        as [(_ & E)|[(_ & _ & E)|[(Hh & Hlt & Hf & E)|(_ & _ & _ & E)]]].
      * left. change (h_lookups (hoverOf (checkGaze now (Some e) s)) = lookups (log s)).
        rewrite E. reflexivity.
      * left. change (h_lookups (hoverOf (checkGaze now (Some e) s)) = lookups (log s)).
        rewrite E. reflexivity.
      * right. exists e, w, sn. repeat split; auto.
        change (h_lookups (hoverOf (checkGaze now (Some e) s))
                = (w, Num.orEmpty sn) :: lookups (log s)).
        rewrite E. reflexivity.
      * left. change (h_lookups (hoverOf (checkGaze now (Some e) s)) = lookups (log s)).
        rewrite E. reflexivity.
  - left.
    destruct (checkGaze_gazeWord now e s) as (s1 & -> & (_ & _ & _ & _ & _ & H6)).
    unfold gazeWord. rewrite Hw.
    destruct (Num.truthy (hoveredWord s1)); cbn; exact H6.
Qed.

(** A click requests a lookup only from the word branch, and only with
    nothing pending, nothing displayed and rhythm mode off. *)
Lemma click_lookup_cases (now : Z) (el : option Element) (s : AppState) :
  lookups (log (handleScreenClick now el s)) = lookups (log s)
  \/ exists e w sn,
       el = Some e /\ isCalibrationMode s = false
       /\ actionElement e = None /\ gameNoteElement e = None
       /\ wordElement e = Some (w, sn)
       /\ isTranslating s = false /\ definition s = None
       /\ isGameMode (playerConfig s) = false
       /\ lookups (log (handleScreenClick now el s))
          = (w, Num.orEmpty sn) :: lookups (log s).
Proof.
  unfold handleScreenClick.
  destruct (isCalibrationMode s) eqn:Hc.
  { left. unfold confirmRecenter. repeat case_match; reflexivity. }
  destruct el as [e|].
  2:{ left. unfold togglePlay. repeat case_match; reflexivity. }
  destruct (actionElement e) as [a|] eqn:Ha.
  { left. unfold togglePlay. repeat case_match; reflexivity. }
  destruct (gameNoteElement e) as [n|] eqn:Hn.
  { left. apply hitNote_sameHover. }
  destruct (wordElement e) as [[w sn]|] eqn:Hw.
  2:{ left. unfold togglePlay. repeat case_match; reflexivity. }
  destruct (String.eqb w "close-btn"); [left; reflexivity|].
  destruct (isTranslating s) eqn:Ht; [left; reflexivity|].
  destruct (definition s) as [d|] eqn:Hd; [left; reflexivity|].
  destruct (isGameMode (playerConfig s)) eqn:Hg; [left; reflexivity|].
  right. exists e, w, sn. cbn. repeat split; auto.
Qed.

End LookupCases.

(** *** Dwell progress and activation *)

Section DwellClaims.




End DwellClaims.

(** *** Guards of the word lookup *)

Section LookupGuards.

(** C8 as stated fails: with the definition of "cat" on display (rhythm
    mode off, nothing pending), a dwell of 1200 ms on "dog" requests the
    lookup of "dog". *)
Lemma dwell_lookup_while_definition_shown :
  let s := dwell (wordEl "dog" "a dog") catShown [1000; 2200]%Z in
  definition catShown = Some catDef
  /\ isTranslating catShown = false
  /\ isGameMode (playerConfig catShown) = false
  /\ lookups (log s) = ("dog"%string, "a dog"%string) :: lookups (log catShown).
Proof. vm_compute. repeat split; reflexivity. Qed.

(** The dwell path does not look at the rhythm flag: in rhythm mode a
    dwell of 1200 ms on a word requests its lookup. *)
Example dwell_lookup_in_rhythm_mode :
  lookups (log (dwell (wordEl "cat" "a cat") (startPlay gameConfig) [1000; 2200]%Z))
  = [("cat"%string, "a cat"%string)].
Proof. vm_compute. reflexivity. Qed.

(** C8 (amended).  While a lookup is pending neither a click nor a gaze
    tick requests another one.  A click requests none while a definition
    is on display and none while rhythm mode is on.  A gaze tick requests
    none for the word whose definition is on display. *)
Theorem lookup_guards (now : Z) (el : option Element) (s : AppState) :
  (isTranslating s = true ->
     lookups (log (handleScreenClick now el s)) = lookups (log s)
     /\ lookups (log (checkGaze now el s)) = lookups (log s))
  /\ (definition s <> None ->
        lookups (log (handleScreenClick now el s)) = lookups (log s))
  /\ (isGameMode (playerConfig s) = true ->
        lookups (log (handleScreenClick now el s)) = lookups (log s))
  /\ (forall d e sn,
        definition s = Some d -> el = Some e ->
        wordElement e = Some (def_word d, sn) ->
        lookups (log (checkGaze now el s)) = lookups (log s)).
Proof.
  split; [|split; [|split]].
  - intros Ht. split.
    + destruct (click_lookup_cases now el s)
        as [E|(e & w & sn & _ & _ & _ & _ & _ & Hf & _)]; [exact E | congruence].
    + destruct (gaze_lookup_cases now el s)
        as [E|(e & w & sn & _ & _ & _ & _ & _ & Hf & _)]; [exact E|].
      apply fires_iff in Hf. destruct Hf as (_ & Hf & _). congruence.
  - intros Hd.
    destruct (click_lookup_cases now el s)
      as [E|(e & w & sn & _ & _ & _ & _ & _ & _ & Hn & _)]; [exact E | contradiction].
  - intros Hg.
    destruct (click_lookup_cases now el s)
      as [E|(e & w & sn & _ & _ & _ & _ & _ & _ & _ & Hf & _)]; [exact E | congruence].
  - intros d e sn Hd -> Hw.
    destruct (gaze_lookup_cases now (Some e) s)
      as [E|(e' & w & sn' & [= <-] & Hw' & _ & _ & _ & Hf & _)]; [exact E|].
    exfalso. rewrite Hw in Hw'. injection Hw' as <- <-.
    apply fires_iff in Hf. destruct Hf as (_ & _ & Hns).
    unfold notShownFor in Hns. rewrite Hd, String.eqb_refl in Hns. discriminate.
Qed.

(** With the definition of "cat" on display, neither a click nor a
    completed dwell on "cat" requests a lookup. *)
Lemma lookup_guards_witness :
  let el := Some (wordEl "cat" "a cat") in
  let s := dwell (wordEl "cat" "a cat") catShown [1000]%Z in
  definition s <> None
  /\ lookups (log (handleScreenClick 2200 el s)) = lookups (log s)
  /\ lookups (log (checkGaze 2200 el s)) = lookups (log s).
Proof.
  intros el s.
  assert (Hd : definition s = Some catDef) by reflexivity.
  assert (Hd' : definition s <> None) by (rewrite Hd; discriminate).
  destruct (lookup_guards 2200 el s) as (_ & Hclick & _ & Hgaze).
  split; [exact Hd'|]. split.
  - exact (Hclick Hd').
  - exact (Hgaze catDef (wordEl "cat" "a cat") (Some "a cat"%string)
             Hd eq_refl eq_refl).
Defined.

End LookupGuards.

(** ** Classification and activation paths *)

Section ActivationPaths.





Lemma rendered_oneTarget (s : AppState) (el : option Element) :
  Rendered s el -> oneTarget s el.
Proof.
  intros [ | |Hm|id Hg|word sentence|Hd]; cbn; try exact I;
    split; intros H; try (exfalso; apply H; reflexivity);
    try discriminate; auto.
Qed.




End ActivationPaths.

(** * Further properties of the code *)

(** ** What a gaze tick and a click in calibration mode never do *)

Section Never.

(** A gaze tick leaves the displayed definition as it is. *)
Lemma checkGaze_definition (now : Z) (el : option Element) (s : AppState) :
  definition (checkGaze now el s) = definition s.
Proof.
  handler_cases; reflexivity.
Qed.

(** X1.  A gaze tick never changes or closes the displayed definition,
    never enters or leaves calibration mode, never moves the view or the
    calibration base, and can pause playback but never resume it. *)
Theorem gaze_tick_never (now : Z) (el : option Element) (s : AppState) :
  let s' := checkGaze now el s in
  definition s' = definition s
  /\ isCalibrationMode s' = isCalibrationMode s
  /\ headRotation s' = headRotation s
  /\ touchRotation s' = touchRotation s
  /\ baseRotation s' = baseRotation s
  /\ lastRawOrientation s' = lastRawOrientation s
  /\ (isPlaying s' = isPlaying s \/ isPlaying s' = false).
Proof.
  cbn zeta. handler_cases; repeat split; auto.
Qed.

(** X2.  In calibration mode the gaze interval does nothing, and a click,
    whatever lies under the probe point, only confirms the recenter: it
    leaves calibration mode and neither scores, nor requests a lookup, nor
    closes the definition, nor toggles playback. *)
Theorem calibration_click_only_recenters (now : Z) (el : option Element)
    (s : AppState) :
  isCalibrationMode s = true ->
  gazeTick now el s = s
  /\ handleScreenClick now el s = confirmRecenter s
  /\ (let s' := handleScreenClick now el s in
      isCalibrationMode s' = false
      /\ log s' = ERecenter :: log s
      /\ gameStats s' = gameStats s /\ hitObjects s' = hitObjects s
      /\ definition s' = definition s /\ isPlaying s' = isPlaying s
      /\ isTranslating s' = isTranslating s).
Proof.
  intros Hc. split; [|split].
  - unfold gazeTick. rewrite Hc. destruct (view s); reflexivity.
  - unfold handleScreenClick. rewrite Hc. reflexivity.
  - unfold handleScreenClick. rewrite Hc. cbn zeta.
    unfold confirmRecenter. repeat case_match; cbn; repeat split; reflexivity.
Qed.

(** The theorem on a note under the probe in rhythm mode. *)
Lemma calibration_click_only_recenters_witness :
  let s := step (startPlay gameConfig) KeyR in
  isCalibrationMode s = true
  /\ gameStats (handleScreenClick 5 (Some (noteEl "n1")) s) = gameStats s
  /\ gazeTick 5 (Some (noteEl "n1")) s = s.
Proof.
  intros s.
  assert (Hc : isCalibrationMode s = true) by reflexivity.
  destruct (calibration_click_only_recenters 5 (Some (noteEl "n1")) s Hc)
    as (Hg & _ & _ & _ & Hs & _).
  split; [exact Hc|]. split; [exact Hs | exact Hg].
Defined.



End Never.

(** ** Clicks, drags and scrubs *)

Section ClickOrDrag.

(** X4.  A pointer move of more than 5 pixels on either axis since the
    previous pointer event marks a drag, and the pointer-up that follows
    is no click: it only clears the drag flag.  A pointer-up that ends a
    scrub of the progress bar is no click either: it only ends the scrub. *)
Theorem drag_or_scrub_is_no_click (now : Z) (el : option Element)
    (s : AppState) :
  view s = player ->
  (forall e,
     isSeeking s = false -> pinching s = false ->
     (5 < Qabs (clientX e - fst (lastPointer s))
      \/ 5 < Qabs (clientY e - snd (lastPointer s))) ->
     isDragging (onPointerMove e s) = true
     /\ onPointerUp now el (onPointerMove e s)
        = set_isDragging false (onPointerMove e s)
     /\ clickCells (onPointerUp now el (onPointerMove e s))
        = clickCells (onPointerMove e s))
  /\ (isSeeking s = true ->
        onPointerUp now el s = set_isSeeking false s
        /\ clickCells (onPointerUp now el s) = clickCells s).
Proof.
  intros Hv. split.
  - intros e Hseek Hpinch Hfar.
    assert (Hd : Num.gtb (Num.abs (clientX e - fst (lastPointer s))) 5
                 || Num.gtb (Num.abs (clientY e - snd (lastPointer s))) 5 = true).
    { apply orb_true_iff. unfold Num.abs.
      destruct Hfar as [H|H]; [left|right]; apply gtb_true; exact H. }
    assert (Hdrag : isDragging (onPointerMove e s) = true).
    { unfold onPointerMove. rewrite Hv, Hseek, Hpinch, Hd. cbn.
      repeat case_match; reflexivity. }
    assert (Hview : view (onPointerMove e s) = player).
    { destruct (step_config s (PointerMove e)) as [_ E]. cbn in E.
      rewrite E. exact Hv. }
    assert (Hs' : isSeeking (onPointerMove e s) = false).
    { unfold onPointerMove. rewrite Hv, Hseek, Hpinch, Hd. cbn.
      repeat case_match; exact Hseek. }
    assert (Hup : onPointerUp now el (onPointerMove e s)
                  = set_isDragging false (onPointerMove e s)).
    { unfold onPointerUp at 1. rewrite Hview, Hs', Hdrag. reflexivity. }
    split; [exact Hdrag|]. split; [exact Hup|]. rewrite Hup. reflexivity.
  - intros Hseek. unfold onPointerUp. rewrite Hv, Hseek.
    split; reflexivity.
Qed.

(** The theorem on a 6-pixel move over a note in rhythm mode. *)
Lemma drag_or_scrub_is_no_click_witness :
  let s := startPlay gameConfig in
  view s = player
  /\ clickCells (onPointerUp 9 (Some (noteEl "n1")) (onPointerMove (dragTo 6 0) s))
     = clickCells (onPointerMove (dragTo 6 0) s).
Proof.
  intros s.
  assert (Hv : view s = player) by reflexivity.
  split; [exact Hv|].
  destruct (drag_or_scrub_is_no_click 9 (Some (noteEl "n1")) s Hv) as (Hdrag & _).
  assert (Hfar : 5 < Qabs (clientX (dragTo 6 0) - fst (lastPointer s))
                 \/ 5 < Qabs (clientY (dragTo 6 0) - snd (lastPointer s))).
  { left. vm_compute. reflexivity. }
  destruct (Hdrag (dragTo 6 0) eq_refl eq_refl Hfar) as (_ & _ & Hcells).
  exact Hcells.
Defined.

Lemma onPointerMove_frame (e : PointerEvent) (s : AppState) :
  view (onPointerMove e s) = view s
  /\ isSeeking (onPointerMove e s) = isSeeking s
  /\ lastPinchDist (onPointerMove e s) = lastPinchDist s.
Proof. handler_cases; auto. Qed.

Lemma gentle_moves (es : list PointerEvent) (s : AppState) :
  view s = player -> isSeeking s = false -> pinching s = false ->
  isDragging s = false -> gentle (lastPointer s) es ->
  let s' := run s (List.map PointerMove es) in
  view s' = player /\ isSeeking s' = false /\ pinching s' = false
  /\ isDragging s' = false.
Proof.
  revert s. induction es as [|e es IH]; intros s Hv Hseek Hpinch Hd Hg; cbn zeta.
  - cbn. auto.
  - destruct Hg as (Hx & Hy & Hg).
    change (run s (List.map PointerMove (e :: es)))
      with (run (onPointerMove e s) (List.map PointerMove es)).
    assert (Hnear : Num.gtb (Num.abs (clientX e - fst (lastPointer s))) 5
                    || Num.gtb (Num.abs (clientY e - snd (lastPointer s))) 5
                    = false).
    { apply orb_false_iff. unfold Num.abs. split; apply gtb_false; assumption. }
    destruct (onPointerMove_frame e s) as (Fv & Fs & Fp).
    assert (Hfields : isDragging (onPointerMove e s) = false
                      /\ lastPointer (onPointerMove e s) = (clientX e, clientY e)).
    { unfold onPointerMove. rewrite Hv, Hseek, Hpinch, Hnear. cbn.
      repeat case_match; cbn; split; auto. }
    destruct Hfields as (H4 & H5).
    apply IH.
    + rewrite Fv. exact Hv.
    + rewrite Fs. exact Hseek.
    + unfold pinching. rewrite Fp. exact Hpinch.
    + exact H4.
    + rewrite H5. exact Hg.
Qed.

(** X5.  The drag threshold is measured from one pointer event to the
    next, not from where the pointer went down: after any number of moves
    of at most 5 pixels each, however far they lead in total, the
    pointer-up is still a click. *)
Theorem gentle_drag_is_a_click (now : Z) (el : option Element)
    (es : list PointerEvent) (s : AppState) :
  view s = player -> isSeeking s = false -> pinching s = false ->
  isDragging s = false -> gentle (lastPointer s) es ->
  let s' := run s (List.map PointerMove es) in
  onPointerUp now el s' = set_isDragging false (handleScreenClick now el s').
Proof.
  intros Hv Hseek Hpinch Hd Hg s'.
  destruct (gentle_moves es s Hv Hseek Hpinch Hd Hg) as (H1 & H2 & H3 & H4).
  fold s' in H1, H2, H3, H4.
  unfold onPointerUp. rewrite H1, H2, H3, H4. reflexivity.
Qed.

(** Three moves of 5 pixels in touch mode turn the view by 3 degrees and
    the pointer-up still scores the note under the probe. *)
Lemma gentle_drag_is_a_click_witness :
  let s := startPlay (touchConfig FREE) in
  let es := [dragTo 5 0; dragTo 10 0; dragTo 15 0] in
  gentle (lastPointer s) es
  /\ rot_y (activeRotation (run s (List.map PointerMove es))) == 3
  /\ score (gameStats (onPointerUp 9 (Some (noteEl "n1"))
                         (run s (List.map PointerMove es)))) = 100%Z.
Proof.
  intros s es.
  assert (Hg : gentle (lastPointer s) es).
  { cbn. repeat split; vm_compute; discriminate. }
  split; [exact Hg|]. split; [vm_compute; reflexivity|].
  rewrite (gentle_drag_is_a_click 9 (Some (noteEl "n1")) es s
             eq_refl eq_refl eq_refl eq_refl Hg).
  reflexivity.
Defined.

End ClickOrDrag.

(** ** The dwell ring *)

Section DwellRing.

Lemma step_dwellInv (t : Z) (s : AppState) (ev : Event) :
  DwellInv t s ->
  (forall now, eventTime ev = Some now -> (t <= now)%Z) ->
  DwellInv (match eventTime ev with Some now => now | None => t end) (step s ev).
Proof.
  intros [Hp Hc Hl Hh Hi Hw] Hnow.
  assert (Hd : forall now, (t <= now)%Z ->
            0 <= dwellOf (now - lastHoverTime s)
            /\ dwellOf (now - lastHoverTime s) <= 1).
  { intros now Hle.
    destruct (dwellOf_spec (now - lastHoverTime s)) as (H0 & H1 & _); [lia|].
    auto. }
  destruct ev as [e l|e|e|now el|now el|d| | |now|p|p|]; cbn [eventTime];
    try specialize (Hnow _ eq_refl);
    try (destruct (Hd now Hnow) as [Hd0 Hd1]);
    handler_cases; split; cbn;
    try assumption; try lia; try lra; try congruence;
    try (intros _; reflexivity).
  all: repeat match goal with
         | H : (if String.eqb ?a "" then None else Some ?a) = Some _ |- _ =>
             destruct (String.eqb_spec a ""); [discriminate H | injection H as <-]
         | H : negb (bool_decide _) = false |- _ =>
             apply negb_false_iff, bool_decide_eq_true in H
         end; try congruence.
Qed.

Lemma run_dwellInv (evs : list Event) (t : Z) (s : AppState) :
  DwellInv t s -> chronological t evs ->
  exists t', DwellInv t' (run s evs).
Proof.
  revert t s. induction evs as [|ev evs IH]; intros t s Hs Hch.
  - exists t. exact Hs.
  - change (run s (ev :: evs)) with (run (step s ev) evs).
    cbn in Hch.
    pose proof (step_dwellInv t s ev Hs) as Hstep.
    destruct (eventTime ev) as [now|].
    + destruct Hch as [Hle Hch].
      apply (IH now (step s ev)); [|exact Hch].
      apply Hstep. intros n [= <-]. exact Hle.
    + apply (IH t (step s ev)); [|exact Hch].
      apply Hstep. discriminate.
Qed.

(** X6.  With a clock that never runs backwards, dwell progress stays in
    [0, 1] through a whole session and is 0 whenever no word is hovered;
    so the dash offset of the reticle ring stays between 0 (full ring) and
    the circumference (empty ring), and the ring is empty whenever the
    reticle is not in its hovering state. *)
Theorem dwell_ring_in_range (config : PlayerConfig) (evs : list Event)
    (circumference : Q) :
  chronological 0 evs -> 0 <= circumference ->
  let s := run (startPlay config) evs in
  0 <= dwellProgress s /\ dwellProgress s <= 1
  /\ 0 <= Reticle.offset circumference (dwellProgress s)
  /\ Reticle.offset circumference (dwellProgress s) <= circumference
  /\ (Reticle.isHovering s = false ->
      Reticle.offset circumference (dwellProgress s) == circumference).
Proof.
  intros Hch Hc s.
  assert (H0 : DwellInv 0 (startPlay config)).
  { split; cbn; try lia; try lra; [reflexivity | discriminate]. }
  destruct (run_dwellInv evs 0 (startPlay config) H0 Hch)
    as (t' & [_ _ Hl Hh Hi Hw]).
  fold s in Hl, Hh, Hi, Hw.
  unfold Reticle.offset.
  split; [exact Hl|]. split; [exact Hh|].
  split; [nra|]. split; [nra|].
  intros Hhov. unfold Reticle.isHovering in Hhov.
  destruct (hoveredWord s) as [w|] eqn:Ew.
  - exfalso. cbn in Hhov. destruct (String.eqb_spec w ""); [|discriminate].
    subst w. contradiction.
  - rewrite (Hi eq_refl). lra.
Qed.

(** The theorem on a session with a half-finished dwell. *)
Lemma dwell_ring_in_range_witness :
  let evs := [GazeTick 1000 (Some (wordEl "cat" "a cat"));
              GazeTick 1600 (Some (wordEl "cat" "a cat"))] in
  chronological 0 evs /\ 0 <= 53
  /\ dwellProgress (run (startPlay stereoConfig) evs) == 1 # 2
  /\ Reticle.offset 53 (dwellProgress (run (startPlay stereoConfig) evs)) <= 53.
Proof.
  intros evs.
  assert (Hch : chronological 0 evs) by (cbn; lia).
  assert (Hc : 0 <= 53) by lra.
  destruct (dwell_ring_in_range stereoConfig evs 53 Hch Hc) as (_ & _ & _ & Hup & _).
  split; [exact Hch|]. split; [exact Hc|]. split; [vm_compute; reflexivity|].
  exact Hup.
Defined.

End DwellRing.

(** ** The note track *)

Section Track.

Import Spawner.

Lemma keep_moved (hit : gset string) (n : GameNote) :
  keep (moveNote hit n) = true ->
  note_z n + SPEED < DESPAWN_Z /\ isHit n = false /\ note_id n ∉ hit.
Proof.
  unfold keep, moveNote. cbn. rewrite andb_true_iff, ltb_true, negb_true_iff.
  intros [Hz Hh]. destruct (decide (note_id n ∈ hit)); [discriminate|].
  auto.
Qed.

(** X7.  After every frame while playing, each note handed to the
    renderer is before the despawn depth, is not marked hit, and its id is
    not in the consumed set: a note consumed by a click or a gaze tick is
    gone from the track at the next frame. *)
Theorem published_notes_are_live (hit : gset string) (f : Frame) (g : GameLoop) :
  let g' := updateGame true hit f g in
  notes g' = notesRef g'
  /\ Forall (fun n => note_z n < DESPAWN_Z /\ isHit n = false
                      /\ note_id n ∉ hit) (notes g').
Proof.
  cbn zeta. unfold updateGame, movePhase. cbn. split; [reflexivity|].
  apply List.Forall_forall. intros n Hin.
  apply List.filter_In in Hin. destruct Hin as [Hin Hk].
  apply List.in_map_iff in Hin. destruct Hin as (n0 & <- & _).
  destruct (keep_moved hit n0 Hk) as (Hz & Hh & Hid).
  unfold moveNote; cbn.
  destruct (decide (note_id n0 ∈ hit)); [contradiction|]. auto.
Qed.

Lemma spaced_app (zs : list Q) (x : Q) :
  spaced zs -> Forall (fun z => x + 400 <= z) zs -> spaced (zs ++ [x]).
Proof.
  induction zs as [|z zs IH]; intros Hs Hall; cbn.
  - split; [constructor | exact I].
  - destruct Hs as [Hz Hs]. inversion Hall as [|? ? Hx Hall']; subst.
    split.
    + apply List.Forall_app. split; [exact Hz|]. constructor; [exact Hx|constructor].
    + apply IH; assumption.
Qed.

Lemma spaced_move (hit : gset string) (l : list GameNote) :
  spaced (List.map note_z l) ->
  spaced (List.map note_z (List.filter keep (List.map (moveNote hit) l))).
Proof.
  induction l as [|n l IH]; intros Hs; cbn; [exact I|].
  cbn in Hs. destruct Hs as [Hz Hs].
  destruct (keep (moveNote hit n)); [|apply IH; exact Hs].
  cbn. split; [|apply IH; exact Hs].
  apply List.Forall_forall. intros z' Hin.
  apply List.in_map_iff in Hin. destruct Hin as (m & <- & Hin).
  apply List.filter_In in Hin. destruct Hin as [Hin _].
  apply List.in_map_iff in Hin. destruct Hin as (m0 & <- & Hin0).
  rewrite List.Forall_forall in Hz.
  assert (H := Hz (note_z m0) (List.in_map note_z l m0 Hin0)).
  cbn. unfold SPEED. lra.
Qed.

Lemma updateGame_inv (playing : bool) (hit : gset string) (f : Frame)
    (g : GameLoop) :
  TrackInv g -> TrackInv (updateGame playing hit f g).
Proof.
  intros [Hf Hs Hd Hp]. unfold updateGame.
  destruct playing; cbn [negb]; [|split; assumption].
  set (g1 := {| notesRef := notesRef g; lastBeatFrame := lastBeatFrame g;
                frameCount := (frameCount g + 1)%Z; notes := notes g |}).
  destruct (spawnPhase_cases f g1) as [(data & _ & Hbeat & ->)|[_ ->]].
  - apply beat_iff in Hbeat. destruct Hbeat as (_ & _ & _ & Hcool).
    cbn in Hcool. unfold COOLDOWN_FRAMES in Hcool.
    assert (Hold : Forall (fun n => -600 <= note_z n) (notesRef g)).
    { eapply List.Forall_impl; [|exact Hd]. cbn. intros n [Hlo _].
      eapply Qle_trans; [|exact Hlo].
      change (-600) with (inject_Z (-600)). rewrite <- Zle_Qle. lia. }
    unfold movePhase. cbn. split; cbn.
    + lia.
    + apply spaced_move. rewrite List.map_app. cbn.
      apply spaced_app; [exact Hs|].
      apply List.Forall_forall. intros z Hin.
      apply List.in_map_iff in Hin. destruct Hin as (n & <- & Hin).
      rewrite List.Forall_forall in Hold. specialize (Hold n Hin).
      unfold SPAWN_Z. lra.
    + apply List.Forall_forall. intros n Hin.
      apply List.filter_In in Hin. destruct Hin as [Hin Hk].
      apply List.in_map_iff in Hin. destruct Hin as (n0 & <- & Hin).
      destruct (keep_moved hit n0 Hk) as (Hz & _ & _).
      cbn. split; [|exact Hz].
      replace (frameCount g + 1 - (frameCount g + 1))%Z with 0%Z by lia.
      change (inject_Z (-975 + 25 * 0)) with (-975).
      apply List.in_app_or in Hin. destruct Hin as [Hin|[<-|[]]].
      * rewrite List.Forall_forall in Hold. specialize (Hold n0 Hin).
        unfold SPEED. lra.
      * cbn. unfold SPAWN_Z, SPEED. lra.
    + reflexivity.
  - unfold movePhase. cbn. split; cbn.
    + lia.
    + apply spaced_move. exact Hs.
    + apply List.Forall_forall. intros n Hin.
      apply List.filter_In in Hin. destruct Hin as [Hin Hk].
      apply List.in_map_iff in Hin. destruct Hin as (n0 & <- & Hin).
      destruct (keep_moved hit n0 Hk) as (Hz & _ & _).
      cbn. split; [|exact Hz].
      rewrite List.Forall_forall in Hd. destruct (Hd n0 Hin) as [Hlo _].
      replace (-975 + 25 * (frameCount g + 1 - lastBeatFrame g))%Z
        with ((-975 + 25 * (frameCount g - lastBeatFrame g)) + 25)%Z by lia.
      rewrite inject_Z_plus. change (inject_Z 25) with 25.
      unfold SPEED. lra.
    + reflexivity.
Qed.

Lemma play_inv (inputs : list (bool * gset string * Frame)) (g : GameLoop) :
  TrackInv g -> TrackInv (play g inputs).
Proof.
  revert g. induction inputs as [|i inputs IH]; intros g Hg; [exact Hg|].
  apply IH. apply updateGame_inv. exact Hg.
Qed.

Lemma spaced_short (zs : list Q) :
  spaced zs -> Forall (fun z => -975 <= z /\ z < 100) zs ->
  (length zs <= 3)%nat.
Proof.
  intros Hs Hall.
  destruct zs as [|z1 [|z2 [|z3 [|z4 rest]]]]; cbn; try lia.
  exfalso. cbn in Hs.
  destruct Hs as (H1 & (H2 & (H3 & _))).
  inversion Hall as [|? ? [_ Hz1] _]; subst.
  rewrite List.Forall_forall in Hall.
  assert (Hz4 : -975 <= z4) by (apply Hall; cbn; auto).
  inversion H1 as [|? ? H12 _]; subst.
  inversion H2 as [|? ? H23 _]; subst.
  inversion H3 as [|? ? H34 _]; subst.
  lra.
Qed.

(** X8.  Whatever the audio, the playing flags and the consumed sets of
    the frames, the track never holds more than three notes: every live
    note has a depth between -975 and 100, and any two live notes are at
    least 400 apart (16 frames of cooldown at 25 per frame). *)
Theorem at_most_three_live_notes
    (inputs : list (bool * gset string * Frame)) :
  let g := play initial inputs in
  (length (notes g) <= 3)%nat
  /\ Forall (fun n => -975 <= note_z n /\ note_z n < 100) (notes g)
  /\ spaced (List.map note_z (notes g)).
Proof.
  intros g.
  assert (H0 : TrackInv initial).
  { split; cbn; [lia | exact I | constructor | reflexivity]. }
  destruct (play_inv inputs initial H0) as [Hf Hs Hd Hp]. fold g in Hf, Hs, Hd, Hp.
  assert (Hrange : Forall (fun n => -975 <= note_z n /\ note_z n < 100) (notesRef g)).
  { eapply List.Forall_impl; [|exact Hd]. cbn. intros n [Hlo Hhi].
    split; [|exact Hhi].
    eapply Qle_trans; [|exact Hlo].
    change (-975) with (inject_Z (-975)). rewrite <- Zle_Qle. lia. }
  rewrite Hp. split; [|split; [exact Hrange | exact Hs]].
  rewrite <- (List.length_map note_z).
  apply spaced_short; [exact Hs|].
  apply List.Forall_forall. intros z Hin.
  apply List.in_map_iff in Hin. destruct Hin as (n & <- & Hin).
  rewrite List.Forall_forall in Hrange. exact (Hrange n Hin).
Qed.

(** A track driven by 120 loud frames holds exactly three notes. *)
Example three_notes_are_reached :
  length (notes (frames initial (List.repeat (flatFrame 255) 120))) = 3%nat.
Proof. vm_compute. reflexivity. Qed.

End Track.

(** ** The translation answer and the dwell *)

Section Translation.

Import Gemini.

Lemma dwell_blocked (el : Element) (w : string) (sent : option string)
    (d : WordDefinition) (ts : list Z) (s : AppState) :
  wordElement el = Some (w, sent) -> w <> ""%string ->
  definition s = Some d -> def_word d = w ->
  lookups (log (dwell el s ts)) = lookups (log s)
  /\ definition (dwell el s ts) = Some d.
Proof.
  intros Hw Hne. revert s. induction ts as [|t ts IH]; intros s Hd Hdw;
    [split; [reflexivity | exact Hd]|].
  change (dwell el s (t :: ts)) with (dwell el (checkGaze t (Some el) s) ts).
  set (s' := checkGaze t (Some el) s).
  assert (Hns : notShownFor w s = false).
  { unfold notShownFor. rewrite Hd, Hdw, String.eqb_refl. reflexivity. }
  assert (E : h_definition (hoverOf s') = definition s
              /\ h_lookups (hoverOf s') = lookups (log s)).
  { destruct (gaze_word_tick t el w sent s Hw Hne)
      as [(_ & E)|[(_ & _ & E)|[(_ & _ & Hf & _)|(_ & _ & _ & E)]]];
      try (fold s' in E; rewrite E; split; reflexivity).
    apply fires_iff in Hf. destruct Hf as (_ & _ & Hf). congruence. }
  destruct E as [E1 E2]. cbn [hoverOf h_definition h_lookups] in E1, E2.
  destruct (IH s') as [IH1 IH2]; [rewrite E1; exact Hd | exact Hdw |].
  split; [rewrite IH1; exact E2 | exact IH2].
Qed.

(** X9.  Whatever becomes of the request - rejected, empty, malformed or
    answered - [translateWord] hands back a definition of the very word
    that was asked, and its translation is "Error" in the three failure
    cases.  Hence, once the answer for [w] is on display, no dwell on [w],
    however long, requests a lookup again. *)
Theorem answer_blocks_repeated_dwell (w sentence : string) (o : Outcome)
    (el : Element) (sent : option string) (ts : list Z) (s : AppState) :
  wordElement el = Some (w, sent) -> w <> ""%string ->
  let a := translateWord w sentence o in
  let s1 := translateDone (asDefinition a) s in
  a_word a = w
  /\ ((forall t p ty c, o <> Parsed t p ty c) ->
      a_translation a = Some "Error"%string)
  /\ isTranslating s1 = false
  /\ lookups (log (dwell el s1 ts)) = lookups (log s1)
  /\ definition (dwell el s1 ts) = Some (asDefinition a).
Proof.
  intros Hw Hne a s1.
  assert (Ha : a_word a = w) by (subst a; destruct o; reflexivity).
  split; [exact Ha|]. split.
  - intros Hfail. subst a. destruct o; try reflexivity.
    exfalso. eapply Hfail. reflexivity.
  - split; [reflexivity|].
    apply (dwell_blocked el w sent (asDefinition a) ts s1 Hw Hne);
      [reflexivity | exact Ha].
Qed.

(** A failed lookup of "cat", then four seconds of dwell on "cat". *)
Lemma answer_blocks_repeated_dwell_witness :
  let s := handleTranslate "cat" "a cat" (startPlay stereoConfig) in
  let s1 := translateDone (asDefinition (translateWord "cat" "a cat" Rejected)) s in
  wordElement (wordEl "cat" "a cat") = Some ("cat"%string, Some "a cat"%string)
  /\ "cat"%string <> ""%string
  /\ lookups (log (dwell (wordEl "cat" "a cat") s1 [1000; 2200; 5000]%Z))
     = [("cat"%string, "a cat"%string)].
Proof.
  intros s s1.
  assert (Hw : wordElement (wordEl "cat" "a cat")
               = Some ("cat"%string, Some "a cat"%string)) by reflexivity.
  assert (Hne : "cat"%string <> ""%string) by discriminate.
  destruct (answer_blocks_repeated_dwell "cat" "a cat" Rejected
              (wordEl "cat" "a cat") (Some "a cat"%string)
              [1000; 2200; 5000]%Z s Hw Hne) as (_ & _ & _ & Hl & _).
  split; [exact Hw|]. split; [exact Hne|].
  etransitivity; [exact Hl | reflexivity].
Defined.

End Translation.

(** ** Tokens without letters and the close button *)

Section Tokens.

Import Subtitles.

Lemma cleanWord_spec (word : string) :
  list_ascii_of_string (cleanWord word)
  = List.filter (fun c => negb (isPunctuation c)) (list_ascii_of_string word).
Proof.
  induction word as [|c rest IH]; [reflexivity|].
  cbn [cleanWord list_ascii_of_string List.filter].
  destruct (isPunctuation c); cbn [negb list_ascii_of_string];
    [exact IH | rewrite IH; reflexivity].
Qed.

Lemma cleanWord_empty (word : string) :
  cleanWord word = ""%string <->
  Forall (fun c => isPunctuation c = true) (list_ascii_of_string word).
Proof.
  induction word as [|c rest IH]; cbn [cleanWord list_ascii_of_string].
  - split; [constructor | reflexivity].
  - destruct (isPunctuation c) eqn:E.
    + rewrite IH. split.
      * intros H. constructor; assumption.
      * intros H. inversion H; assumption.
    + split; [discriminate|]. intros H. inversion H; congruence.
Qed.

(** X10.  A subtitle token made of punctuation only carries an empty
    [data-word].  A gaze tick on it changes none of the hover cells - the
    hover on the word before it is not reset and its clock keeps running -
    while a click on it, with nothing pending or on display and rhythm
    mode off, requests the lookup of the empty word. *)
Theorem punctuation_token (word sentence : string) (now : Z) (s : AppState) :
  Forall (fun c => isPunctuation c = true) (list_ascii_of_string word) ->
  cleanWord word = ""%string
  /\ hoverOf (checkGaze now (Some (tokenEl word sentence)) s) = hoverOf s
  /\ (isCalibrationMode s = false -> isTranslating s = false ->
      definition s = None -> isGameMode (playerConfig s) = false ->
      lookups (log (handleScreenClick now (Some (tokenEl word sentence)) s))
      = (""%string, sentence) :: lookups (log s)).
Proof.
  intros Hall.
  assert (Hc : cleanWord word = ""%string) by (apply cleanWord_empty; exact Hall).
  split; [exact Hc|]. split.
  - destruct (checkGaze_gazeWord now (tokenEl word sentence) s)
      as (s1 & -> & Hsame).
    unfold gazeWord, tokenEl. cbn. rewrite Hc. cbn.
    apply sameHover_hoverOf. exact Hsame.
  - intros Hcal Htr Hd Hg.
    unfold handleScreenClick, tokenEl. rewrite Hcal. cbn. rewrite Hc. cbn.
    rewrite Htr, Hd, Hg. cbn. reflexivity.
Qed.

(** A dwell on "cat" interrupted by a tick on the dash that follows it
    still completes 1200 ms after it began. *)
Lemma punctuation_token_witness :
  let s := checkGaze 1000 (Some (wordEl "cat" "cat - dog")) (startPlay stereoConfig) in
  Forall (fun c => isPunctuation c = true) (list_ascii_of_string "-")
  /\ hoverOf (checkGaze 1500 (Some (tokenEl "-" "cat - dog")) s) = hoverOf s
  /\ lookups (log (checkGaze 2200 (Some (wordEl "cat" "cat - dog"))
                     (checkGaze 1500 (Some (tokenEl "-" "cat - dog")) s)))
     = [("cat"%string, "cat - dog"%string)].
Proof.
  intros s.
  assert (Hall : Forall (fun c => isPunctuation c = true) (list_ascii_of_string "-"))
    by (repeat constructor).
  destruct (punctuation_token "-" "cat - dog" 1500 s Hall) as (_ & Hh & _).
  split; [exact Hall|]. split; [exact Hh|]. reflexivity.
Defined.

(** X11.  The gaze path has no case for the close button.  With a
    definition on display, a dwell of 1200 ms on the button does not close
    the panel: it requests the lookup of the word "close-btn" and leaves
    the definition where it is.  A click on the button closes the panel
    and requests nothing. *)
Theorem dwell_on_close_button (s : AppState) (d : WordDefinition) (t0 t : Z) :
  definition s = Some d -> def_word d <> "close-btn"%string ->
  isTranslating s = false -> hoveredWord s <> Some "close-btn"%string ->
  (0 < t0)%Z -> (DWELL_TIME_MS <= t - t0)%Z ->
  let s' := dwell closeButtonEl s [t0; t] in
  lookups (log s') = ("close-btn"%string, ""%string) :: lookups (log s)
  /\ definition s' = Some d
  /\ (isCalibrationMode s = false ->
      definition (handleScreenClick t (Some closeButtonEl) s) = None
      /\ lookups (log (handleScreenClick t (Some closeButtonEl) s))
         = lookups (log s)).
Proof.
  intros Hd Hdw Htr Hh Ht0 Hel s'.
  assert (Hw : wordElement closeButtonEl = Some ("close-btn"%string, None))
    by reflexivity.
  assert (Hne : "close-btn"%string <> ""%string) by discriminate.
  assert (Hns : notShownFor "close-btn" s = true).
  { unfold notShownFor. rewrite Hd. apply negb_true_iff.
    apply String.eqb_neq. exact Hdw. }
  split; [|split].
  - subst s'.
    change (dwell closeButtonEl s [t0; t])
      with (dwell closeButtonEl (checkGaze t0 (Some closeButtonEl) s) [t]).
    set (s0 := checkGaze t0 (Some closeButtonEl) s).
    destruct (gaze_word_tick t0 closeButtonEl "close-btn" None s Hw Hne)
      as [(_ & E)|[(Hy & _)|[(Hy & _)|(Hy & _)]]];
      try (exfalso; apply Hh; exact Hy).
    fold s0 in E.
    assert (E1 : hoveredWord s0 = Some "close-btn"%string)
      by (change (h_word (hoverOf s0) = Some "close-btn"%string); rewrite E; reflexivity).
    assert (E2 : lastHoverTime s0 = t0)
      by (change (h_since (hoverOf s0) = t0); rewrite E; reflexivity).
    assert (E3 : isTranslating s0 = false)
      by (change (h_translating (hoverOf s0) = false); rewrite E; exact Htr).
    assert (E4 : definition s0 = definition s)
      by (change (h_definition (hoverOf s0) = definition s); rewrite E; reflexivity).
    assert (E5 : lookups (log s0) = lookups (log s))
      by (change (h_lookups (hoverOf s0) = lookups (log s)); rewrite E; reflexivity).
    rewrite <- E5.
    apply (dwell_fires closeButtonEl "close-btn" None Hw Hne [t] s0 t); auto.
    + rewrite E2. exact Ht0.
    + rewrite (notShownFor_same "close-btn" s s0 E4). exact Hns.
    + left. reflexivity.
    + rewrite E2. exact Hel.
  - subst s'. cbn [dwell fold_left].
    rewrite !checkGaze_definition. exact Hd.
  - intros Hcal. unfold handleScreenClick, closeButtonEl. rewrite Hcal. cbn.
    split; reflexivity.
Qed.

(** The theorem with the definition of "cat" on display. *)
Lemma dwell_on_close_button_witness :
  definition catShown = Some catDef
  /\ lookups (log (dwell closeButtonEl catShown [3000; 4200]%Z))
     = ("close-btn"%string, ""%string) :: lookups (log catShown)
  /\ definition (dwell closeButtonEl catShown [3000; 4200]%Z) = Some catDef.
Proof.
  assert (Hd : definition catShown = Some catDef) by reflexivity.
  destruct (dwell_on_close_button catShown catDef 3000 4200 Hd)
    as (Hl & Hdef & _);
    try reflexivity; try discriminate; try (unfold DWELL_TIME_MS; lia).
  split; [exact Hd|]. split; [exact Hl | exact Hdef].
Defined.

End Tokens.

(** ** Entering and leaving the player *)

Section Sessions.




Lemma handleStartPlay_inv (c : bool) (cfg : PlayerConfig) (s : AppState) :
  FusionInv s -> FusionInv (handleStartPlay c cfg s).
Proof.
  intros [_ Ir _ _]. split; cbn.
  - discriminate.
  - exact Ir.
  - unfold yawClosed; cbn; lra.
  - unfold pitchClamped; cbn; lra.
Qed.

Lemma mounted_inv : FusionInv mounted.
Proof.
  split; cbn; try discriminate; unfold yawClosed, pitchClamped; cbn; lra.
Qed.

Lemma visit_inv (s : AppState) (v : Visit) :
  visitInRange v -> FusionInv s -> FusionInv (visit s v).
Proof.
  intros Hv Hs. unfold visit.
  pose proof (run_inv (snd v) _ Hv
                (handleStartPlay_inv (fst (fst v)) (snd (fst v)) s Hs))
    as [Ib Ir Iy Ip].
  split; assumption.
Qed.

Lemma visits_inv (vs : list Visit) (s : AppState) :
  Forall visitInRange vs -> FusionInv s -> FusionInv (visits s vs).
Proof.
  revert s. induction vs as [|v vs IH]; intros s Hall Hs; [exact Hs|].
  inversion Hall as [|? ? Hv Hrest]; subst.
  change (visits s (v :: vs)) with (visits (visit s v) vs).
  apply IH; [exact Hrest|]. apply visit_inv; assumption.
Qed.

(** X13.  The range of the fused rotation holds through the whole life of
    the mounted component: after any number of visits of the player, each
    started by [handleStartPlay] and left by [handleExit], the next visit
    keeps yaw in [-180, 180] and pitch in [-80, 80], although the last raw
    sample, the hover cells and the pinch distance are carried over from
    one visit to the next. *)
Theorem fusion_range_across_visits (vs : list Visit) (c : bool)
    (cfg : PlayerConfig) (evs : list Event) :
  Forall visitInRange vs ->
  Forall sampleInRange evs ->
  let s := run (handleStartPlay c cfg (visits mounted vs)) evs in
  yawClosed (headRotation s) /\ pitchClamped (headRotation s)
  /\ (forall b, baseRotation s = Some b -> sensorRange (alpha b)).
Proof.
  intros Hvs Hevs s.
  assert (H : FusionInv s).
  { apply run_inv; [exact Hevs|]. apply handleStartPlay_inv.
    apply visits_inv; [exact Hvs | exact mounted_inv]. }
  destruct H as [Ib _ Iy Ip]. auto.
Qed.

(** The theorem on a second visit that is recentred before its first
    sample, so that the base is the last sample of the first visit. *)
Lemma fusion_range_across_visits_witness :
  let vs := [(true, sensorConfig, [sample 350 10 0])] in
  let evs := [KeyR; PointerUp 0 None; sample 10 0 0] in
  Forall visitInRange vs /\ Forall sampleInRange evs
  /\ yawClosed
       (headRotation (run (handleStartPlay true sensorConfig (visits mounted vs)) evs))
  /\ rot_y (headRotation
              (run (handleStartPlay true sensorConfig (visits mounted vs)) evs))
     == 20.
Proof.
  intros vs evs.
  assert (Hrange : forall a : Q, 0 <= a -> a < 360 ->
            forall ev, ev = sample a 0 0 \/ ev = sample a 10 0 -> sampleInRange ev).
  { intros a H0 H1 ev [->| ->]; cbn; intros a' [= <-]; split; assumption. }
  assert (Hevs : Forall sampleInRange evs).
  { subst evs.
    apply List.Forall_cons; [exact I|].
    apply List.Forall_cons; [exact I|].
    apply List.Forall_cons; [|apply List.Forall_nil].
    apply (Hrange 10); [lra | lra | left; reflexivity]. }
  assert (Hvs : Forall visitInRange vs).
  { subst vs. apply List.Forall_cons; [|apply List.Forall_nil].
    unfold visitInRange. cbn [snd].
    apply List.Forall_cons; [|apply List.Forall_nil].
    apply (Hrange 350); [lra | lra | right; reflexivity]. }
  split; [exact Hvs|]. split; [exact Hevs|].
  destruct (fusion_range_across_visits vs true sensorConfig evs Hvs Hevs)
    as (Hy & _).
  split; [exact Hy|]. vm_compute. reflexivity.
Defined.

Lemma pending_blocks_click (now : Z) (el : option Element) (s : AppState) :
  isTranslating s = true ->
  lookups (log (handleScreenClick now el s)) = lookups (log s).
Proof.
  intros Ht.
  destruct (click_lookup_cases now el s)
    as [H|(e & w & sn & _ & _ & _ & _ & _ & Hf & _)]; [exact H|].
  congruence.
Qed.

Lemma pending_blocks_gaze (now : Z) (el : option Element) (s : AppState) :
  isTranslating s = true ->
  lookups (log (gazeTick now el s)) = lookups (log s).
Proof.
  intros Ht. unfold gazeTick.
  destruct (view s); [reflexivity|].
  destruct (isCalibrationMode s || showSettingsOverlay s); [reflexivity|].
  destruct (gaze_lookup_cases now el s)
    as [H|(e & w & sn & _ & _ & _ & _ & _ & Hf & _)]; [exact H|].
  apply fires_iff in Hf. destruct Hf as (_ & Hf & _). congruence.
Qed.

(** X14.  Starting an item does not cancel a lookup that is still
    pending.  The new visit starts with no definition on display, but no
    click and no dwell can request a lookup in it until the old answer
    arrives, and that answer, for a word of the previous visit, is then
    put on display in the new one. *)
Theorem pending_lookup_survives_restart (s : AppState) (c : bool)
    (cfg : PlayerConfig) (d : WordDefinition) :
  isTranslating s = true ->
  let s' := handleStartPlay c cfg s in
  definition s' = None
  /\ isTranslating s' = true
  /\ (forall now el,
        lookups (log (handleScreenClick now el s')) = lookups (log s'))
  /\ (forall now el, lookups (log (gazeTick now el s')) = lookups (log s'))
  /\ definition (step s' (Translated d)) = Some d
  /\ isTranslating (step s' (Translated d)) = false.
Proof.
  intros Ht s'.
  assert (Ht' : isTranslating s' = true) by exact Ht.
  split; [reflexivity|]. split; [exact Ht'|].
  split; [intros now el; apply pending_blocks_click; exact Ht'|].
  split; [intros now el; apply pending_blocks_gaze; exact Ht'|].
  split; reflexivity.
Qed.

(** The theorem on a visit left right after a click on "cat". *)
Lemma pending_lookup_survives_restart_witness :
  let s := handleExit
             (run (startPlay sensorConfig)
                [PointerUp 10 (Some (wordEl "cat" "a cat"))]) in
  let s' := handleStartPlay true sensorConfig s in
  isTranslating s = true
  /\ lookups (log (handleScreenClick 500 (Some (wordEl "dog" "a dog")) s'))
     = lookups (log s')
  /\ definition (step s' (Translated catDef)) = Some catDef.
Proof.
  intros s s'.
  assert (Ht : isTranslating s = true) by reflexivity.
  destruct (pending_lookup_survives_restart s true sensorConfig catDef Ht)
    as (_ & _ & Hc & _ & Hd & _).
  split; [exact Ht|]. split; [apply Hc | exact Hd].
Defined.

(** X15.  The first start of an item opens the settings overlay, and while
    it is open the gaze interval does not run: whatever the ticks find
    under the probe, the state stays as it is, and the hover cells, which
    [handleStartPlay] does not reset, keep the word and the ring of the
    previous visit.  With the overlay closed the first tick that finds
    the probe off every word token, on no element or on an element
    outside every token, clears them (the latter for a state in which
    the ring is empty when no word is hovered and the hovered word is not
    empty, as in every state the handlers reach).  An item that was
    configured before starts with the overlay closed. *)
Theorem first_start_suspends_gaze (s : AppState) (cfg : PlayerConfig)
    (ticks : list (Z * option Element)) :
  let s' := handleStartPlay false cfg s in
  let evs := List.map (fun t => GazeTick (fst t) (snd t)) ticks in
  showSettingsOverlay s' = true
  /\ run s' evs = s'
  /\ hoveredWord (run s' evs) = hoveredWord s
  /\ dwellProgress (run s' evs) = dwellProgress s
  /\ showSettingsOverlay (handleStartPlay true cfg s) = false
  /\ (forall now,
        let s2 := gazeTick now None (set_showSettingsOverlay false s') in
        hoveredWord s2 = None /\ dwellProgress s2 = 0)
  /\ ((hoveredWord s = None -> dwellProgress s = 0) ->
      hoveredWord s <> Some ""%string ->
      forall now e, wordElement e = None ->
        let s2 := gazeTick now (Some e) (set_showSettingsOverlay false s') in
        hoveredWord s2 = None /\ dwellProgress s2 = 0).
Proof.
  intros s' evs.
  assert (Hrun : run s' evs = s').
  { subst evs. induction ticks as [|t ticks IH]; [reflexivity|].
    cbn [List.map].
    change (run s' (GazeTick (fst t) (snd t) :: ?l))
      with (run (step s' (GazeTick (fst t) (snd t))) l).
    change (step s' (GazeTick (fst t) (snd t))) with s'. exact IH. }
  split; [reflexivity|]. split; [exact Hrun|].
  rewrite Hrun.
  split; [reflexivity|]. split; [reflexivity|]. split; [reflexivity|].
  split; [intros now; split; reflexivity|].
  intros Hidle Hword now e Hnw s2. subst s2.
  change (gazeTick now (Some e) (set_showSettingsOverlay false s'))
    with (checkGaze now (Some e) (set_showSettingsOverlay false s')).
  destruct (checkGaze_gazeWord now e (set_showSettingsOverlay false s'))
    as (s1 & -> & (H1 & _ & H3 & _)).
  cbn in H1, H3. unfold gazeWord. rewrite Hnw.
  unfold Num.truthy. rewrite H1.
  destruct (hoveredWord s) as [x|] eqn:Hx.
  - destruct (String.eqb_spec x "") as [->|Hne];
      [exfalso; apply Hword; reflexivity|].
    split; reflexivity.
  - rewrite H1, H3. split; [reflexivity | apply Hidle; reflexivity].
Qed.

(** The theorem after a visit that was left half way through a dwell on
    "cat": the ring stays half full under the overlay, and the first tick
    on an element outside every token empties it once the overlay is
    closed. *)
Lemma first_start_suspends_gaze_witness :
  let cat := Some (wordEl "cat" "a cat") in
  let s := handleExit
             (run (startPlay stereoConfig) [GazeTick 1000 cat; GazeTick 1600 cat]) in
  let s' := handleStartPlay false stereoConfig s in
  hoveredWord s = Some "cat"%string
  /\ dwellProgress (run s' [GazeTick 5000 None; GazeTick 5050 cat]) == 1 # 2
  /\ dwellProgress
       (gazeTick 5000 (Some plainEl) (set_showSettingsOverlay false s')) = 0.
Proof.
  intros cat s s'.
  assert (Hh : hoveredWord s = Some "cat"%string) by reflexivity.
  destruct (first_start_suspends_gaze s stereoConfig [(5000%Z, None); (5050%Z, cat)])
    as (_ & _ & _ & Hring & _ & _ & Hoff).
  split; [exact Hh|]. split.
  - change (run s' [GazeTick 5000 None; GazeTick 5050 cat])
      with (run (handleStartPlay false stereoConfig s)
              (List.map (fun t => GazeTick (fst t) (snd t))
                 [(5000%Z, None); (5050%Z, cat)])).
    rewrite Hring. vm_compute. reflexivity.
  - apply Hoff.
    + intros H. rewrite Hh in H. discriminate H.
    + rewrite Hh. discriminate.
    + reflexivity.
Defined.

End Sessions.

(** ** Seeking, zoom and the clock display *)

Section PlaybackFacts.

Import Playback.

Lemma seekFraction_range (x left width : Q) :
  0 <= seekFraction x left width /\ seekFraction x left width <= 1.
Proof.
  unfold seekFraction.
  destruct (Q.max_spec 0 (Qmin 1 ((x - left) / width))) as [[H1 ->]|[H1 ->]];
    destruct (Q.min_spec 1 ((x - left) / width)) as [[H2 H3]|[H2 H3]];
    rewrite ?H3 in *; lra.
Qed.

Lemma seekFraction_inside (x left width : Q) :
  0 <= (x - left) / width <= 1 ->
  seekFraction x left width == (x - left) / width.
Proof.
  intros [H0 H1]. unfold seekFraction.
  destruct (Q.min_spec 1 ((x - left) / width)) as [[H2 H3]|[H2 H3]];
    destruct (Q.max_spec 0 (Qmin 1 ((x - left) / width))) as [[H4 H5]|[H4 H5]];
    rewrite H5; rewrite ?H3 in *; lra.
Qed.

Lemma seekFraction_left (x left width : Q) :
  (x - left) / width <= 0 -> seekFraction x left width == 0.
Proof.
  intros H0. unfold seekFraction.
  destruct (Q.min_spec 1 ((x - left) / width)) as [[H2 H3]|[H2 H3]];
    destruct (Q.max_spec 0 (Qmin 1 ((x - left) / width))) as [[H4 H5]|[H4 H5]];
    rewrite H5; rewrite ?H3 in *; lra.
Qed.

Lemma seekFraction_right (x left width : Q) :
  1 <= (x - left) / width -> seekFraction x left width == 1.
Proof.
  intros H0. unfold seekFraction.
  destruct (Q.min_spec 1 ((x - left) / width)) as [[H2 H3]|[H2 H3]];
    destruct (Q.max_spec 0 (Qmin 1 ((x - left) / width))) as [[H4 H5]|[H4 H5]];
    rewrite H5; rewrite ?H3 in *; lra.
Qed.

(** X16.  A press or a scrub on the progress bar seeks inside the medium:
    for a bar of positive width and a duration that is not negative the
    new time lies in [0, duration]; it is proportional to the pointer's
    offset on the bar, 0 for a pointer left of the bar and the full
    duration for a pointer right of it. *)
Theorem seek_within_duration (x left width duration : Q) :
  0 < width -> 0 <= duration ->
  let t := seekTime x left width duration in
  0 <= t /\ t <= duration
  /\ (x <= left -> t == 0)
  /\ (left + width <= x -> t == duration)
  /\ (left <= x -> x <= left + width ->
      t == (x - left) / width * duration).
Proof.
  intros Hw Hd t. subst t. unfold seekTime.
  pose proof (seekFraction_range x left width) as [H0 H1].
  assert (Hi : 0 < / width) by (apply Qinv_lt_0_compat; exact Hw).
  assert (Hq : (x - left) / width == (x - left) * / width) by reflexivity.
  assert (Hone : width * / width == 1) by (apply Qmult_inv_r; lra).
  repeat split.
  - nra.
  - nra.
  - intros Hx. rewrite seekFraction_left; [lra|]. rewrite Hq. nra.
  - intros Hx. rewrite seekFraction_right; [lra|]. rewrite Hq. nra.
  - intros Hl Hr. rewrite seekFraction_inside; [reflexivity|].
    rewrite Hq. split; nra.
Qed.

(** The theorem on a press at three quarters of a bar of 400 pixels. *)
Lemma seek_within_duration_witness :
  seekTime 350 50 400 120 == 90 /\ 0 <= seekTime 350 50 400 120
  /\ seekTime 350 50 400 120 <= 120.
Proof.
  assert (Hw : 0 < 400) by lra.
  assert (Hd : 0 <= 120) by lra.
  destruct (seek_within_duration 350 50 400 120 Hw Hd) as (H0 & H1 & _).
  split; [vm_compute; reflexivity|]. split; [exact H0 | exact H1].
Defined.

Lemma zoomUpdate_range (delta prev : Q) : zoomInRange (zoomUpdate delta prev).
Proof.
  unfold zoomInRange, zoomUpdate.
  destruct (Q.max_spec (1 # 2) (prev + delta * (1 # 100))) as [[H1 H2]|[H1 H2]];
    destruct (Q.min_spec 3 (Qmax (1 # 2) (prev + delta * (1 # 100))))
      as [[H3 H4]|[H3 H4]];
    rewrite H4; rewrite ?H2 in *; lra.
Qed.

Lemma zoomUpdate_inside (delta prev : Q) :
  zoomInRange (prev + delta * (1 # 100)) ->
  zoomUpdate delta prev == prev + delta * (1 # 100).
Proof.
  unfold zoomInRange, zoomUpdate. intros [H5 H6].
  destruct (Q.max_spec (1 # 2) (prev + delta * (1 # 100))) as [[H1 H2]|[H1 H2]];
    destruct (Q.min_spec 3 (Qmax (1 # 2) (prev + delta * (1 # 100))))
      as [[H3 H4]|[H3 H4]];
    rewrite H4; rewrite ?H2 in *; lra.
Qed.

Lemma touchStep_config (sz : AppState * Q) (t : Touch) :
  playerConfig (fst (touchStep sz t)) = playerConfig (fst sz).
Proof.
  destruct t as [p|p|]; cbn; unfold onTouchStart, onTouchMove, onTouchEnd;
    repeat case_match; reflexivity.
Qed.

Lemma touchStep_zoom (sz : AppState * Q) (t : Touch) :
  zoomInRange (snd sz) -> zoomInRange (snd (touchStep sz t)).
Proof.
  intros Hz. destruct t as [p|p|]; cbn; try exact Hz.
  unfold zoomOnTouchMove. repeat case_match; try exact Hz.
  apply zoomUpdate_range.
Qed.

Lemma touchStep_fixed (sz : AppState * Q) (t : Touch) :
  mode (playerConfig (fst sz)) <> MAGIC_WINDOW ->
  snd (touchStep sz t) = snd sz.
Proof.
  intros Hm. destruct t as [p|p|]; cbn; try reflexivity.
  unfold zoomOnTouchMove. repeat case_match; try reflexivity.
  contradiction.
Qed.

(** X17.  Pinching keeps the zoom factor between a half and three through
    any sequence of touch events, and changes it in the window mode only:
    in every other mode the factor stays what it was.  A move with two
    fingers during a pinch changes the factor by a hundredth of the change
    of the finger distance as long as the result stays in range. *)
Theorem pinch_zoom_range (s : AppState) (z : Q) (ts : list Touch) :
  zoomInRange z ->
  zoomInRange (snd (touchRun (s, z) ts))
  /\ (mode (playerConfig s) <> MAGIC_WINDOW -> snd (touchRun (s, z) ts) = z)
  /\ (forall dist lastDist,
        view s = player -> mode (playerConfig s) = MAGIC_WINDOW ->
        lastPinchDist s = Some lastDist -> ~ lastDist == 0 ->
        zoomInRange (z + (dist - lastDist) * (1 # 100)) ->
        zoomOnTouchMove (Some dist) s z == z + (dist - lastDist) * (1 # 100)).
Proof.
  intros Hz. split; [|split].
  - revert s z Hz. induction ts as [|t ts IH]; intros s z Hz; [exact Hz|].
    change (touchRun (s, z) (t :: ts)) with (touchRun (touchStep (s, z) t) ts).
    destruct (touchStep (s, z) t) as [s1 z1] eqn:E.
    apply IH. change z1 with (snd (s1, z1)). rewrite <- E.
    apply touchStep_zoom. exact Hz.
  - revert s z Hz. induction ts as [|t ts IH]; intros s z Hz Hm; [reflexivity|].
    change (touchRun (s, z) (t :: ts)) with (touchRun (touchStep (s, z) t) ts).
    pose proof (touchStep_config (s, z) t) as Hc.
    pose proof (touchStep_fixed (s, z) t Hm) as Hf.
    pose proof (touchStep_zoom (s, z) t Hz) as Hz1.
    destruct (touchStep (s, z) t) as [s1 z1]. cbn [fst snd] in *.
    rewrite (IH s1 z1 Hz1); [exact Hf|]. rewrite Hc. exact Hm.
  - intros dist lastDist Hv Hm Hl Hne Hin.
    unfold zoomOnTouchMove, pinching. rewrite Hv, Hl, Hm.
    destruct (Qeq_bool lastDist 0) eqn:E.
    + exfalso. apply Hne. apply Qeq_bool_eq. exact E.
    + cbn. apply zoomUpdate_inside. exact Hin.
Qed.

(** The theorem on a pinch that opens from 100 to 400 pixels and would
    take the factor from 1 to 4. *)
Lemma pinch_zoom_range_witness :
  let s := startPlay (touchConfig FREE) in
  let ts := [TStart (Some 100); TMove (Some 400); TEnd] in
  zoomInRange 1
  /\ zoomInRange (snd (touchRun (s, 1) ts))
  /\ snd (touchRun (s, 1) ts) == 3.
Proof.
  intros s ts.
  assert (Hz : zoomInRange 1) by (unfold zoomInRange; lra).
  destruct (pinch_zoom_range s 1 ts Hz) as (H & _).
  split; [exact Hz|]. split; [exact H|]. vm_compute. reflexivity.
Defined.

Lemma Qfloor_unique (q : Q) (n : Z) :
  inject_Z n <= q -> q < inject_Z (n + 1) -> Qfloor q = n.
Proof.
  intros H0 H1.
  pose proof (Qfloor_le q) as F0. pose proof (Qlt_floor q) as F1.
  assert (A : inject_Z n < inject_Z (Qfloor q + 1)) by lra.
  assert (B : inject_Z (Qfloor q) < inject_Z (n + 1)) by lra.
  rewrite <- Zlt_Qlt in A, B. lia.
Qed.

(** X18.  The clock of the control bar splits the whole seconds of the
    playback time into minutes and seconds: for a time that is not
    negative the seconds are between 0 and 59 and sixty times the minutes
    plus the seconds is the time rounded down.  The minutes are not
    reduced to hours. *)
Theorem clock_display (t : Q) :
  0 <= t ->
  (0 <= clockMinutes t)%Z
  /\ (0 <= clockSeconds t < 60)%Z
  /\ (60 * clockMinutes t + clockSeconds t = Qfloor t)%Z.
Proof.
  intros Ht. unfold clockMinutes, clockSeconds, rem.
  set (m := Qfloor (t / 60)).
  pose proof (Qfloor_le (t / 60)) as M0. pose proof (Qlt_floor (t / 60)) as M1.
  fold m in M0, M1.
  assert (Hq : t / 60 == t * (1 # 60)) by (unfold Qdiv; reflexivity).
  assert (Hpos : 0 <= t / 60) by (rewrite Hq; lra).
  assert (Hb : Qle_bool 0 (t / 60) = true) by (apply Qle_bool_iff; exact Hpos).
  rewrite Hb.
  assert (Hm : (0 <= m)%Z).
  { assert (A : inject_Z (-1) < inject_Z m).
    { rewrite inject_Z_plus in M1. change (inject_Z 1) with 1 in M1.
      change (inject_Z (-1)) with (-1). lra. }
    rewrite <- Zlt_Qlt in A. lia. }
  rewrite inject_Z_plus in M1. change (inject_Z 1) with 1 in M1.
  set (r := t - 60 * inject_Z m).
  assert (Hr : 0 <= r /\ r < 60) by (subst r; lra).
  pose proof (Qfloor_le r) as R0. pose proof (Qlt_floor r) as R1.
  rewrite inject_Z_plus in R1. change (inject_Z 1) with 1 in R1.
  set (k := Qfloor r) in *.
  assert (Hk : (0 <= k < 60)%Z).
  { assert (A : inject_Z (-1) < inject_Z k) by (change (inject_Z (-1)) with (-1); lra).
    assert (B : inject_Z k < inject_Z 60) by (change (inject_Z 60) with 60; lra).
    rewrite <- Zlt_Qlt in A, B. lia. }
  split; [exact Hm|]. split; [exact Hk|].
  symmetry. apply Qfloor_unique.
  - rewrite inject_Z_plus, inject_Z_mult. change (inject_Z 60) with 60.
    subst r. lra.
  - rewrite !inject_Z_plus, inject_Z_mult. change (inject_Z 60) with 60.
    change (inject_Z 1) with 1. subst r. lra.
Qed.

(** The theorem at one hour, two minutes and five and a half seconds. *)
Lemma clock_display_witness :
  clockMinutes (7451 # 2) = 62%Z /\ clockSeconds (7451 # 2) = 5%Z
  /\ (60 * clockMinutes (7451 # 2) + clockSeconds (7451 # 2)
      = Qfloor (7451 # 2))%Z.
Proof.
  assert (Ht : 0 <= 7451 # 2) by lra.
  destruct (clock_display (7451 # 2) Ht) as (_ & _ & H).
  split; [vm_compute; reflexivity|]. split; [vm_compute; reflexivity | exact H].
Defined.

End PlaybackFacts.

(** ** The cue on display *)

Section CueFacts.

Import Cues.

Lemma covers_iff (t : Q) (c : SubtitleCue) :
  covers t c = true <-> shownAt t c.
Proof.
  unfold covers, shownAt.
  destruct (startTime c) as [a|], (endTime c) as [b|]; cbn [andb].
  - rewrite andb_true_iff, geb_true, Qle_bool_iff. split.
    + intros [H1 H2]. exists a, b. auto.
    + intros (a' & b' & [= <-] & [= <-] & H1 & H2). auto.
  - rewrite andb_false_r. split; [discriminate|].
    intros (a' & b' & _ & H & _). discriminate.
  - split; [discriminate|]. intros (a' & b' & H & _). discriminate.
  - split; [discriminate|]. intros (a' & b' & H & _). discriminate.
Qed.

(** X19.  The cue on display is the first cue, in the order of the file,
    whose closed interval contains the playback time: both ends of the
    interval show the cue, of two overlapping cues the earlier one hides
    the later one, and nothing is shown exactly when no interval contains
    the time. *)
Theorem active_cue_is_first_covering (cues : list SubtitleCue) (t : Q) :
  match activeCue cues t with
  | Some c =>
      exists before after,
        cues = before ++ c :: after
        /\ shownAt t c
        /\ Forall (fun c' => ~ shownAt t c') before
  | None => Forall (fun c' => ~ shownAt t c') cues
  end.
Proof.
  unfold activeCue. induction cues as [|c cues IH]; cbn [List.find].
  - apply List.Forall_nil.
  - destruct (covers t c) eqn:E.
    + exists [], cues. split; [reflexivity|].
      split; [apply covers_iff; exact E | apply List.Forall_nil].
    + assert (Hn : ~ shownAt t c).
      { intros H. apply covers_iff in H. congruence. }
      destruct (List.find (covers t) cues) as [c1|].
      * destruct IH as (before & after & -> & Hs & Hb).
        exists (c :: before), after. split; [reflexivity|].
        split; [exact Hs | apply List.Forall_cons; assumption].
      * apply List.Forall_cons; assumption.
Qed.

(** Two overlapping cues at the instant the first ends and in the gap
    after the second. *)
Example overlapping_cues :
  let c1 := mkCue (text "1") (Some 1) (Some 4) (text "one") [text "one"] in
  let c2 := mkCue (text "2") (Some 3) (Some 6) (text "two") [text "two"] in
  activeCue [c1; c2] 4 = Some c1
  /\ activeCue [c1; c2] (9 # 2) = Some c2
  /\ activeCue [c1; c2] 7 = None.
Proof.
  cbn zeta. repeat split; reflexivity.
Qed.

End CueFacts.

(** ** The format dialog and the list of items *)

Section LibraryFacts.

Import Renderer Library.

(** X20.  The format dialog loses nothing: the controls set from a format
    give that format back, every setting of the controls gives the name
    of a member of the enumeration, although the panoramic names are
    built from pieces, and the readers of the format ([isVRVideo] of the
    eye view, the substring tests of the renderer) see what the controls
    show.  The degree control has no effect on a flat format. *)
Theorem format_dialog_round_trip (f : VideoFormat) (ui : FormatUI) :
  computeFormatFromUI (controlsOf f) = formatName f
  /\ computeFormatFromUI ui = formatName (asFormat ui)
  /\ isVRVideo (asFormat ui) = fmtIsVR ui
  /\ fmtStereo (controlsOf (asFormat ui)) = fmtStereo ui
  /\ (fmtIsVR ui = true -> fmtDegree (controlsOf (asFormat ui)) = fmtDegree ui)
  /\ (fmtIsVR ui = false ->
      forall d, computeFormatFromUI (mkUI false d (fmtStereo ui))
                = computeFormatFromUI ui).
Proof.
  split; [destruct f; reflexivity|].
  destruct ui as [[] [] []]; repeat split; try reflexivity;
    try discriminate; intros _ []; reflexivity.
Qed.

Lemma substring_tail (n : string) (m k : nat) (c : ascii) (s : string) :
  String.substring m (S k) n = String c s ->
  String.substring (S m) k n = s.
Proof.
  revert m. induction n as [|a n IH]; intros m H.
  - destruct m; discriminate.
  - destruct m as [|m].
    + cbn in H. injection H as _ H. cbn. exact H.
    + cbn in H. cbn. apply IH. exact H.
Qed.

(** A name that contains a string contains the string without its first
    character. *)
Lemma includes_tail (c : ascii) (s n : string) :
  s <> ""%string -> includes (String c s) n = true -> includes s n = true.
Proof.
  intros Hne. unfold includes.
  destruct (String.index 0 (String c s) n) as [m|] eqn:E; [intros _|discriminate].
  apply String.index_correct1 in E. cbn [String.length] in E.
  apply substring_tail in E.
  destruct (String.index 0 s n) eqn:E2; [reflexivity|].
  exfalso.
  apply (String.index_correct3 0 (S m) s n E2 Hne); [lia | exact E].
Qed.

(** X21.  What [detectFormat] reads from a file name, whatever the case of
    its letters: the name is panoramic exactly when it contains 180 or
    360, with 180 winning over 360; sbs or 3d makes it side by side, also
    when tb or ou occur as well; without those, tb or ou makes it top and
    bottom; and the dialog opened on the detected format saves that
    format when its controls are left alone. *)
Theorem detect_format_reading (name : string) :
  let n := toLowerCase name in
  let ui := controlsOf (detectFormat name) in
  fmtIsVR ui = includes "180" n || includes "360" n
  /\ (includes "180" n = true -> fmtDegree ui = deg180)
  /\ (includes "180" n = false -> includes "360" n = true ->
      fmtDegree ui = deg360)
  /\ (includes "sbs" n || includes "3d" n = true -> fmtStereo ui = SBS)
  /\ (includes "sbs" n || includes "3d" n = false ->
      includes "tb" n || includes "ou" n = true -> fmtStereo ui = TB)
  /\ computeFormatFromUI ui = formatName (detectFormat name).
Proof.
  intros n ui. subst ui. unfold detectFormat. fold n.
  assert (Hh : includes "hsbs" n = true -> includes "sbs" n = true)
    by (apply includes_tail; discriminate).
  destruct (includes "sbs" n), (includes "hsbs" n);
    try (specialize (Hh eq_refl); discriminate); clear Hh;
    destruct (includes "180" n), (includes "360" n),
      (includes "3d" n), (includes "tb" n), (includes "ou" n),
      (includes "top-bottom" n);
    cbn [orb]; repeat split; try reflexivity; intros; try discriminate;
    reflexivity.
Qed.

(** File names that are read by accident of their letters. *)
Example detect_format_accidents :
  detectFormat "House_Tour.mp4" = STEREO_TB
  /\ detectFormat "clip_360p.mp4" = VR360_MONO
  /\ detectFormat "VR180_Top-Bottom.mp4" = VR180_MONO
  /\ detectFormat "movie_TOP-BOTTOM.mkv" = STEREO_TB.
Proof.
  repeat split; reflexivity.
Qed.

Lemma sameId_iff (id : string) (item : LibraryItem) :
  sameId id item = true <-> item_id item = id.
Proof.
  unfold sameId. apply String.eqb_eq.
Qed.

Lemma existsb_ids (id : string) (items : list LibraryItem) :
  List.existsb (sameId id) items = true <-> In id (ids items).
Proof.
  unfold ids. rewrite List.existsb_exists, List.in_map_iff.
  split; intros (x & H1 & H2).
  - exists x. split; [apply sameId_iff; exact H2 | exact H1].
  - exists x. split; [exact H2 | apply sameId_iff; exact H1].
Qed.

Lemma map_keeps_ids (g : LibraryItem -> LibraryItem)
    (items : list LibraryItem) :
  (forall item, item_id (g item) = item_id item) ->
  ids (List.map g items) = ids items.
Proof.
  intros Hg. unfold ids. rewrite List.map_map.
  apply List.map_ext. exact Hg.
Qed.

Lemma subtitle_ids (blob id : string) (items : list LibraryItem) :
  ids (handleSubtitleUpload blob id items) = ids items.
Proof.
  apply map_keeps_ids. intros item. destruct (sameId id item); reflexivity.
Qed.

Lemma markConfigured_ids (item : LibraryItem) (items : list LibraryItem) :
  ids (markConfigured item items) = ids items.
Proof.
  unfold markConfigured. destruct (isConfigured item); [reflexivity|].
  apply map_keeps_ids. intros li. destruct (sameId (item_id item) li); reflexivity.
Qed.

Lemma delete_ids (id : string) (items : list LibraryItem) :
  ids (handleDeleteItem id items)
  = List.filter (fun i => negb (String.eqb i id)) (ids items).
Proof.
  unfold handleDeleteItem, ids.
  induction items as [|item items IH]; [reflexivity|].
  cbn [List.filter List.map]. unfold sameId at 1.
  destruct (String.eqb (item_id item) id); cbn [negb List.map];
    rewrite IH; reflexivity.
Qed.

Lemma NoDup_filter_string (p : string -> bool) (l : list string) :
  List.NoDup l -> List.NoDup (List.filter p l).
Proof.
  induction 1 as [|x l Hx Hl IH]; cbn [List.filter]; [constructor|].
  destruct (p x); [|exact IH].
  constructor; [|exact IH].
  intros Hin. apply List.filter_In in Hin. apply Hx, Hin.
Qed.

(** X22.  The ids of the library stay unique.  Deleting removes every
    item of the id and keeps the others in order; attaching subtitles,
    marking an item as configured and saving an item that is in the list
    keep the ids as they are; saving adds one id at the head, and keeps
    the ids unique when the clock gives the new network item an id that
    is not in use. *)
Theorem library_ids_stay_unique (items : list LibraryItem) (now : string)
    (d : Dialog) (id blob : string) (item : LibraryItem) :
  List.NoDup (ids items) ->
  (editingItem d = None -> ~ In now (ids items)) ->
  List.NoDup (ids (handleSaveEdit now d items))
  /\ List.NoDup (ids (handleDeleteItem id items))
  /\ ~ In id (ids (handleDeleteItem id items))
  /\ (forall i, i <> id -> In i (ids items) ->
      In i (ids (handleDeleteItem id items)))
  /\ ids (handleSubtitleUpload blob id items) = ids items
  /\ ids (markConfigured item items) = ids items
  /\ (forall e, editingItem d = Some e -> In (item_id e) (ids items) ->
      ids (handleSaveEdit now d items) = ids items).
Proof.
  intros Hnd Hfresh.
  assert (Hsave : forall e, editingItem d = Some e ->
            In (item_id e) (ids items) ->
            ids (handleSaveEdit now d items) = ids items).
  { intros e He Hin. unfold handleSaveEdit. rewrite He.
    apply existsb_ids in Hin. rewrite Hin.
    apply map_keeps_ids. intros it.
    destruct (sameId (item_id e) it); reflexivity. }
  split; [|split; [|split; [|split; [|split; [|split]]]]].
  - unfold handleSaveEdit. destruct (editingItem d) as [e|] eqn:He.
    + destruct (List.existsb (sameId (item_id e)) items) eqn:Hex.
      * rewrite map_keeps_ids; [exact Hnd|].
        intros it. destruct (sameId (item_id e) it); reflexivity.
      * cbn. constructor; [|exact Hnd].
        intros Hin. apply existsb_ids in Hin. congruence.
    + destruct (String.eqb (formUrl d) ""); [exact Hnd|].
      cbn. constructor; [|exact Hnd]. apply Hfresh. reflexivity.
  - rewrite delete_ids. apply NoDup_filter_string. exact Hnd.
  - rewrite delete_ids. intros Hin. apply List.filter_In in Hin.
    destruct Hin as [_ Hin]. rewrite String.eqb_refl in Hin. discriminate.
  - intros i Hne Hin. rewrite delete_ids. apply List.filter_In.
    split; [exact Hin|]. apply negb_true_iff, String.eqb_neq. exact Hne.
  - apply subtitle_ids.
  - apply markConfigured_ids.
  - exact Hsave.
Qed.

(** The theorem on a library of two items and a network link. *)
Lemma library_ids_stay_unique_witness :
  let a := mkItem "1" "A" "a.mp4" video LOCAL None None None true in
  let b := mkItem "2" "B" "b.mp4" video LOCAL None None None false in
  let d := mkDialog None "" "http://x/c.mp3" None (mkUI true deg360 TB) in
  List.NoDup (ids [a; b])
  /\ ids (handleSaveEdit "3" d [a; b]) = ["3"; "1"; "2"]%string
  /\ List.NoDup (ids (handleSaveEdit "3" d [a; b]))
  /\ ids (handleDeleteItem "1" [a; b]) = ["2"%string].
Proof.
  intros a b d.
  assert (Hnd : List.NoDup (ids [a; b])).
  { cbn. constructor; [intros [H|[]]; discriminate|].
    constructor; [intros []|constructor]. }
  assert (Hfresh : editingItem d = None -> ~ In "3"%string (ids [a; b])).
  { intros _ [H|[H|[]]]; discriminate. }
  destruct (library_ids_stay_unique [a; b] "3" d "1" "" a Hnd Hfresh)
    as (Hs & _).
  split; [exact Hnd|]. split; [reflexivity|]. split; [exact Hs | reflexivity].
Defined.

Lemma controls_round_trip (f : VideoFormat) :
  computeFormatFromUI (controlsOf f) = formatName f.
Proof.
  destruct f; reflexivity.
Qed.

(** X23.  A file picked from disk enters the library as the dialog shows
    it: with the dialog saved as it opened and an id that is not in use,
    the list gains one item at its head that carries the file's stem as
    title, the detected format, and the configured mark, so that its
    first start does not open the settings overlay and leaves the list
    alone. *)
Theorem picked_file_is_saved_as_detected (now name stem blob : string)
    (isAudioFile : bool) (thumb : option string) (later : string)
    (items : list LibraryItem) (s : AppState) :
  ~ In now (ids items) ->
  exists item,
    handleSaveEdit later (handleFileSelect now name stem blob isAudioFile thumb)
      items = item :: items
    /\ item_id item = now /\ title item = stem /\ url item = blob
    /\ format item = Some (formatName (detectFormat name))
    /\ isConfigured item = true
    /\ clickItem item (item :: items, s)
       = (item :: items, handleStartPlay true handleClickItem s)
    /\ showSettingsOverlay (snd (clickItem item (item :: items, s))) = false.
Proof.
  intros Hfresh.
  assert (Hex : List.existsb (sameId now) items = false).
  { destruct (List.existsb (sameId now) items) eqn:E; [|reflexivity].
    exfalso. apply Hfresh. apply existsb_ids. exact E. }
  eexists. split.
  - unfold handleSaveEdit, handleFileSelect.
    cbn [editingItem item_id formatUI formTitle formThumbnail title url
         mediaType source subtitleUrl].
    rewrite Hex. fold (controlsOf (detectFormat name)).
    rewrite controls_round_trip. reflexivity.
  - repeat split; reflexivity.
Qed.

(** The theorem on a side-by-side panorama added to an empty library. *)
Lemma picked_file_is_saved_as_detected_witness :
  exists item,
    handleSaveEdit "8"
      (handleFileSelect "7" "Trip_180_SBS.mp4" "Trip_180_SBS" "blob:1" false None)
      [] = [item]
    /\ format item = Some "VR180_SBS"%string
    /\ isConfigured item = true.
Proof.
  assert (Hfresh : ~ In "7"%string (ids [])) by (intros []).
  destruct (picked_file_is_saved_as_detected "7" "Trip_180_SBS.mp4"
              "Trip_180_SBS" "blob:1" false None "8" [] mounted Hfresh)
    as (item & H1 & _ & _ & _ & H2 & H3 & _).
  exists item. split; [exact H1|]. split; [exact H2 | exact H3].
Defined.

Lemma unique_by_id (items : list LibraryItem) (a b : LibraryItem) :
  List.NoDup (ids items) -> In a items -> In b items ->
  item_id a = item_id b -> a = b.
Proof.
  induction items as [|x items IH]; intros Hnd Ha Hb Hid; [destruct Ha|].
  cbn in Hnd. inversion Hnd as [|? ? Hx Hrest]; subst.
  assert (Hin : forall y, In y items -> In (item_id y) (ids items))
    by (intros y Hy; apply List.in_map; exact Hy).
  destruct Ha as [<-|Ha], Hb as [<-|Hb].
  - reflexivity.
  - exfalso. apply Hx. rewrite Hid. apply Hin. exact Hb.
  - exfalso. apply Hx. rewrite <- Hid. apply Hin. exact Ha.
  - apply IH; assumption.
Qed.

(** X24.  The settings overlay opens on the first start of an item only.
    A click on an item of a library with unique ids opens the overlay
    exactly when the item is not configured yet, keeps the ids and every
    item of another id, and leaves the item of that id configured in the
    list: the next click on it, in whatever state the player is then,
    starts with the overlay closed and does not touch the list. *)
Theorem overlay_on_first_start_only (items : list LibraryItem)
    (item : LibraryItem) (s : AppState) :
  In item items -> List.NoDup (ids items) ->
  let st1 := clickItem item (items, s) in
  showSettingsOverlay (snd st1) = negb (isConfigured item)
  /\ ids (fst st1) = ids items
  /\ (forall other, In other items -> item_id other <> item_id item ->
      In other (fst st1))
  /\ (exists item1, In item1 (fst st1) /\ item_id item1 = item_id item)
  /\ (forall item1, In item1 (fst st1) -> item_id item1 = item_id item ->
      isConfigured item1 = true
      /\ forall s',
           showSettingsOverlay (snd (clickItem item1 (fst st1, s'))) = false
           /\ fst (clickItem item1 (fst st1, s')) = fst st1).
Proof.
  intros Hin Hnd st1. subst st1. cbn [clickItem fst snd].
  split; [reflexivity|]. split; [apply markConfigured_ids|].
  assert (Hconf : forall item1, In item1 (markConfigured item items) ->
            item_id item1 = item_id item -> isConfigured item1 = true).
  { intros item1 H1 Hid. unfold markConfigured in H1.
    destruct (isConfigured item) eqn:Hc.
    - rewrite (unique_by_id items item1 item Hnd H1 Hin Hid). exact Hc.
    - apply List.in_map_iff in H1. destruct H1 as (x & Hx & _).
      destruct (sameId (item_id item) x) eqn:E.
      + subst item1. reflexivity.
      + subst item1. exfalso.
        assert (E' : sameId (item_id item) x = true)
          by (apply sameId_iff; exact Hid).
        congruence. }
  split; [|split].
  - intros other Ho Hne. unfold markConfigured.
    destruct (isConfigured item); [exact Ho|].
    apply List.in_map_iff. exists other. split; [|exact Ho].
    destruct (sameId (item_id item) other) eqn:E; [|reflexivity].
    apply sameId_iff in E. contradiction.
  - assert (Hid : In (item_id item) (ids (markConfigured item items))).
    { rewrite markConfigured_ids. apply List.in_map. exact Hin. }
    apply List.in_map_iff in Hid. destruct Hid as (item1 & H1 & H2).
    exists item1. split; assumption.
  - intros item1 H1 Hid. pose proof (Hconf item1 H1 Hid) as Hc.
    split; [exact Hc|]. intros s'.
    unfold markConfigured at 1 3. rewrite Hc. split; reflexivity.
Qed.

(** The theorem on a network link: the first click opens the overlay, the
    second does not. *)
Lemma overlay_on_first_start_only_witness :
  let a := mkItem "1" "A" "a.mp4" video LOCAL None None None true in
  let b := mkItem "2" "B" "http://x/b.mp4" video NETWORK None None None false in
  let st1 := clickItem b ([a; b], mounted) in
  In b [a; b] /\ List.NoDup (ids [a; b])
  /\ showSettingsOverlay (snd st1) = true
  /\ fst st1 = [a; mkItem "2" "B" "http://x/b.mp4" video NETWORK None None None true].
Proof.
  intros a b st1.
  assert (Hin : In b [a; b]) by (right; left; reflexivity).
  assert (Hnd : List.NoDup (ids [a; b])).
  { cbn. constructor; [intros [H|[]]; discriminate|].
    constructor; [intros []|constructor]. }
  destruct (overlay_on_first_start_only [a; b] b mounted Hin Hnd) as (H1 & _).
  split; [exact Hin|]. split; [exact Hnd|]. split; [exact H1 | reflexivity].
Defined.

End LibraryFacts.

(** ** The subtitle parser *)

Section SrtFacts.

Import Cues Srt.

(** The code units of the separators as numbers. *)
Ltac codes :=
  change (code ":") with 58%N in *; change (code ",") with 44%N in *;
  change (code "-") with 45%N in *; change (code "+") with 43%N in *;
  change (code " ") with 32%N in *; change (code ">") with 62%N in *;
  change (code "<") with 60%N in *;
  change arrow with [45; 45; 62]%N in *.

Lemma digit_range (c : N) : isDigit c = true <-> (48 <= c <= 57)%N.
Proof.
  unfold isDigit. rewrite andb_true_iff, !N.leb_le. reflexivity.
Qed.

Lemma digit_char (c : N) :
  isDigit c = true ->
  isSpace c = false /\ (c =? code ":")%N = false /\ (c =? code ",")%N = false
  /\ (c =? code "-")%N = false /\ (c =? code "+")%N = false.
Proof.
  intros H. apply digit_range in H. codes.
  repeat split; try (apply N.eqb_neq; lia).
  unfold isSpace. cbn [List.existsb].
  repeat match goal with
         | |- context [N.eqb c ?k] =>
             rewrite (proj2 (N.eqb_neq c k)) by lia
         end.
  rewrite (proj2 (N.leb_gt 8192 c)) by lia. reflexivity.
Qed.

Lemma digitValue_range (c : N) :
  isDigit c = true -> (0 <= digitValue c <= 9)%Z.
Proof.
  intros H. apply digit_range in H. unfold digitValue. lia.
Qed.

Lemma allChars_app (P : N -> bool) (a b : Text) :
  allChars P (a ++ b) = allChars P a && allChars P b.
Proof.
  induction a as [|c a IH]; [reflexivity|].
  cbn [List.app allChars]. rewrite IH. apply andb_assoc.
Qed.

Lemma allChars_impl (P R : N -> bool) (s : Text) :
  (forall c, P c = true -> R c = true) ->
  allChars P s = true -> allChars R s = true.
Proof.
  intros HPR. induction s as [|c s IH]; [reflexivity|].
  cbn [allChars]. rewrite !andb_true_iff. intros [H1 H2]. auto.
Qed.

Lemma splitChar_whole (sep : N) (s : Text) :
  allChars (fun c => negb (c =? sep)%N) s = true ->
  splitChar sep s = [s].
Proof.
  induction s as [|c s IH]; [reflexivity|].
  cbn [allChars splitChar]. rewrite andb_true_iff, negb_true_iff.
  intros [-> H]. rewrite (IH H). reflexivity.
Qed.

Lemma splitChar_app (sep : N) (a b : Text) :
  allChars (fun c => negb (c =? sep)%N) a = true ->
  splitChar sep (a ++ sep :: b) = a :: splitChar sep b.
Proof.
  induction a as [|c a IH].
  - intros _. cbn [List.app splitChar]. rewrite N.eqb_refl. reflexivity.
  - cbn [allChars List.app splitChar].
    rewrite andb_true_iff, negb_true_iff. intros [-> H].
    rewrite (IH H). reflexivity.
Qed.

(** A run of [n] digits that follows [acc] has a value below
    [(acc + 1) * 10 ^ n]. *)
Lemma digits_bound (d : Text) (acc : Z) :
  (0 <= acc)%Z -> allChars isDigit d = true ->
  (0 <= digits acc d < (acc + 1) * 10 ^ Z.of_nat (List.length d))%Z.
Proof.
  revert acc. induction d as [|c d IH]; intros acc Hacc Hd.
  - cbn. lia.
  - cbn [allChars] in Hd. apply andb_true_iff in Hd. destruct Hd as [Hc Hd].
    cbn [digits List.length]. rewrite Hc.
    pose proof (digitValue_range c Hc) as Hv.
    assert (Hacc' : (0 <= 10 * acc + digitValue c)%Z) by lia.
    pose proof (IH _ Hacc' Hd) as [H0 H1].
    rewrite Nat2Z.inj_succ, Z.pow_succ_r by lia.
    assert (Hp : (0 < 10 ^ Z.of_nat (List.length d))%Z)
      by (apply Z.pow_pos_nonneg; lia).
    split; [exact H0|]. nia.
Qed.

Lemma parseInt_digits (d : Text) :
  digitString d -> parseInt (Some d) = pInt (digits 0 d).
Proof.
  intros (Hne & Hd & Hlen). destruct d as [|c d]; [contradiction|].
  pose proof (digits_bound (c :: d) 0 (Z.le_refl 0) Hd) as [_ Hb].
  assert (Hv : (digits 0 (c :: d) <= exactBound)%Z).
  { assert (Hp : (10 ^ Z.of_nat (List.length (c :: d)) <= 10 ^ 15)%Z)
      by (apply Z.pow_le_mono_r; lia).
    assert (H15 : (10 ^ 15 < exactBound)%Z) by reflexivity. lia. }
  cbn [allChars] in Hd. apply andb_true_iff in Hd. destruct Hd as [Hc _].
  destruct (digit_char c Hc) as (Hs & _ & _ & Hm & Hp).
  unfold parseInt. cbn [trimStart]. rewrite Hs, Hm, Hp.
  cbn [snd fst startsWithDigit]. rewrite Hc.
  apply Z.leb_le in Hv. rewrite Hv, Z.mul_1_l. reflexivity.
Qed.

Lemma digits_plain (sep : N) (d : Text) :
  (forall c, isDigit c = true -> (c =? sep)%N = false) ->
  allChars isDigit d = true ->
  allChars (fun c => negb (c =? sep)%N) d = true.
Proof.
  intros Hsep. apply allChars_impl. intros c Hc.
  rewrite (Hsep c Hc). reflexivity.
Qed.

(** A stamp in the notation of the format has the value of its four
    numbers. *)
Lemma timeStringToSeconds_stamp (h m sec ms : Text) :
  digitString h -> digitString m -> digitString sec -> digitString ms ->
  timeStringToSeconds (stamp h m sec ms) = Some (secs (secondsOf h m sec ms)).
Proof.
  intros Hh Hm Hs Hms.
  assert (Hcolon : forall d, digitString d ->
            allChars (fun c => negb (c =? code ":")%N) d = true).
  { intros d (_ & Hd & _). apply digits_plain; [|exact Hd].
    intros c Hc. apply (digit_char c Hc). }
  assert (Hcomma : forall d, digitString d ->
            allChars (fun c => negb (c =? code ",")%N) d = true).
  { intros d (_ & Hd & _). apply digits_plain; [|exact Hd].
    intros c Hc. apply (digit_char c Hc). }
  unfold timeStringToSeconds, stamp.
  rewrite (splitChar_app (code ":") h _ (Hcolon h Hh)).
  rewrite (splitChar_app (code ":") m _ (Hcolon m Hm)).
  assert (Hlast : splitChar (code ":") (sec ++ code "," :: ms)
                  = [sec ++ code "," :: ms]).
  { apply splitChar_whole. rewrite allChars_app. cbn [allChars].
    rewrite (Hcolon sec Hs), (Hcolon ms Hms). reflexivity. }
  rewrite Hlast. cbn [List.nth_error].
  rewrite (splitChar_app (code ",") sec _ (Hcomma sec Hs)).
  rewrite (splitChar_whole (code ",") ms (Hcomma ms Hms)). cbn [List.nth_error].
  rewrite !parseInt_digits by assumption. reflexivity.
Qed.

Lemma hasDigit_false (s : Text) :
  hasDigit s = false <-> allChars (fun c => negb (isDigit c)) s = true.
Proof.
  induction s as [|c s IH]; cbn [hasDigit allChars]; [tauto|].
  rewrite orb_false_iff, andb_true_iff, negb_true_iff, IH. reflexivity.
Qed.

Lemma hasChar_false (c : N) (s : Text) :
  hasChar c s = false <-> allChars (fun a => negb (a =? c)%N) s = true.
Proof.
  induction s as [|a s IH]; cbn [hasChar allChars]; [tauto|].
  rewrite orb_false_iff, andb_true_iff, negb_true_iff, IH. reflexivity.
Qed.

Lemma consHead_pieces (P : N -> bool) (c : N) (ps : list Text) :
  P c = true -> List.Forall (fun p => allChars P p = true) ps ->
  List.Forall (fun p => allChars P p = true) (Srt.consHead c ps).
Proof.
  intros Hc Hps. destruct Hps as [|p ps Hp Hps]; cbn [consHead].
  - apply List.Forall_cons; [|apply List.Forall_nil].
    cbn [allChars]. rewrite Hc. reflexivity.
  - apply List.Forall_cons; [|exact Hps].
    cbn [allChars]. rewrite Hc, Hp. reflexivity.
Qed.

Lemma splitChar_pieces (P : N -> bool) (sep : N) (s : Text) :
  allChars P s = true ->
  List.Forall (fun p => allChars P p = true) (splitChar sep s).
Proof.
  induction s as [|c s IH]; cbn [allChars splitChar].
  - intros _. apply List.Forall_cons; [reflexivity | apply List.Forall_nil].
  - rewrite andb_true_iff. intros [Hc Hs].
    destruct (c =? sep)%N.
    + apply List.Forall_cons; [reflexivity | apply IH; exact Hs].
    + apply consHead_pieces; [exact Hc | apply IH; exact Hs].
Qed.

Lemma splitOn_pieces (P : N -> bool) (sep : Text) (s : Text) :
  allChars P s = true ->
  forall skip,
    List.Forall (fun p => allChars P p = true) (splitOn sep skip s).
Proof.
  induction s as [|c s IH]; cbn [allChars splitOn].
  - intros _ skip. apply List.Forall_cons; [reflexivity | apply List.Forall_nil].
  - rewrite andb_true_iff. intros [Hc Hs] [|k].
    + destruct (isPrefix sep (c :: s)).
      * apply List.Forall_cons; [reflexivity | apply IH; exact Hs].
      * apply consHead_pieces; [exact Hc | apply IH; exact Hs].
    + apply IH. exact Hs.
Qed.

Lemma trimStart_chars (P : N -> bool) (s : Text) :
  allChars P s = true -> allChars P (trimStart s) = true.
Proof.
  induction s as [|c s IH]; [reflexivity|].
  cbn [trimStart]. destruct (isSpace c); [|tauto].
  cbn [allChars]. rewrite andb_true_iff. intros [_ H]. auto.
Qed.

Lemma trimEnd_chars (P : N -> bool) (s : Text) :
  allChars P s = true -> allChars P (trimEnd s) = true.
Proof.
  induction s as [|c s IH]; [reflexivity|].
  cbn [trimEnd allChars]. rewrite andb_true_iff. intros [Hc Hs].
  specialize (IH Hs). destruct (trimEnd s) as [|r rs].
  - destruct (isSpace c); [reflexivity|]. cbn [allChars]. rewrite Hc. reflexivity.
  - cbn [allChars] in *. rewrite Hc, IH. reflexivity.
Qed.

Lemma trim_chars (P : N -> bool) (s : Text) :
  allChars P s = true -> allChars P (trim s) = true.
Proof.
  intros H. apply trimEnd_chars, trimStart_chars, H.
Qed.

Lemma startsWithDigit_chars (s : Text) :
  allChars (fun c => negb (isDigit c)) s = true -> startsWithDigit s = false.
Proof.
  destruct s as [|c s]; [reflexivity|].
  cbn [allChars startsWithDigit]. rewrite andb_true_iff, negb_true_iff. tauto.
Qed.

(** Without a digit [parseInt] gives [NaN]. *)
Lemma parseInt_no_digit (p : Text) :
  allChars (fun c => negb (isDigit c)) p = true -> parseInt (Some p) = pNaN.
Proof.
  intros Hp. apply trimStart_chars in Hp. unfold parseInt.
  destruct (trimStart p) as [|c r].
  - reflexivity.
  - assert (Hr : startsWithDigit r = false).
    { apply startsWithDigit_chars. cbn [allChars] in Hp.
      apply andb_true_iff in Hp. tauto. }
    pose proof (startsWithDigit_chars _ Hp) as Hc.
    destruct (c =? code "-")%N; [cbn [snd]; rewrite Hr; reflexivity|].
    destruct (c =? code "+")%N; cbn [snd]; rewrite ?Hr, ?Hc; reflexivity.
Qed.

Lemma consHead_length (c : N) (ps : list Text) :
  ps <> [] -> List.length (Srt.consHead c ps) = List.length ps.
Proof.
  destruct ps; [contradiction | reflexivity].
Qed.

Lemma splitChar_length (sep : N) (s : Text) :
  List.length (splitChar sep s) = S (countChar sep s).
Proof.
  induction s as [|c s IH]; [reflexivity|].
  cbn [splitChar countChar]. destruct (c =? sep)%N.
  - cbn [List.length]. rewrite IH. reflexivity.
  - rewrite consHead_length; [exact IH|].
    intros E. rewrite E in IH. discriminate.
Qed.

Lemma timeStringToSeconds_throws (s : Text) :
  timeStringToSeconds s = None <-> (countChar (code ":") s < 2)%nat.
Proof.
  pose proof (splitChar_length (code ":") s) as Hlen.
  unfold timeStringToSeconds.
  destruct (List.nth_error (splitChar (code ":") s) 2) as [p2|] eqn:E.
  - split; [discriminate|]. intros Hc.
    assert (H : (2 < List.length (splitChar (code ":") s))%nat).
    { apply List.nth_error_Some. rewrite E. discriminate. }
    lia.
  - split; [|reflexivity]. intros _.
    apply List.nth_error_None in E. lia.
Qed.

Lemma timeStringToSeconds_digit (s : Text) (r : Seconds) :
  timeStringToSeconds s = Some r -> r <> sNaN -> hasDigit s = true.
Proof.
  intros Hq Hr. destruct (hasDigit s) eqn:Hd; [reflexivity|]. exfalso.
  apply hasDigit_false in Hd.
  pose proof (splitChar_pieces _ (code ":") s Hd) as Hp.
  unfold timeStringToSeconds in Hq.
  destruct (splitChar (code ":") s) as [|p0 ps]; [discriminate|].
  destruct (List.nth_error (p0 :: ps) 2); [|discriminate].
  cbn [List.nth_error] in Hq.
  inversion Hp as [|? ? Hp0 _]; subst.
  rewrite (parseInt_no_digit p0 Hp0) in Hq.
  injection Hq as <-. apply Hr. reflexivity.
Qed.

Lemma timeStringToSeconds_comma (s : Text) (r : Seconds) :
  timeStringToSeconds s = Some r -> r <> sNaN ->
  hasChar (code ",") s = true.
Proof.
  intros Hq Hr. destruct (hasChar (code ",") s) eqn:Hc; [reflexivity|].
  exfalso. apply hasChar_false in Hc.
  pose proof (splitChar_pieces _ (code ":") s Hc) as Hp.
  unfold timeStringToSeconds in Hq.
  destruct (List.nth_error (splitChar (code ":") s) 2) as [p2|] eqn:E;
    [|discriminate].
  assert (Hp2 : allChars (fun a => negb (a =? code ",")%N) p2 = true).
  { apply List.nth_error_In in E.
    rewrite List.Forall_forall in Hp. apply Hp. exact E. }
  rewrite (splitChar_whole (code ",") p2 Hp2) in Hq.
  destruct (parseInt (List.nth_error (splitChar (code ":") s) 0)),
    (parseInt (List.nth_error (splitChar (code ":") s) 1)),
    (parseInt (List.nth_error [p2] 0)); cbn in Hq;
    injection Hq as <-; apply Hr; reflexivity.
Qed.

(** X25.  When a time stamp fails.  [timeStringToSeconds] throws exactly
    on a string with fewer than two colons; on every other string it
    returns, but with a value other than [NaN] only if the string has a
    digit and a comma: a stamp that separates the milliseconds with a
    full stop gives [NaN]. *)
Theorem stamp_failures (s : Text) :
  (timeStringToSeconds s = None <-> (countChar (code ":") s < 2)%nat)
  /\ (forall r, timeStringToSeconds s = Some r -> r <> sNaN ->
      hasDigit s = true /\ hasChar (code ",") s = true).
Proof.
  split; [apply timeStringToSeconds_throws|].
  intros r Hq Hr. split.
  - apply (timeStringToSeconds_digit s r Hq Hr).
  - apply (timeStringToSeconds_comma s r Hq Hr).
Qed.

(** Stamps of other notations, and a stamp with a number beyond the
    integers a double holds exactly. *)
Example stamps_of_other_notations :
  timeStringToSeconds (text "00:00:01.000") = Some sNaN
  /\ timeStringToSeconds (text "01:05,250") = None
  /\ timeStringToSeconds (text "00:00:01,5") = Some (secs (1005 # 1000))
  /\ timeStringToSeconds (text "00:00:01,9007199254740993") = Some sWide.
Proof.
  repeat split; reflexivity.
Qed.

Lemma splitOn_nonempty (sep : Text) (s : Text) (skip : nat) :
  splitOn sep skip s <> [].
Proof.
  revert skip. induction s as [|c s IH]; intros skip; [discriminate|].
  cbn [splitOn]. destruct skip as [|k]; [|apply IH].
  destruct (isPrefix sep (c :: s)); [discriminate|].
  destruct (splitOn sep 0 s); discriminate.
Qed.

(** A line that contains the separator splits into two pieces at
    least. *)
Lemma splitOn_two (sep : Text) (s : Text) :
  sep <> [] -> includes sep s = true ->
  exists a b r, splitOn sep 0 s = a :: b :: r.
Proof.
  intros Hsep. induction s as [|c s IH].
  - destruct sep; [contradiction | discriminate].
  - cbn [includes splitOn].
    destruct (isPrefix sep (c :: s)).
    + intros _. pose proof (splitOn_nonempty sep s (List.length sep - 1)) as Hn.
      destruct (splitOn sep (List.length sep - 1) s) as [|b r];
        [contradiction|].
      exists [], b, r. reflexivity.
    + cbn [orb]. intros H.
      destruct (IH H) as (a & b & r & ->).
      exists (c :: a), b, r. reflexivity.
Qed.

Lemma parseBlocks_throws (pre post : list (list Text))
    (block : list Text) (index : nat) (cues : list (option SubtitleCue)) :
  parseBlock (index + List.length pre) block = None ->
  parseBlocks index (pre ++ block :: post) cues = None.
Proof.
  revert index cues. induction pre as [|b pre IH]; intros index cues H.
  - cbn [List.length] in H. rewrite Nat.add_0_r in H.
    cbn [List.app parseBlocks]. rewrite H. reflexivity.
  - cbn [List.app parseBlocks].
    destruct (parseBlock index b) as [[|cue|]|]; [| | |reflexivity];
      apply IH; cbn [List.length] in H;
      rewrite Nat.add_succ_r in H; exact H.
Qed.

Lemma consHead_count (c a : N) (ps : list Text) :
  ps <> [] ->
  countAll c (Srt.consHead a ps)
  = ((if (a =? c)%N then 1 else 0) + countAll c ps)%nat.
Proof.
  destruct ps as [|p ps]; [contradiction|]. intros _.
  cbn [consHead countAll countChar]. lia.
Qed.

(** The pieces of a split have no more of a code unit than the line. *)
Lemma splitOn_count (c : N) (sep : Text) (s : Text) (skip : nat) :
  (countAll c (splitOn sep skip s) <= countChar c s)%nat.
Proof.
  revert skip. induction s as [|a s IH]; intros skip; [cbn; lia|].
  cbn [splitOn countChar]. destruct skip as [|k].
  - destruct (isPrefix sep (a :: s)).
    + cbn [countAll countChar].
      pose proof (IH (List.length sep - 1)%nat). lia.
    + rewrite consHead_count by apply splitOn_nonempty.
      pose proof (IH 0%nat). lia.
  - pose proof (IH k). lia.
Qed.

Lemma trimStart_count (c : N) (s : Text) :
  (countChar c (trimStart s) <= countChar c s)%nat.
Proof.
  induction s as [|a s IH]; [cbn; lia|].
  cbn [trimStart]. destruct (isSpace a); [|lia].
  cbn [countChar]. lia.
Qed.

Lemma trimEnd_count (c : N) (s : Text) :
  (countChar c (trimEnd s) <= countChar c s)%nat.
Proof.
  induction s as [|a s IH]; [cbn; lia|].
  cbn [trimEnd]. destruct (trimEnd s) as [|r rs].
  - destruct (isSpace a); cbn [countChar] in *; lia.
  - cbn [countChar] in *. lia.
Qed.

Lemma trim_count (c : N) (s : Text) :
  (countChar c (trim s) <= countChar c s)%nat.
Proof.
  unfold trim. pose proof (trimEnd_count c (trimStart s)).
  pose proof (trimStart_count c s). lia.
Qed.

(** X26.  One short time line loses the whole file.  A block with a
    number line, a time line with an arrow and text throws when its time
    line has fewer than four colons, as in [00:05 --> 00:09]; the throw
    leaves [forEach], so [parseSRT] returns no cue at all, whatever the
    blocks before and after are. *)
Theorem short_time_line_loses_the_file (pre post : list (list Text))
    (idLine timeLine : Text) (textLines : list Text) :
  hasDigit idLine = true -> textLines <> [] ->
  includes arrow timeLine = true ->
  (countChar (code ":") timeLine < 4)%nat ->
  parseSRT (pre ++ (idLine :: timeLine :: textLines) :: post) = None.
Proof.
  intros Hid Htext Harrow Hcolons. unfold parseSRT.
  apply parseBlocks_throws. unfold parseBlock.
  destruct textLines as [|t ts]; [contradiction|].
  cbn [List.length Nat.ltb Nat.leb List.nth_error]. rewrite Hid.
  cbn [negb List.nth_error]. rewrite Harrow. cbn [negb].
  destruct (splitOn_two arrow timeLine) as (a & b & r & E);
    [discriminate | exact Harrow |].
  pose proof (splitOn_count (code ":") arrow timeLine 0) as Hsum.
  rewrite E in *. cbn [List.map countAll] in *.
  pose proof (trim_count (code ":") a). pose proof (trim_count (code ":") b).
  destruct (timeStringToSeconds (trim a)) as [ra|] eqn:Ea; [|reflexivity].
  assert (Hb : timeStringToSeconds (trim b) = None).
  { apply timeStringToSeconds_throws.
    destruct (Nat.lt_ge_cases (countChar (code ":") (trim a)) 2) as [Hlt|Hge].
    - apply timeStringToSeconds_throws in Hlt. congruence.
    - lia. }
  rewrite Hb. reflexivity.
Qed.

(** The theorem on the sample file with a short time line in its second
    block. *)
Lemma short_time_line_loses_the_file_witness :
  let pre := [List.map text ["1"; "00:00:01,000 --> 00:00:05,000"; "Welcome."]%string] in
  let post := [List.map text ["3"; "00:00:09,500 --> 00:00:14,000"; "The sky."]%string] in
  (countChar (code ":") (text "00:05 --> 00:09") < 4)%nat
  /\ List.length (default [] (parseSRT (pre ++ post))) = 2%nat
  /\ parseSRT
       (pre ++ List.map text ["2"; "00:05 --> 00:09"; "Simply look."]%string
            :: post)
     = None.
Proof.
  intros pre post.
  assert (Hc : (countChar (code ":") (text "00:05 --> 00:09") < 4)%nat)
    by (vm_compute; lia).
  split; [exact Hc|]. split; [reflexivity|].
  apply (short_time_line_loses_the_file pre post (text "2")
           (text "00:05 --> 00:09") [text "Simply look."]).
  - reflexivity.
  - discriminate.
  - reflexivity.
  - exact Hc.
Defined.

(** X27.  A cue that is ever on display comes from a block in the
    standard layout.  The branch of [parseSRT] for a block without a
    number line takes the first line as the time line only if it has no
    digit, and then its stamps have no digit either: such a block is
    passed over, throws, or gives a cue whose times are [NaN].  So a cue
    that covers some playback time has a first line with a digit, its
    time line second, and its text from the third line on.  (Lemma
    [wide_cue_has_number_line] below has the same for a cue with a stamp
    number beyond [2^53].) *)
Theorem shown_cue_has_number_line (index : nat) (lines : list Text)
    (c : SubtitleCue) (t : Q) :
  parseBlock index lines = Some (pushed c) -> covers t c = true ->
  exists line0 timeLine textLines,
    lines = line0 :: timeLine :: textLines
    /\ textLines <> []
    /\ hasDigit line0 = true
    /\ includes arrow timeLine = true
    /\ cue_text c = stripTags false (join textLines).
Proof.
  intros H Hcov. unfold parseBlock in H.
  destruct lines as [|l0 [|l1 [|l2 rest]]]; try discriminate H.
  cbn [List.length Nat.ltb Nat.leb List.nth_error] in H.
  destruct (hasDigit l0) eqn:Hd; cbn [negb List.nth_error] in H.
  - destruct (includes arrow l1) eqn:Ha; cbn [negb] in H;
      [|discriminate H].
    destruct (List.map trim (splitOn arrow 0 l1)) as [|a [|b r]];
      try discriminate H.
    destruct (timeStringToSeconds a) as [ra|]; [|discriminate H].
    destruct (timeStringToSeconds b) as [rb|]; [|discriminate H].
    exists l0, l1, (l2 :: rest).
    split; [reflexivity|]. split; [discriminate|].
    split; [exact Hd|]. split; [exact Ha|].
    destruct ra, rb; try discriminate H; injection H as <-; reflexivity.
  - exfalso.
    destruct (includes arrow l0); cbn [negb] in H; [|discriminate H].
    pose proof (splitOn_pieces _ arrow l0 (proj1 (hasDigit_false l0) Hd) 0)
      as Hp.
    destruct (splitOn arrow 0 l0) as [|p ps]; [discriminate H|].
    cbn [List.map] in H.
    inversion Hp as [|? ? Hp0 _]; subst.
    assert (Hn : hasDigit (trim p) = false).
    { apply hasDigit_false. apply trim_chars. exact Hp0. }
    destruct (List.map trim ps) as [|b r]; [discriminate H|].
    destruct (timeStringToSeconds (trim p)) as [ra|] eqn:Et;
      [|discriminate H].
    assert (Hra : ra = sNaN).
    { destruct ra; [reflexivity| |];
        (apply timeStringToSeconds_digit in Et; [congruence | discriminate]). }
    subst ra.
    destruct (timeStringToSeconds b) as [rb|]; [|discriminate H].
    destruct rb; try discriminate H; injection H as <-;
      unfold covers in Hcov; cbn in Hcov; discriminate.
Qed.

(** The theorem on the first block of the sample file, two seconds in. *)
Lemma shown_cue_has_number_line_witness :
  exists c,
    parseBlock 0
      (List.map text ["1"; "00:00:01,000 --> 00:00:05,000"; "Welcome."]%string)
    = Some (pushed c)
    /\ covers 2 c = true
    /\ cue_text c = text "Welcome.".
Proof.
  eexists. split; [reflexivity|]. split; [reflexivity|].
  match goal with
  | |- cue_text ?c = _ =>
      destruct (shown_cue_has_number_line 0
                  (List.map text
                     ["1"; "00:00:01,000 --> 00:00:05,000"; "Welcome."]%string)
                  c 2 eq_refl eq_refl)
        as (l0 & tl & txt & E & _ & _ & _ & Htext)
  end.
  injection E as _ _ <-. exact Htext.
Defined.

(** A cue with a time beyond the numbers computed here comes from a
    block in the standard layout as well: the stamps of a block without a
    number line have no digit, and their times are [NaN]. *)
Lemma wide_cue_has_number_line (index : nat) (lines : list Text) :
  parseBlock index lines = Some pushedWide ->
  exists line0 timeLine textLines,
    lines = line0 :: timeLine :: textLines
    /\ textLines <> []
    /\ hasDigit line0 = true
    /\ includes arrow timeLine = true.
Proof.
  intros H. unfold parseBlock in H.
  destruct lines as [|l0 [|l1 [|l2 rest]]]; try discriminate H.
  cbn [List.length Nat.ltb Nat.leb List.nth_error] in H.
  destruct (hasDigit l0) eqn:Hd; cbn [negb List.nth_error] in H.
  - destruct (includes arrow l1) eqn:Ha; cbn [negb] in H;
      [|discriminate H].
    exists l0, l1, (l2 :: rest).
    split; [reflexivity|]. split; [discriminate|].
    split; [exact Hd | exact Ha].
  - exfalso.
    destruct (includes arrow l0); cbn [negb] in H; [|discriminate H].
    pose proof (splitOn_pieces _ arrow l0 (proj1 (hasDigit_false l0) Hd) 0)
      as Hp.
    destruct (splitOn arrow 0 l0) as [|p [|p' ps]]; try discriminate H.
    cbn [List.map] in H.
    inversion Hp as [|? ? Hp0 Hps]; subst.
    inversion Hps as [|? ? Hp1 _]; subst.
    assert (Hn : forall x, allChars (fun c => negb (isDigit c)) x = true ->
              forall r, timeStringToSeconds (trim x) = Some r -> r = sNaN).
    { intros x Hx r Er.
      assert (Hx' : hasDigit (trim x) = false)
        by (apply hasDigit_false, trim_chars, Hx).
      destruct r; [reflexivity| |];
        (apply timeStringToSeconds_digit in Er; [congruence | discriminate]). }
    destruct (timeStringToSeconds (trim p)) as [ra|] eqn:Ea;
      [|discriminate H].
    destruct (timeStringToSeconds (trim p')) as [rb|] eqn:Eb;
      [|discriminate H].
    rewrite (Hn p Hp0 ra Ea), (Hn p' Hp1 rb Eb) in H. discriminate H.
Qed.

Lemma includes_app_right (sep a r : Text) :
  includes sep r = true -> includes sep (a ++ r) = true.
Proof.
  intros H. induction a as [|c a IH]; [exact H|].
  cbn [List.app includes]. rewrite IH. apply orb_true_r.
Qed.

Lemma splitOn_whole (s : Text) :
  allChars (fun c => negb (c =? code "-")%N) s = true ->
  splitOn arrow 0 s = [s].
Proof.
  codes. induction s as [|c s IH]; [reflexivity|].
  cbn [allChars splitOn isPrefix].
  rewrite andb_true_iff, negb_true_iff. intros [Hc Hs].
  rewrite N.eqb_sym, Hc. cbn [andb]. rewrite (IH Hs). reflexivity.
Qed.

Lemma splitOn_arrow (a b : Text) :
  allChars (fun c => negb (c =? code "-")%N) a = true ->
  splitOn arrow 0 (a ++ arrow ++ b) = a :: splitOn arrow 0 b.
Proof.
  codes. cbn [List.app]. induction a as [|c a IH].
  - intros _. reflexivity.
  - cbn [allChars List.app splitOn isPrefix].
    rewrite andb_true_iff, negb_true_iff. intros [Hc Hs].
    rewrite N.eqb_sym, Hc. cbn [andb]. rewrite (IH Hs). reflexivity.
Qed.

Lemma trimStart_plain (s : Text) :
  allChars (fun c => negb (isSpace c)) s = true -> trimStart s = s.
Proof.
  destruct s as [|c s]; [reflexivity|].
  cbn [allChars trimStart]. rewrite andb_true_iff, negb_true_iff.
  intros [-> _]. reflexivity.
Qed.

Lemma trimEnd_plain (s : Text) :
  allChars (fun c => negb (isSpace c)) s = true -> trimEnd s = s.
Proof.
  induction s as [|c s IH]; [reflexivity|].
  cbn [allChars trimEnd]. rewrite andb_true_iff, negb_true_iff.
  intros [Hc Hs]. rewrite (IH Hs), Hc. destruct s; reflexivity.
Qed.

Lemma trimEnd_space (s : Text) :
  allChars (fun c => negb (isSpace c)) s = true ->
  trimEnd (s ++ [code " "]) = s.
Proof.
  induction s as [|c s IH]; [reflexivity|].
  cbn [allChars List.app trimEnd]. rewrite andb_true_iff, negb_true_iff.
  intros [Hc Hs]. rewrite (IH Hs), Hc. destruct s; reflexivity.
Qed.

Lemma plain_space (s : Text) :
  allChars plainChar s = true ->
  allChars (fun c => negb (isSpace c)) s = true.
Proof.
  apply allChars_impl. intros c H. apply andb_true_iff in H. tauto.
Qed.

Lemma plain_dash (s : Text) :
  allChars plainChar s = true ->
  allChars (fun c => negb (c =? code "-")%N) s = true.
Proof.
  apply allChars_impl. intros c H. apply andb_true_iff in H. tauto.
Qed.

Lemma digits_are_plain (d : Text) :
  digitString d -> allChars plainChar d = true.
Proof.
  intros (_ & Hd & _). revert Hd. apply allChars_impl. intros c Hc.
  destruct (digit_char c Hc) as (Hs & _ & _ & Hm & _).
  unfold plainChar. rewrite Hs, Hm. reflexivity.
Qed.

Lemma stamp_plain (h m sec ms : Text) :
  digitString h -> digitString m -> digitString sec -> digitString ms ->
  allChars plainChar (stamp h m sec ms) = true.
Proof.
  intros Hh Hm Hs Hms. unfold stamp.
  rewrite allChars_app. cbn [allChars].
  rewrite allChars_app. cbn [allChars].
  rewrite allChars_app. cbn [allChars].
  rewrite (digits_are_plain h Hh), (digits_are_plain m Hm),
    (digits_are_plain sec Hs), (digits_are_plain ms Hms).
  reflexivity.
Qed.

Lemma trim_stamp_left (st : Text) :
  allChars plainChar st = true -> trim (st ++ [code " "]) = st.
Proof.
  intros Hp. pose proof (plain_space st Hp) as Hs. unfold trim.
  destruct st as [|c st]; [reflexivity|].
  assert (E : trimStart ((c :: st) ++ [code " "]) = (c :: st) ++ [code " "]).
  { cbn [List.app trimStart]. cbn [allChars] in Hs.
    apply andb_true_iff in Hs. destruct Hs as [Hc _].
    apply negb_true_iff in Hc. rewrite Hc. reflexivity. }
  rewrite E. apply trimEnd_space. exact Hs.
Qed.

Lemma trim_stamp_right (st : Text) :
  allChars plainChar st = true -> trim (code " " :: st) = st.
Proof.
  intros Hp. pose proof (plain_space st Hp) as Hs. unfold trim.
  cbn [trimStart]. change (isSpace (code " ")) with true. cbn match.
  rewrite (trimStart_plain st Hs). apply trimEnd_plain. exact Hs.
Qed.

(** X28.  A block in the standard layout gives its cue.  A line with a
    digit, then two stamps [hh:mm:ss,mmm] around an arrow, each number a
    run of one to fifteen digits, then text: the block is never passed
    over and never throws, the cue carries the position of the block in
    its id, its text is the text lines joined and stripped of tags, its
    words are that text split at white space, and its times are the
    values of the stamps, hours times 3600 plus minutes times 60 plus
    seconds plus the number after the comma over 1000 (the sum taken
    exactly, as everywhere in this embedding). *)
Theorem standard_block_parses (index : nat) (idLine : Text)
    (h1 m1 s1 ms1 h2 m2 s2 ms2 : Text) (textLines : list Text) :
  hasDigit idLine = true -> textLines <> [] ->
  List.Forall digitString [h1; m1; s1; ms1; h2; m2; s2; ms2] ->
  parseBlock index
    (idLine
     :: timeLineOf (stamp h1 m1 s1 ms1) (stamp h2 m2 s2 ms2)
     :: textLines)
  = Some (pushed
      {| cue_id := text ("cue-" ++ NilZero.string_of_uint (Nat.to_uint index));
         startTime := Some (secondsOf h1 m1 s1 ms1);
         endTime := Some (secondsOf h2 m2 s2 ms2);
         cue_text := stripTags false (join textLines);
         parsedWords := splitSpaces false (stripTags false (join textLines)) |}).
Proof.
  intros Hid Htext Hd.
  repeat match goal with
         | H : List.Forall _ (_ :: _) |- _ =>
             let Hx := fresh "Hx" in
             inversion H as [|? ? Hx ?]; subst; clear H
         end.
  set (st1 := stamp h1 m1 s1 ms1). set (st2 := stamp h2 m2 s2 ms2).
  assert (P1 : allChars plainChar st1 = true) by (apply stamp_plain; assumption).
  assert (P2 : allChars plainChar st2 = true) by (apply stamp_plain; assumption).
  assert (T1 : timeStringToSeconds st1 = Some (secs (secondsOf h1 m1 s1 ms1)))
    by (apply timeStringToSeconds_stamp; assumption).
  assert (T2 : timeStringToSeconds st2 = Some (secs (secondsOf h2 m2 s2 ms2)))
    by (apply timeStringToSeconds_stamp; assumption).
  assert (Hline : timeLineOf st1 st2
                  = (st1 ++ [code " "]) ++ arrow ++ code " " :: st2).
  { unfold timeLineOf. rewrite <- List.app_assoc. reflexivity. }
  assert (Harrow : includes arrow (timeLineOf st1 st2) = true).
  { unfold timeLineOf. apply includes_app_right. reflexivity. }
  assert (Hsplit : List.map trim (splitOn arrow 0 (timeLineOf st1 st2))
                   = [st1; st2]).
  { rewrite Hline. rewrite splitOn_arrow.
    - rewrite splitOn_whole.
      + cbn [List.map]. rewrite trim_stamp_left, trim_stamp_right by assumption.
        reflexivity.
      + cbn [allChars]. rewrite (plain_dash st2 P2). reflexivity.
    - rewrite allChars_app. rewrite (plain_dash st1 P1). reflexivity. }
  unfold parseBlock.
  destruct textLines as [|t ts]; [contradiction|].
  cbn [List.length Nat.ltb Nat.leb List.nth_error]. rewrite Hid.
  cbn [negb List.nth_error]. rewrite Harrow. cbn [negb].
  rewrite Hsplit, T1, T2. reflexivity.
Qed.

(** The theorem on the second block of the sample file. *)
Lemma standard_block_parses_witness :
  List.Forall digitString
    (List.map text ["00"; "00"; "05"; "500"; "00"; "00"; "09"; "000"]%string)
  /\ exists c,
       parseBlock 1
         (List.map text
            ["2"; "00:00:05,500 --> 00:00:09,000";
             "Simply look at a <i>word</i>."]%string) = Some (pushed c)
       /\ startTime c
          = Some (secondsOf (text "00") (text "00") (text "05") (text "500"))
       /\ secondsOf (text "00") (text "00") (text "05") (text "500") == 11 # 2
       /\ cue_text c = text "Simply look at a word.".
Proof.
  assert (Hd : List.Forall digitString
                 (List.map text
                    ["00"; "00"; "05"; "500"; "00"; "00"; "09"; "000"]%string)).
  { cbn [List.map].
    repeat (first
      [ apply List.Forall_nil
      | apply List.Forall_cons;
        [split; [discriminate | split; [reflexivity | vm_compute; lia]]|] ]). }
  split; [exact Hd|].
  eexists. split.
  - apply (standard_block_parses 1 (text "2") (text "00") (text "00")
             (text "05") (text "500") (text "00") (text "00") (text "09")
             (text "000") [text "Simply look at a <i>word</i>."]);
      [reflexivity | discriminate | exact Hd].
  - split; [reflexivity|]. split; [vm_compute; reflexivity | reflexivity].
Defined.

Lemma splitSpaces_chars (s : Text) (inSpace : bool) :
  List.Forall (fun w => allChars (fun c => negb (isSpace c)) w = true)
    (splitSpaces inSpace s).
Proof.
  revert inSpace. induction s as [|c s IH]; intros inSpace.
  - apply List.Forall_cons; [reflexivity | apply List.Forall_nil].
  - cbn [splitSpaces]. destruct (isSpace c) eqn:Hc.
    + destruct inSpace; [apply IH|].
      apply List.Forall_cons; [reflexivity | apply IH].
    + apply consHead_pieces; [rewrite Hc; reflexivity | apply IH].
Qed.

Lemma splitSpaces_last (pre : Text) (c : N) (inSpace : bool) :
  isSpace c = true ->
  exists ws,
    splitSpaces inSpace (pre ++ [c]) = ws ++ [[]]
    /\ (inSpace = false -> ws <> []).
Proof.
  intros Hc. revert inSpace. induction pre as [|a pre IH]; intros inSpace.
  - cbn [List.app splitSpaces]. rewrite Hc. destruct inSpace.
    + exists []. split; [reflexivity | discriminate].
    + exists [[]]. split; [reflexivity | discriminate].
  - cbn [List.app splitSpaces]. destruct (isSpace a).
    + destruct (IH true) as (ws & E & _). rewrite E. destruct inSpace.
      * exists ws. split; [reflexivity | discriminate].
      * exists ([] :: ws). split; [reflexivity | discriminate].
    + destruct (IH false) as (ws & E & Hne). rewrite E.
      destruct ws as [|w ws]; [exfalso; apply Hne; reflexivity|].
      exists ((a :: w) :: ws). split; [reflexivity | discriminate].
Qed.

(** X29.  The words of a cue text.  The split at white space, that of
    ECMAScript with the no-break and the ideographic space in it, never
    gives an empty list and no word contains white space; a text without
    white space, the empty text included, is one word; a text that begins
    with white space has the empty word first, and a text that ends with
    white space, as every line of a file with carriage returns does, has
    the empty word last. *)
Theorem words_of_a_text (s : Text) :
  let words := splitSpaces false s in
  words <> []
  /\ List.Forall (fun w => allChars (fun c => negb (isSpace c)) w = true) words
  /\ (allChars (fun c => negb (isSpace c)) s = true -> words = [s])
  /\ (forall c rest, s = c :: rest -> isSpace c = true ->
      exists ws, words = [] :: ws)
  /\ (forall pre c, s = pre ++ [c] -> isSpace c = true ->
      exists ws, ws <> [] /\ words = ws ++ [[]]).
Proof.
  cbn zeta. split; [|split; [|split; [|split]]].
  - destruct s as [|c s]; [discriminate|].
    cbn [splitSpaces]. destruct (isSpace c); [discriminate|].
    destruct (splitSpaces false s); discriminate.
  - apply splitSpaces_chars.
  - induction s as [|c s IH]; [reflexivity|].
    cbn [allChars splitSpaces]. rewrite andb_true_iff, negb_true_iff.
    intros [-> H]. rewrite (IH H). reflexivity.
  - intros c rest -> Hc. cbn [splitSpaces]. rewrite Hc. eauto.
  - intros pre c -> Hc.
    destruct (splitSpaces_last pre c false Hc) as (ws & E & Hne).
    exists ws. split; [apply Hne; reflexivity | exact E].
Qed.

(** The text of a cue from a file with carriage returns, and a text with
    a no-break space before its mark. *)
Example words_with_other_spaces :
  splitSpaces false (join [text "look at"; text "a" ++ [13%N]])
  = [text "look"; text "at"; text "a"; []]
  /\ splitSpaces false (text "Bonjour" ++ 160%N :: text "!")
     = [text "Bonjour"; text "!"].
Proof.
  split; reflexivity.
Qed.

End SrtFacts.

(** ** Flat stereo video *)

Section FlatVideo.

Import Renderer.

(** X30.  A flat stereo video is cut for each eye as a panoramic one is.
    The style [EyeView] gives the video element of a format that is not
    panoramic shows the eye the part of the frame that the texture
    mapping of [VRVideoRenderer] would sample for the same format and
    eye, on both axes; the single eye sees what the left eye sees; and an
    item that is no video is never cut. *)
Theorem flat_crop_matches_texture_window (f : VideoFormat) (eye : Eye) :
  isVRVideo f = false ->
  let st := videoElementStyle true f eye in
  let m := textureMap f eye in
  sameWindow (visibleU st) (fst (uWindow m)) (snd (uWindow m))
  /\ sameWindow (visibleV st) (fst (vWindow m)) (snd (vWindow m))
  /\ videoElementStyle true f eye_single = videoElementStyle true f eye_left
  /\ videoElementStyle false f eye = videoElementStyle true MONO_2D eye.
Proof.
  destruct f; try discriminate; intros _; destruct eye;
    vm_compute; repeat split; reflexivity.
Qed.

(** The theorem on the right eye of a top-and-bottom video: the lower
    half of the frame. *)
Lemma flat_crop_matches_texture_window_witness :
  isVRVideo STEREO_TB = false
  /\ sameWindow (visibleV (videoElementStyle true STEREO_TB eye_right)) 0 (1 # 2)
  /\ sameWindow (vWindow (textureMap STEREO_TB eye_right)) 0 (1 # 2).
Proof.
  assert (H : isVRVideo STEREO_TB = false) by reflexivity.
  destruct (flat_crop_matches_texture_window STEREO_TB eye_right H)
    as (_ & Hv & _).
  split; [exact H|]. split; [|vm_compute; split; reflexivity].
  destruct Hv as [H0 H1]. split.
  - rewrite H0. vm_compute. reflexivity.
  - rewrite H1. vm_compute. reflexivity.
Defined.

End FlatVideo.
